(** * devtools-core: the map-like value renderer, the property-tree builder
      and the DevToolsUtils helpers

    A shallow embedding of
    - [src/unnamed/part_001] (the DevToolsUtils module: [safeErrorString],
      [reportException], [makeInfallible], [assert], [settleAll]),
    - [src/src/reps/grip-map.js] (the [GripMap] rep),
    - the property-tree builder exercised by the test suite
      [src/unnamed/part_000],
    together with the properties the specification states about them. *)

From Stdlib Require Import ZArith Lia Bool Ascii String Sorted Permutation.
From stdpp Require Import base option list strings pretty gmap.

Set Warnings "-register-all".

Open Scope string_scope.
Open Scope Z_scope.

(** ** Completions

    A JavaScript call either returns or throws.  [Ok a] is a normal
    completion, [Throw e] an abrupt one carrying the thrown value. *)

Inductive result (E A : Type) : Type :=
| Ok (a : A)
| Throw (e : E).

Arguments Ok {E A} a.
Arguments Throw {E A} e.

Definition bind {E A B : Type} (r : result E A) (k : A -> result E B) : result E B :=
  match r with
  | Ok a => k a
  | Throw e => Throw e
  end.

Notation "'let*' x ':=' r 'in' k" := (bind r (fun x => k))
  (at level 10, x pattern, r at level 100, k at level 200).

(** try { body } catch (ex) { handler(ex) } *)
Definition try_catch {E A : Type} (body : result E A) (handler : E -> result E A) : result E A :=
  match body with
  | Ok a => Ok a
  | Throw e => handler e
  end.

Definition is_ok {E A : Type} (r : result E A) : bool :=
  match r with Ok _ => true | Throw _ => false end.

(** ** Numbers

    A JavaScript number is a double.  The code below asks three things of a
    number: its [typeof], whether it is truthy, and its string form.
    [Int z] is the double nearest to the integer [z] (an array length, a line
    number: every integer up to 2^53 is a double itself).  [Infinity] is one
    of the two infinities.  [Fraction printed] is a finite double that is not
    an integer; the code never computes with one, it prints it, and the
    number is given by the string [Number::toString] returns for it. *)

Inductive number : Type :=
| NaN
| Int (z : Z)
| Infinity (negative : bool)
| Fraction (printed : string).

Definition number_truthy (n : number) : bool :=
  match n with
  | NaN => false
  | Int z => negb (z =? 0)
  | Infinity _ | Fraction _ => true
  end.

(** The double nearest to the integer [n], [0 < n], ties to the even
    significand of 53 bits; [None] past the largest double. *)
Definition nearest_double (n : Z) : option Z :=
  let e := Z.log2 n - 52 in
  if e <=? 0 then Some n
  else
    let q := Z.shiftr n e in
    let r := n - Z.shiftl q e in
    let half := Z.shiftl 1 (e - 1) in
    let q := if (half <? r) || ((r =? half) && Z.odd q) then q + 1 else q in
    if Z.shiftl q e <? 2 ^ 1024 then Some (Z.shiftl q e) else None.

(** [Number::toString] picks the decimal with the fewest significant digits
    that the double [x] is the nearest double to, and of two with as few
    digits the one closer to [x], the even one in a tie.  The candidates with
    [p] zeros at the end are tried from the most zeros down. *)
Fixpoint shortest_decimal (x : Z) (p : nat) : Z :=
  match p with
  | O => x
  | S p' =>
      let unit := 10 ^ Z.of_nat p in
      let lo := x / unit * unit in
      let hi := lo + unit in
      let lo_ok := (0 <? lo) && bool_decide (nearest_double lo = Some x) in
      let hi_ok := bool_decide (nearest_double hi = Some x) in
      if lo_ok && hi_ok then
        if x - lo <? hi - x then lo
        else if hi - x <? x - lo then hi
        else if Z.even (lo / unit) then lo else hi
      else if lo_ok then lo
      else if hi_ok then hi
      else shortest_decimal x p'
  end.

Fixpoint drop_zeros (digits : list ascii) : list ascii :=
  match digits with
  | c :: rest => if Ascii.eqb c "0" then drop_zeros rest else digits
  | [] => []
  end.

(** The digits of [v], in decimal notation up to 21 digits and in exponent
    notation past that. *)
Definition print_decimal (v : Z) : string :=
  let digits := pretty v in
  let n := String.length digits in
  if (n <=? 21)%nat then digits
  else
    match rev (drop_zeros (rev (list_ascii_of_string digits))) with
    | [] => digits
    | [c] => String c ("e+" ++ pretty (n - 1)%nat)
    | c :: rest => String c ("." ++ string_of_list_ascii rest ++ "e+" ++ pretty (n - 1)%nat)
    end.

Definition number_toString (n : number) : string :=
  match n with
  | NaN => "NaN"
  | Int z =>
      if z =? 0 then "0"
      else
        let sign := if z <? 0 then "-" else EmptyString in
        match nearest_double (Z.abs z) with
        | Some x => sign ++ print_decimal (shortest_decimal x (String.length (pretty x) - 1))
        | None => sign ++ "Infinity"
        end
  | Infinity negative => if negative then "-Infinity" else "Infinity"
  | Fraction printed => printed
  end.

(** The line feed of the template literal in [safeErrorString]. *)
Definition LF : string := String (ascii_of_nat 10) EmptyString.

(** ** Array.prototype.sort

    [a.sort(cmp)] with a comparator that returns a negative number, zero or
    a positive number.  The language fixes a stable sort and not the
    algorithm; this is insertion from the right. *)

Fixpoint sort_insert {A : Type} (cmp : A -> A -> Z) (x : A) (l : list A) : list A :=
  match l with
  | [] => [x]
  | y :: rest => if cmp x y <=? 0 then x :: y :: rest else y :: sort_insert cmp x rest
  end.

Definition Array_sort {A : Type} (cmp : A -> A -> Z) (l : list A) : list A :=
  foldr (sort_insert cmp) [] l.

(** ** Indexes of an array

    The indexes at which the elements of an array satisfy [p], in ascending
    order; [i] is the index of the first element. *)

Fixpoint indexes_where {A : Type} (p : A -> bool) (i : nat) (l : list A) : list nat :=
  match l with
  | [] => []
  | x :: rest => if p x then i :: indexes_where p (S i) rest else indexes_where p (S i) rest
  end.

(** * DevToolsUtils ([src/unnamed/part_001]) *)

Module DevToolsUtils.

(** Values as this module sees them.  An object is described by what the
    code can observe of it: whether it is callable ([typeof] "function");
    what [Object.prototype.toString] finds when it asks for the class tag
    (the tag, or what is thrown at it: by a [Symbol.toStringTag] getter that
    throws, or by a proxy that was revoked); what reading a property does (a
    getter may throw); and what calling its [toString] method does (it may
    throw, or return something that is not a string). *)
Inductive value : Type :=
| VUndefined
| VNull
| VBool (b : bool)
| VNum (n : number)
| VStr (s : string)
| VObj (callable : bool) (class : result value string)
       (get : string -> result value value)
       (toStr : result value value).

Definition completion : Type := result value value.

(** A plain object whose property reads never throw. *)
Definition data_object (class : string) (props : string -> value) (toStr : completion) : value :=
  VObj false (Ok class) (fun p => Ok (props p)) toStr.

(** [new TypeError(message)], as thrown by the runtime itself. *)
Definition TypeError (message : string) : value :=
  data_object "Error"
    (fun p => if String.eqb p "message" then VStr message
              else if String.eqb p "name" then VStr "TypeError"
              else VUndefined)
    (Ok (VStr ("TypeError: " ++ message))).

(** [new Error(message)].  The [stack], [lineNumber] and [columnNumber] a host
    adds to an error are passed in by the caller of this constructor. *)
Definition Error_new (stack lineNumber columnNumber : value) (message : string) : value :=
  data_object "Error"
    (fun p => if String.eqb p "message" then VStr message
              else if String.eqb p "name" then VStr "Error"
              else if String.eqb p "stack" then stack
              else if String.eqb p "lineNumber" then lineNumber
              else if String.eqb p "columnNumber" then columnNumber
              else VUndefined)
    (Ok (VStr (if String.eqb message EmptyString then "Error" else "Error: " ++ message))).

Definition typeof (v : value) : string :=
  match v with
  | VUndefined => "undefined"
  | VNull => "object"
  | VBool _ => "boolean"
  | VNum _ => "number"
  | VStr _ => "string"
  | VObj callable _ _ _ => if callable then "function" else "object"
  end.

(** ToBoolean. *)
Definition truthy (v : value) : bool :=
  match v with
  | VUndefined | VNull => false
  | VBool b => b
  | VNum n => number_truthy n
  | VStr s => negb (String.eqb s EmptyString)
  | VObj _ _ _ _ => true
  end.

(** [v.p]: reading a property of [null] or [undefined] throws; primitives
    have no [stack], [lineNumber] or [columnNumber]. *)
Definition get_prop (v : value) (p : string) : completion :=
  match v with
  | VUndefined => Throw (TypeError "undefined has no properties")
  | VNull => Throw (TypeError "null has no properties")
  | VStr s =>
      if String.eqb p "length" then Ok (VNum (Int (Z.of_nat (String.length s))))
      else Ok VUndefined
  | VBool _ | VNum _ => Ok VUndefined
  | VObj _ _ get _ => get p
  end.

(** [v.toString()]. *)
Definition toString_call (v : value) : completion :=
  match v with
  | VUndefined => Throw (TypeError "undefined has no properties")
  | VNull => Throw (TypeError "null has no properties")
  | VBool b => Ok (VStr (if b then "true" else "false"))
  | VNum n => Ok (VStr (number_toString n))
  | VStr s => Ok (VStr s)
  | VObj _ _ _ toStr => toStr
  end.

(** [Object.prototype.toString.call(v)]: the generic coercion.  On an
    object it asks for the class tag, and throws what that throws. *)
Definition Object_prototype_toString (v : value) : result value string :=
  match v with
  | VUndefined => Ok "[object Undefined]"
  | VNull => Ok "[object Null]"
  | VBool _ => Ok "[object Boolean]"
  | VNum _ => Ok "[object Number]"
  | VStr _ => Ok "[object String]"
  | VObj _ class _ _ => let* class := class in Ok ("[object " ++ class ++ "]")
  end.

(** *** safeErrorString *)

(** The inner [try]: attach the stack when there is one and its string form
    is a string; the empty [catch] leaves [errorString] as it was. *)
Definition attach_stack (aError : value) (errorString : string) : result value string :=
  try_catch
    (let* st := get_prop aError "stack" in
     if truthy st then
       let* stack := toString_call st in
       match stack with
       | VStr stack => Ok (errorString ++ LF ++ "Stack: " ++ stack)
       | _ => Ok errorString
       end
     else Ok errorString)
    (fun ee => Ok errorString).

(** The line and column suffix; reading either property may throw, which
    the outer [try] catches.  A property read is a function of the object
    here, so the second read of each property by the template literal gives
    the value the [typeof] test saw. *)
Definition attach_position (aError : value) (errorString : string) : result value string :=
  let* line := get_prop aError "lineNumber" in
  if String.eqb (typeof line) "number" then
    let* column := get_prop aError "columnNumber" in
    if String.eqb (typeof column) "number" then
      match line, column with
      | VNum l, VNum c =>
          Ok (errorString ++ "Line: " ++ number_toString l
                          ++ ", column: " ++ number_toString c)
      | _, _ => Ok errorString
      end
    else Ok errorString
  else Ok errorString.

(** The body of the outer [try]: [Ok (Some s)] is [return errorString],
    [Ok None] falls out of the [if] without returning. *)
Definition safeErrorString_try (aError : value) : result value (option string) :=
  let* errorString := toString_call aError in
  match errorString with
  | VStr errorString =>
      let* errorString := attach_stack aError errorString in
      let* errorString := attach_position aError errorString in
      Ok (Some errorString)
  | _ => Ok None
  end.

Definition safeErrorString (aError : value) : result value string :=
  let* returned := try_catch (safeErrorString_try aError) (fun ee => Ok None) in
  match returned with
  | Some errorString => Ok errorString
  | None => Object_prototype_toString aError
  end.

(** *** reportException and makeInfallible *)

(** The console: the lines passed to [console.log], oldest first. *)
Definition console : Type := list string.

Definition reportException (aWho : string) (aException : value) (log : console)
  : result value unit * console :=
  match safeErrorString aException with
  | Ok str =>
      let msg := aWho ++ " threw an exception: " ++ str in
      (Ok tt, (log ++ [msg])%list)
  | Throw e => (Throw e, log)
  end.

(** A handler function: from its arguments and the console it returns or
    throws, and leaves a console. *)
Definition handler : Type := list value -> console -> completion * console.

(** The wrapper [makeInfallible] returns.  The source's [try]/[catch] around
    the call is commented out, so the body is the bare
    [return aHandler.apply(this, arguments)]; [aName] is computed and never
    read. *)
Definition makeInfallible (aHandler : handler) (aHandler_name : value) (aName : value) : handler :=
  let aName := if negb (truthy aName) then aHandler_name else aName in
  fun arguments log => aHandler arguments log.

(** *** assert *)

Definition noop (condition : value) (message : string) (log : console) : completion * console :=
  (Ok VUndefined, log).

Section Assert.

(** [AppConstants] comes from a module outside the sources, and [new Error]
    from the host: both are parameters. *)
Variables AppConstants_DEBUG AppConstants_DEBUG_JS_MODULES : value.
Variable new_Error : string -> value.

Definition reallyAssert (condition : value) (message : string) (log : console)
  : completion * console :=
  if negb (truthy condition) then
    let err := new_Error ("Assertion failure: " ++ message) in
    match reportException "DevToolsUtils.assert" err log with
    | (Ok _, log) => (Throw err, log)
    | (Throw e, log) => (Throw e, log)
    end
  else (Ok VUndefined, log).

(** Assertions are enabled when one of the three flags is truthy. *)
Definition assertions_enabled (testing : value) : bool :=
  truthy AppConstants_DEBUG || truthy AppConstants_DEBUG_JS_MODULES || truthy testing.

(** The getter of [exports.assert], read with the module's [testing] flag,
    applied to [condition] and [message]. *)
Definition assert (testing : value) : value -> string -> console -> completion * console :=
  if assertions_enabled testing then reallyAssert else noop.

End Assert.

(** *** settleAll *)

(** The state of the deferred that [settleAll] returns.  [Fulfilled] means
    resolved with the [resolutionValues] array itself (the same object the
    closure keeps writing to), so the value is read from the closure. *)
Inductive promise_state : Type :=
| Pending
| Fulfilled
| Rejected (reason : value).

(** The variables the callbacks close over.  [None] in [resolutionValues] is
    a hole of [new Array(countdown)]. *)
Record closure : Type := {
  countdown : Z;
  resolutionValues : list (option value);
  rejectionValue : value;
  rejectionOccurred : bool;
  deferred : promise_state
}.

(** [deferred.resolve(resolutionValues)]: settling a settled promise again
    does nothing. *)
Definition deferred_resolve (st : closure) : closure :=
  match deferred st with
  | Pending =>
      {| countdown := countdown st; resolutionValues := resolutionValues st;
         rejectionValue := rejectionValue st; rejectionOccurred := rejectionOccurred st;
         deferred := Fulfilled |}
  | _ => st
  end.

Definition deferred_reject (reason : value) (st : closure) : closure :=
  match deferred st with
  | Pending =>
      {| countdown := countdown st; resolutionValues := resolutionValues st;
         rejectionValue := rejectionValue st; rejectionOccurred := rejectionOccurred st;
         deferred := Rejected reason |}
  | _ => st
  end.

Definition checkForCompletion (st : closure) : closure :=
  let st := {| countdown := countdown st - 1; resolutionValues := resolutionValues st;
               rejectionValue := rejectionValue st; rejectionOccurred := rejectionOccurred st;
               deferred := deferred st |} in
  if 0 <? countdown st then st
  else if negb (rejectionOccurred st) then deferred_resolve st
  else deferred_reject (rejectionValue st) st.

(** [a[index] = x]; past the end a JavaScript array grows, leaving holes. *)
Definition array_set {A : Type} (index : nat) (x : A) (a : list (option A)) : list (option A) :=
  if (index <? length a)%nat then <[index := Some x]> a
  else (a ++ replicate (index - length a) None ++ [Some x])%list.

Definition resolver (index : nat) (result : value) (st : closure) : closure :=
  checkForCompletion
    {| countdown := countdown st;
       resolutionValues := array_set index result (resolutionValues st);
       rejectionValue := rejectionValue st; rejectionOccurred := rejectionOccurred st;
       deferred := deferred st |}.

Definition rejecter (error : value) (st : closure) : closure :=
  checkForCompletion
    (if negb (rejectionOccurred st) then
       {| countdown := countdown st; resolutionValues := resolutionValues st;
          rejectionValue := error; rejectionOccurred := true;
          deferred := deferred st |}
     else st).

(** [value && typeof value.then == "function"]; reading [then] may throw. *)
Definition isThenable (v : value) : result value bool :=
  if truthy v then
    let* t := get_prop v "then" in
    Ok (String.eqb (typeof t) "function")
  else Ok false.

(** The [for] loop from index [i] on.  A thenable is subscribed to: its index
    joins [subscribed], and one of its two callbacks runs later (a thenable
    is taken to keep the promise contract: [then] returns, and calls nothing
    back before [settleAll] has returned).  Any other value goes to
    [resolver] at once. *)
Fixpoint settleAll_loop (i : nat) (values : list value) (st : closure) (subscribed : list nat)
  : result value (closure * list nat) :=
  match values with
  | [] => Ok (st, subscribed)
  | value :: rest =>
      let* thenable := isThenable value in
      if thenable then settleAll_loop (S i) rest st (subscribed ++ [i])%list
      else settleAll_loop (S i) rest (resolver i value st) subscribed
  end.

(** The argument of [settleAll], by what the guard and the spread see. *)
Inductive argument : Type :=
| ArgNull
| ArgUndefined
| ArgNotIterable                  (* typeof values[Symbol.iterator] is not "function" *)
| ArgArray (elems : list value)   (* Array.isArray(values) *)
| ArgIterable (elems : list value) (* [...values] yields elems *).

Definition settleAll_Error : value :=
  data_object "Error"
    (fun p => if String.eqb p "message" then VStr "settleAll() expects an iterable."
              else VUndefined)
    (Ok (VStr "Error: settleAll() expects an iterable.")).

Definition settleAll_start (values : list value) : result value (closure * list nat) :=
  let countdown := Z.of_nat (length values) in
  let st := {| countdown := countdown;
               resolutionValues := replicate (length values) None;
               rejectionValue := VUndefined;
               rejectionOccurred := false;
               deferred := Pending |} in
  if countdown =? 0 then Ok (deferred_resolve st, [])
  else settleAll_loop 0 values st [].

(** [settleAll(values)] up to its [return]: the closure with the deferred
    whose promise is returned, and the indexes subscribed to. *)
Definition settleAll (values : argument) : result value (closure * list nat) :=
  match values with
  | ArgNull => Throw settleAll_Error
  | ArgUndefined => Throw (TypeError "values is undefined")
  | ArgNotIterable => Throw settleAll_Error
  | ArgArray elems => settleAll_start elems
  | ArgIterable elems => settleAll_start elems
  end.

(** What happens after the return: a subscribed input settles, and the
    callback registered for its index runs. *)
Inductive settlement : Type :=
| Resolves (result : value)
| Rejects (error : value).

Definition event : Type := (nat * settlement)%type.

Definition deliver (st : closure) (ev : event) : closure :=
  match snd ev with
  | Resolves result => resolver (fst ev) result st
  | Rejects error => rejecter error st
  end.

Definition run (evs : list event) (st : closure) : closure :=
  fold_left deliver evs st.

Definition is_rejection (ev : event) : bool :=
  match snd ev with Rejects _ => true | Resolves _ => false end.

(** The value of the returned promise once fulfilled. *)
Definition fulfilment (st : closure) : list (option value) := resolutionValues st.

(** The result array the returned promise hands to its consumers: there is
    one once [deferred.resolve(resolutionValues)] has run. *)
Definition delivered (st : closure) : option (list (option value)) :=
  match deferred st with
  | Fulfilled => Some (fulfilment st)
  | Pending | Rejected _ => None
  end.

(** The reason of the first rejection among the events, in the order they
    happen. *)
Fixpoint first_rejection (evs : list event) : option value :=
  match evs with
  | [] => None
  | ev :: rest =>
      match snd ev with
      | Rejects error => Some error
      | Resolves _ => first_rejection rest
      end
  end.

Definition is_thenable (v : value) : bool :=
  match isThenable v with
  | Ok true => true
  | _ => false
  end.

(** The indexes of the thenables among [values], the first of which has
    index [i]. *)
Definition thenable_indexes (i : nat) (values : list value) : list nat :=
  indexes_where is_thenable i values.

(** *** dbg_assert *)

(** The module variable [haveLoggedDeprecationMessage] and the two channels
    of the console the function writes to. *)
Record dbg_state : Type := {
  haveLoggedDeprecationMessage : bool;
  dbg_log : console;      (* console.log *)
  dbg_warn : console      (* console.warn *)
}.

Section DbgAssert.

(** [Error().stack] as the template literal renders it, and whether the host
    has a [console] object with a [warn] method: both belong to the host. *)
Variable Error_stack : string.
Variable console_warn : bool.

Definition deprecationMessage : string :=
  "DevToolsUtils.dbg_assert is deprecated! Use DevToolsUtils.assert instead!" ++ Error_stack.

Definition dbg_assert (cond e : value) (st : dbg_state) : value * dbg_state :=
  let st :=
    if negb (haveLoggedDeprecationMessage st) then
      {| haveLoggedDeprecationMessage := true;
         dbg_log := (dbg_log st ++ [deprecationMessage])%list;
         dbg_warn := if console_warn then (dbg_warn st ++ [deprecationMessage])%list
                     else dbg_warn st |}
    else st in
  if negb (truthy cond) then (e, st) else (VUndefined, st).

(** A run of calls, one after the other. *)
Fixpoint dbg_assert_calls (calls : list (value * value)) (st : dbg_state)
  : list value * dbg_state :=
  match calls with
  | [] => ([], st)
  | (cond, e) :: rest =>
      let '(r, st) := dbg_assert cond e st in
      let '(rs, st) := dbg_assert_calls rest st in
      (r :: rs, st)
  end.

End DbgAssert.

(** *** defineLazyGetter *)

(** An own property of the object a lazy getter is defined on: a plain value,
    or the accessor [defineLazyGetter] installs.  The accessor's getter closes
    over [aName] and [aLambda]; [aLambda] is given by the outcome of its
    [k]-th call.  The object is an ordinary extensible one, its properties
    configurable, and nothing up its prototype chain bears the name. *)
Inductive lazy_property : Type :=
| LazyData (v : value)
| LazyAccessor (aName : string) (aLambda : nat -> completion).

Record lazy_object : Type := {
  lazy_props : gmap string lazy_property;
  lazy_calls : nat       (* how often a lambda has been applied so far *)
}.

Definition defineLazyGetter (aName : string) (aLambda : nat -> completion) (aObject : lazy_object)
  : lazy_object :=
  {| lazy_props := <[aName := LazyAccessor aName aLambda]> (lazy_props aObject);
     lazy_calls := lazy_calls aObject |}.

(** [aObject[key]]: a plain value is read; an accessor runs its getter, which
    deletes [aObject[aName]], applies the lambda, and assigns the result to
    [aObject[aName]] unless the lambda threw. *)
Definition lazy_read (key : string) (aObject : lazy_object) : completion * lazy_object :=
  match lazy_props aObject !! key with
  | None => (Ok VUndefined, aObject)
  | Some (LazyData v) => (Ok v, aObject)
  | Some (LazyAccessor aName aLambda) =>
      let deleted := delete aName (lazy_props aObject) in
      match aLambda (lazy_calls aObject) with
      | Ok v =>
          (Ok v, {| lazy_props := <[aName := LazyData v]> deleted;
                    lazy_calls := S (lazy_calls aObject) |})
      | Throw e =>
          (Throw e, {| lazy_props := deleted; lazy_calls := S (lazy_calls aObject) |})
      end
  end.

(** [n] reads of the same key in a row. *)
Fixpoint lazy_reads (n : nat) (key : string) (aObject : lazy_object)
  : list completion * lazy_object :=
  match n with
  | O => ([], aObject)
  | S n =>
      let '(r, aObject) := lazy_read key aObject in
      let '(rs, aObject) := lazy_reads n key aObject in
      (r :: rs, aObject)
  end.

(** *** defineLazyPrototypeGetter *)

(** The receiver of a read: the prototype itself, or one of its instances. *)
Inductive receiver : Type :=
| ThePrototype
| Instance (id : nat).

(** An own property of the prototype or of an instance: a plain value, or the
    accessor [defineLazyPrototypeGetter] installs, whose getter closes over
    [aKey] and [aCallback] and is sensitive to [this].  [aCallback] is given
    by the outcome of its [k]-th call on a receiver. *)
Inductive proto_property : Type :=
| ProtoData (v : value)
| ProtoAccessor (aKey : string) (aCallback : receiver -> nat -> completion).

(** A prototype and the instances that inherit from it, all extensible;
    an instance not in the map has no own property. *)
Record proto_world : Type := {
  the_prototype : gmap string proto_property;
  the_instances : gmap nat (gmap string proto_property);
  proto_calls : nat
}.

Definition own_properties (this : receiver) (w : proto_world) : gmap string proto_property :=
  match this with
  | ThePrototype => the_prototype w
  | Instance id => default ∅ (the_instances w !! id)
  end.

(** [Object.defineProperty(this, key, { configurable, writable, value })] *)
Definition define_own (this : receiver) (key : string) (p : proto_property) (calls : nat)
    (w : proto_world) : proto_world :=
  match this with
  | ThePrototype =>
      {| the_prototype := <[key := p]> (the_prototype w);
         the_instances := the_instances w;
         proto_calls := calls |}
  | Instance id =>
      {| the_prototype := the_prototype w;
         the_instances := <[id := <[key := p]> (own_properties this w)]> (the_instances w);
         proto_calls := calls |}
  end.

Definition defineLazyPrototypeGetter (aKey : string)
    (aCallback : receiver -> nat -> completion) (w : proto_world) : proto_world :=
  define_own ThePrototype aKey (ProtoAccessor aKey aCallback) (proto_calls w) w.

(** The property a read of [this[key]] finds: an own one, else the
    prototype's. *)
Definition find_property (this : receiver) (key : string) (w : proto_world)
  : option proto_property :=
  match own_properties this w !! key with
  | Some p => Some p
  | None => the_prototype w !! key
  end.

(** [this[key]]; the getter calls the callback on [this], defines the value on
    [this] and returns it. *)
Definition proto_read (this : receiver) (key : string) (w : proto_world)
  : completion * proto_world :=
  match find_property this key w with
  | None => (Ok VUndefined, w)
  | Some (ProtoData v) => (Ok v, w)
  | Some (ProtoAccessor aKey aCallback) =>
      match aCallback this (proto_calls w) with
      | Ok value => (Ok value, define_own this aKey (ProtoData value) (S (proto_calls w)) w)
      | Throw e =>
          (Throw e, {| the_prototype := the_prototype w;
                       the_instances := the_instances w;
                       proto_calls := S (proto_calls w) |})
      end
  end.

(** *** update *)

(** An object by its own enumerable properties, each with its descriptor.
    [for (key in attrs)] also visits inherited names, for which
    [Object.getOwnPropertyDescriptor] gives [undefined] and nothing is
    defined.  The target is an ordinary extensible object whose properties
    are configurable. *)
Definition update {D : Type} (aTarget : gmap string D) (aArgs : list (gmap string D))
  : gmap string D :=
  foldl (fun aTarget attrs =>
           map_fold (fun key desc aTarget => <[key := desc]> aTarget) aTarget attrs)
        aTarget aArgs.

(** *** getProperty and hasSafeGetter *)

(** [x == "Function"].  An object is compared through its [toString], its
    [valueOf] being the default one that returns the object. *)
Definition loose_eq_Function (x : value) : result value bool :=
  match x with
  | VStr s => Ok (String.eqb s "Function")
  | VUndefined | VNull | VBool _ | VNum _ => Ok false
  | VObj _ _ _ toStr =>
      let* primitive := toStr in
      match primitive with
      | VStr s => Ok (String.eqb s "Function")
      | VObj _ _ _ _ => Throw (TypeError "can't convert to primitive type")
      | _ => Ok false
      end
  end.

(** The getter of an accessor descriptor, a Debugger.Object: what [unwrap()]
    does, and what [call(this)] does, [this] being given by its place in the
    prototype chain the walk started from (0 is the object itself). *)
Record getter : Type := {
  unwrap : completion;
  call : nat -> completion
}.

(** A property descriptor: [desc_value] is [Some v] when ["value" in desc];
    [desc_get] is [None] when [desc.get] is [undefined]. *)
Record descriptor : Type := {
  desc_value : option value;
  desc_get : option getter
}.

(** A Debugger.Object, by its [getOwnPropertyDescriptor]; [None] is the
    [undefined] of a name the object does not own.  Its [proto] is the next
    object of the chain. *)
Record debugger_object : Type := {
  getOwnPropertyDescriptor : string -> result value (option descriptor)
}.

(** The truth value of what [hasSafeGetter] returns. *)
Definition hasSafeGetter (aDesc : descriptor) : result value bool :=
  try_catch
    (let* fn :=
       match desc_get aDesc with
       | Some get => unwrap get
       | None => Throw (TypeError "aDesc.get is undefined")
       end in
     if truthy fn then
       let* callable := get_prop fn "callable" in
       if truthy callable then
         let* class := get_prop fn "class" in
         let* is_function := loose_eq_Function class in
         if is_function then
           let* script := get_prop fn "script" in
           Ok (match script with VUndefined => true | _ => false end)
         else Ok false
       else Ok false
     else Ok false)
    (fun e => Ok false).

(** The [do ... while (aObj)] loop: [Ok (Some v)] is [return v] from inside
    it, [Ok None] leaves it at the end of the chain. *)
Fixpoint getProperty_loop (aKey : string) (aObj : debugger_object)
    (protos : list debugger_object) : result value (option value) :=
  let* desc := getOwnPropertyDescriptor aObj aKey in
  match desc with
  | Some desc =>
      match desc_value desc with
      | Some v => Ok (Some v)
      | None =>
          let* safe := hasSafeGetter desc in
          if safe then
            let* completion_value :=
              match desc_get desc with
              | Some get => call get 0%nat
              | None => Throw (TypeError "desc.get is undefined")
              end in
            let* returned := get_prop completion_value "return" in
            Ok (Some returned)
          else Ok (Some VUndefined)
      end
  | None =>
      match protos with
      | [] => Ok None
      | proto :: protos => getProperty_loop aKey proto protos
      end
  end.

(** The body of the [try], on the chain [aObj, aObj.proto, ...]; the empty
    chain is an [aObj] that is [null] or [undefined]. *)
Definition getProperty_try (chain : list debugger_object) (aKey : string)
  : result value (option value) :=
  match chain with
  | [] => Throw (TypeError "aObj has no properties")
  | aObj :: protos => getProperty_loop aKey aObj protos
  end.

(** [getProperty(aObj, aKey)]: the [catch] hands what was thrown to
    [reportException], outside of any [try]. *)
Definition getProperty (chain : list debugger_object) (aKey : string) (log : console)
  : completion * console :=
  match getProperty_try chain aKey with
  | Ok (Some v) => (Ok v, log)
  | Ok None => (Ok VUndefined, log)
  | Throw e =>
      match reportException "getProperty" e log with
      | (Ok _, log) => (Ok VUndefined, log)
      | (Throw e', log) => (Throw e', log)
      end
  end.

(** *** yieldingEach *)

Inductive each_deferred : Type :=
| EachPending
| EachResolved
| EachRejected (e : value).

(** The variables [loop] closes over, and how often [Date.now] was read.
    [each_outstanding] holds what was pushed after [deferred.promise]. *)
Record each_state : Type := {
  each_i : nat;
  each_outstanding : list value;
  each_settled : each_deferred;
  each_reads : nat
}.

Section YieldingEach.

(** The clock is the host's: [Date_now k] is what the [k]-th call of
    [Date.now()] returns.  [aFn] is given by what it does on an element and
    its index.  The array is not changed while it is iterated. *)
Variable Date_now : nat -> Z.
Variable aFn : value -> nat -> completion.

(** The [while] loop of one run of [loop], on the elements from index [i] on.
    It returns the state and the elements left. *)
Fixpoint each_while (start : Z) (rest : list value) (st : each_state)
  : each_state * list value :=
  match rest with
  | [] =>
      ({| each_i := each_i st; each_outstanding := each_outstanding st;
          each_settled := EachResolved; each_reads := each_reads st |}, [])
  | x :: rest' =>
      let t := Date_now (each_reads st) in
      if 16 <? t - start then
        (* executeSoon(loop); return *)
        ({| each_i := each_i st; each_outstanding := each_outstanding st;
            each_settled := each_settled st; each_reads := S (each_reads st) |}, rest)
      else
        match aFn x (each_i st) with
        | Ok r =>
            each_while start rest'
              {| each_i := S (each_i st);
                 each_outstanding := (each_outstanding st ++ [r])%list;
                 each_settled := each_settled st; each_reads := S (each_reads st) |}
        | Throw e =>
            ({| each_i := S (each_i st); each_outstanding := each_outstanding st;
                each_settled := EachRejected e; each_reads := S (each_reads st) |}, rest')
        end
  end.

(** One run of [loop]. *)
Definition each_loop (rest : list value) (st : each_state) : each_state * list value :=
  let start := Date_now (each_reads st) in
  each_while start rest
    {| each_i := each_i st; each_outstanding := each_outstanding st;
       each_settled := each_settled st; each_reads := S (each_reads st) |}.

Definition each_start : each_state :=
  {| each_i := 0; each_outstanding := []; each_settled := EachPending; each_reads := 0 |}.

(** The first run, made by [yieldingEach] itself, and the runs the timer
    makes after it, [n] runs at most. *)
Fixpoint each_runs (n : nat) (rest : list value) (st : each_state) : each_state * list value :=
  match n with
  | O => (st, rest)
  | S n =>
      let '(st', rest') := each_loop rest st in
      match each_settled st' with
      | EachPending => each_runs n rest' st'
      | _ => (st', rest')
      end
  end.

Definition yieldingEach (aArray : list value) (runs : nat) : each_state * list value :=
  each_runs runs aArray each_start.

(** What a plain loop over the elements does, for comparison: [aFn] on each
    element with its index, from index [i] on, up to the first call that
    throws.  It gives the values returned and what was thrown, if anything. *)
Fixpoint forEach_from (i : nat) (xs : list value) : list value * option value :=
  match xs with
  | [] => ([], None)
  | x :: xs =>
      match aFn x i with
      | Ok r => let '(rs, thrown) := forEach_from (S i) xs in (r :: rs, thrown)
      | Throw e => ([], Some e)
      end
  end.

(** Where the iteration over [aArray] stands, read off the closure's
    variables and the elements left. *)
Definition each_stands (aArray : list value) (st : each_state) (rest : list value) : Prop :=
  match each_settled st with
  | EachPending =>
      exists visited,
        aArray = (visited ++ rest)%list
        /\ each_i st = length visited
        /\ forEach_from 0 visited = (each_outstanding st, None)
  | EachResolved =>
      rest = []
      /\ each_i st = length aArray
      /\ forEach_from 0 aArray = (each_outstanding st, None)
  | EachRejected e =>
      exists visited x,
        aArray = (visited ++ x :: rest)%list
        /\ each_i st = S (length visited)
        /\ aFn x (length visited) = Throw e
        /\ forEach_from 0 aArray = (each_outstanding st, Some e)
  end.

End YieldingEach.

(** Sample inputs. *)

(** An object whose [toString] throws and whose getters throw too. *)
Definition hostile : value :=
  VObj false (Ok "Object") (fun _ => Throw (VStr "getter")) (Throw (VStr "toString")).

(** An object whose [toString] throws and whose class tag cannot be read:
    [{ toString() { throw "toString" },
       get [Symbol.toStringTag]() { throw "tag" } }]. *)
Definition untaggable : value :=
  VObj false (Throw (VStr "tag")) (fun _ => Ok VUndefined) (Throw (VStr "toString")).

(** An error as a host makes it: string form, stack, line 3, column 7. *)
Definition sample_error : value :=
  Error_new (VStr "f@file.js:3:7") (VNum (Int 3)) (VNum (Int 7)) "boom".

(** A handler that throws the string "boom" and logs nothing. *)
Definition throwing_handler : handler :=
  fun _ log => (Throw (VStr "boom"), log).

Definition host_Error : string -> value :=
  Error_new VUndefined VUndefined VUndefined.

(** A promise: an object with a callable [then]. *)
Definition a_promise : value :=
  VObj false (Ok "Promise")
    (fun p => if String.eqb p "then"
              then Ok (VObj true (Ok "Function") (fun _ => Ok VUndefined) (Ok (VStr "function then() {}")))
              else Ok VUndefined)
    (Ok (VStr "[object Promise]")).

(** An error whose [lineNumber] getter throws. *)
Definition line_getter_throws : value :=
  VObj false (Ok "Error")
    (fun p => if String.eqb p "lineNumber" then Throw VNull else Ok VUndefined)
    (Ok (VStr "Error: x")).

Definition empty_lazy_object : lazy_object := {| lazy_props := ∅; lazy_calls := 0 |}.

(** A lambda that returns the number of its earlier applications. *)
Definition counting_lambda : nat -> completion := fun k => Ok (VNum (Int (Z.of_nat k))).

Definition empty_proto_world : proto_world :=
  {| the_prototype := ∅; the_instances := ∅; proto_calls := 0 |}.

(** A callback that tells the prototype from an instance. *)
Definition name_of_receiver : receiver -> nat -> completion :=
  fun this _ =>
    match this with
    | ThePrototype => Ok (VStr "prototype")
    | Instance _ => Ok (VStr "instance")
    end.

(** A callback that throws the first time it is applied. *)
Definition fails_once : receiver -> nat -> completion :=
  fun _ k =>
    match k with
    | O => Throw (VStr "not yet")
    | S _ => Ok (VStr "second try")
    end.

(** Debugger.Objects for the examples. *)
Definition owns_nothing : debugger_object :=
  {| getOwnPropertyDescriptor := fun _ => Ok None |}.

Definition owns_length : debugger_object :=
  {| getOwnPropertyDescriptor := fun key =>
       if String.eqb key "length"
       then Ok (Some {| desc_value := Some (VNum (Int 3)); desc_get := None |})
       else Ok None |}.

Definition throws_on_lookup : debugger_object :=
  {| getOwnPropertyDescriptor := fun _ => Throw (VStr "invisible to Debugger") |}.

(** The completion value of a getter called on the object at place [this]. *)
Definition native_completion (this : nat) : value :=
  data_object "Object"
    (fun p => if String.eqb p "return" then VStr ("called on " ++ pretty this) else VUndefined)
    (Ok (VStr "[object Object]")).

(** What [unwrap()] gives for a native function, and for a scripted one. *)
Definition unwrapped_function (script : value) : value :=
  data_object "Object"
    (fun p => if String.eqb p "callable" then VBool true
              else if String.eqb p "class" then VStr "Function"
              else if String.eqb p "script" then script
              else VUndefined)
    (Ok (VStr "[object Object]")).

Definition native_getter : getter :=
  {| unwrap := Ok (unwrapped_function VUndefined);
     call := fun this => Ok (native_completion this) |}.

Definition scripted_getter : getter :=
  {| unwrap := Ok (unwrapped_function (VStr "script"));
     call := fun this => Ok (native_completion this) |}.

Definition owns_native_getter : debugger_object :=
  {| getOwnPropertyDescriptor := fun key =>
       if String.eqb key "size"
       then Ok (Some {| desc_value := None; desc_get := Some native_getter |})
       else Ok None |}.

Definition owns_scripted_getter : debugger_object :=
  {| getOwnPropertyDescriptor := fun key =>
       if String.eqb key "size"
       then Ok (Some {| desc_value := None; desc_get := Some scripted_getter |})
       else Ok None |}.

(** A callback that throws at index 1. *)
Definition fails_on_second (x : value) (i : nat) : completion :=
  if (i =? 1)%nat then Throw (VStr "second") else Ok x.

End DevToolsUtils.

(** * The map-like value renderer ([src/src/reps/grip-map.js]) *)

Module GripMap.

(** A grip is a snapshot the debugging protocol serialises: plain data. *)
Inductive value : Type :=
| Undefined
| Null
| Bool (b : bool)
| Num (n : number)
| Str (s : string)
| Arr (elems : list value)
| Obj (props : list (string * value)).

(** What a [catch] receives here: the message of the runtime's TypeError, or
    of whatever a filter supplied through the props threw. *)
Definition exn : Type := string.

Definition typeof (v : value) : string :=
  match v with
  | Undefined => "undefined"
  | Null => "object"
  | Bool _ => "boolean"
  | Num _ => "number"
  | Str _ => "string"
  | Arr _ | Obj _ => "object"
  end.

Definition truthy (v : value) : bool :=
  match v with
  | Undefined | Null => false
  | Bool b => b
  | Num n => number_truthy n
  | Str s => negb (String.eqb s EmptyString)
  | Arr _ | Obj _ => true
  end.

Fixpoint lookup_prop (p : string) (props : list (string * value)) : value :=
  match props with
  | [] => Undefined
  | (k, v) :: rest => if String.eqb k p then v else lookup_prop p rest
  end.

(** [v.p] for the property names the renderer reads ([preview], [entries],
    [value], [class], [length]). *)
Definition get_prop (v : value) (p : string) : result exn value :=
  match v with
  | Undefined => Throw "TypeError: undefined has no properties"
  | Null => Throw "TypeError: null has no properties"
  | Bool _ | Num _ => Ok Undefined
  | Str s =>
      if String.eqb p "length" then Ok (Num (Int (Z.of_nat (String.length s))))
      else Ok Undefined
  | Arr elems =>
      if String.eqb p "length" then Ok (Num (Int (Z.of_nat (length elems))))
      else Ok Undefined
  | Obj props => Ok (lookup_prop p props)
  end.

Definition is_undefined (v : value) : bool :=
  match v with Undefined => true | _ => false end.

Definition lower_ascii (c : ascii) : ascii :=
  let n := nat_of_ascii c in
  if ((65 <=? n) && (n <=? 90))%nat then ascii_of_nat (n + 32) else c.

Fixpoint lower (s : string) : string :=
  match s with
  | EmptyString => EmptyString
  | String c rest => String (lower_ascii c) (lower rest)
  end.

(** [x.toLowerCase()]: only a string has the method. *)
Definition toLowerCase (x : value) : result exn string :=
  match x with
  | Str s => Ok (lower s)
  | Undefined => Throw "TypeError: undefined has no properties"
  | Null => Throw "TypeError: null has no properties"
  | _ => Throw "TypeError: toLowerCase is not a function"
  end.

(** The array pattern [[key, entry]] applied to an element of the entries
    array: an array gives its first two elements, a string its first two
    characters, anything else is not iterable. *)
Definition destructure_pair (el : value) : result exn (value * value) :=
  match el with
  | Arr elems => Ok (nth 0 elems Undefined, nth 1 elems Undefined)
  | Str s =>
      Ok (match s with
          | EmptyString => (Undefined, Undefined)
          | String a EmptyString => (Str (String a EmptyString), Undefined)
          | String a (String b _) => (Str (String a EmptyString), Str (String b EmptyString))
          end)
  | _ => Throw "TypeError: not iterable"
  end.

(** An entry filter: called with the type, the value and the key. *)
Definition filter : Type := string -> value -> value -> result exn bool.

(** *** [x != 0]

    The abstract equality of the language, for the comparison with the
    number 0 the default filter makes.  A string is converted with
    [StringToNumber]; an array or an object is first converted to a string.
    Strings are sequences of code units below 256, so the white space is
    the six ASCII characters and the no-break space. *)

Definition is_space (c : ascii) : bool :=
  let n := nat_of_ascii c in
  ((n =? 9) || (n =? 10) || (n =? 11) || (n =? 12) || (n =? 13) || (n =? 32) || (n =? 160))%nat.

Fixpoint trim_left (l : list ascii) : list ascii :=
  match l with
  | c :: rest => if is_space c then trim_left rest else l
  | [] => []
  end.

Definition trim (l : list ascii) : list ascii := rev (trim_left (rev (trim_left l))).

Definition in_range (lo hi : nat) (c : ascii) : bool :=
  let n := nat_of_ascii c in ((lo <=? n) && (n <=? hi))%nat.

Definition is_dec : ascii -> bool := in_range 48 57.
Definition is_hex (c : ascii) : bool := is_dec c || in_range 65 70 c || in_range 97 102 c.
Definition is_oct : ascii -> bool := in_range 48 55.
Definition is_bin : ascii -> bool := in_range 48 49.

Fixpoint span (p : ascii -> bool) (l : list ascii) : list ascii * list ascii :=
  match l with
  | c :: rest =>
      if p c then let '(taken, others) := span p rest in (c :: taken, others) else ([], l)
  | [] => ([], [])
  end.

Definition is_empty (l : list ascii) : bool := match l with [] => true | _ => false end.

Definition all_zeros (l : list ascii) : bool := forallb (fun c => Ascii.eqb c "0") l.

Fixpoint decimal_value (acc : Z) (digits : list ascii) : Z :=
  match digits with
  | [] => acc
  | c :: rest => decimal_value (10 * acc + (Z.of_nat (nat_of_ascii c) - 48)) rest
  end.

(** The digits of a literal [0x...], [0o...] or [0b...], with the test for
    a digit of that base. *)
Definition radix_literal (l : list ascii) : option ((ascii -> bool) * list ascii) :=
  match l with
  | zero :: c :: digits =>
      if Ascii.eqb zero "0" then
        if Ascii.eqb c "x" || Ascii.eqb c "X" then Some (is_hex, digits)
        else if Ascii.eqb c "o" || Ascii.eqb c "O" then Some (is_oct, digits)
        else if Ascii.eqb c "b" || Ascii.eqb c "B" then Some (is_bin, digits)
        else None
      else None
  | _ => None
  end.

(** The exponent after the digits of a decimal literal: nothing, or [e] or
    [E], a sign or none, and digits up to the end; [None] for anything else. *)
Definition exponent_part (l : list ascii) : option Z :=
  match l with
  | [] => Some 0
  | c :: rest =>
      if Ascii.eqb c "e" || Ascii.eqb c "E" then
        let '(negative, digits) :=
          match rest with
          | sign :: digits' =>
              if Ascii.eqb sign "-" then (true, digits')
              else if Ascii.eqb sign "+" then (false, digits')
              else (false, rest)
          | [] => (false, rest)
          end in
        if negb (is_empty digits) && forallb is_dec digits then
          Some (if negative then - decimal_value 0 digits else decimal_value 0 digits)
        else None
      else None
  end.

(** Whether an unsigned decimal literal denotes zero: its digits are all
    zeros, or its value is at most 2^-1075 and rounds to the double 0.  A
    string that is no decimal literal, whose number is NaN, is not zero. *)
Definition decimal_is_zero (l : list ascii) : bool :=
  if String.eqb (string_of_list_ascii l) "Infinity" then false
  else
    let '(int_part, rest) := span is_dec l in
    let '(frac_part, rest) :=
      match rest with
      | c :: rest' => if Ascii.eqb c "." then span is_dec rest' else ([], rest)
      | [] => ([], rest)
      end in
    if is_empty int_part && is_empty frac_part then false
    else
      match exponent_part rest with
      | None => false
      | Some e =>
          let m := decimal_value 0 (int_part ++ frac_part) in
          let e := e - Z.of_nat (length frac_part) in
          (m =? 0) || ((e <? 0) && (m * 2 ^ 1075 <=? 10 ^ (- e)))
      end.

(** [StringToNumber(s)] is zero. *)
Definition string_is_zero (s : string) : bool :=
  let l := trim (list_ascii_of_string s) in
  match radix_literal l with
  | Some (is_digit, digits) => negb (is_empty digits) && forallb is_digit digits && all_zeros digits
  | None =>
      match l with
      | [] => true
      | c :: rest =>
          if Ascii.eqb c "+" || Ascii.eqb c "-" then decimal_is_zero rest
          else decimal_is_zero l
      end
  end.

Definition has_own (p : string) (props : list (string * value)) : bool :=
  existsb (fun kv => String.eqb (fst kv) p) props.

(** [String(v)] for the data a grip holds.  An array joins its elements with
    commas, [null] and [undefined] among them as the empty string.  A plain
    object prints as [[object Object]], unless a property of its own named
    [toString] hides the method: a grip holds data, not functions, and the
    conversion then finds nothing to call and throws. *)
Fixpoint ToString (v : value) : result exn string :=
  match v with
  | Undefined => Ok "undefined"
  | Null => Ok "null"
  | Bool b => Ok (if b then "true" else "false")
  | Num n => Ok (number_toString n)
  | Str s => Ok s
  | Arr elems =>
      (fix join (l : list value) : result exn string :=
         match l with
         | [] => Ok EmptyString
         | x :: rest =>
             let* first :=
               match x with
               | Undefined | Null => Ok EmptyString
               | _ => ToString x
               end in
             match rest with
             | [] => Ok first
             | _ => let* others := join rest in Ok (first ++ "," ++ others)
             end
         end) elems
  | Obj props =>
      if has_own "toString" props then Throw "TypeError: can't convert to primitive type"
      else Ok "[object Object]"
  end.

(** [x != 0] *)
Definition ne_zero (x : value) : result exn bool :=
  match x with
  | Undefined | Null => Ok true
  | Bool b => Ok b
  | Num n => Ok (match n with Int z => negb (z =? 0) | _ => true end)
  | Str s => Ok (negb (string_is_zero s))
  | Arr _ | Obj _ => let* s := ToString x in Ok (negb (string_is_zero s))
  end.

(** What the component is rendered with.  The other props ([objectLink], the
    mouse handlers, [attachedActorIds]) are handed to [PropRep] untouched and
    are left out. *)
Record props : Type := {
  isInterestingEntry : option filter
}.

(** The default entry filter of [entriesIterator]. *)
Definition default_isInterestingEntry : filter :=
  fun type value _ =>
    if String.eqb type "boolean" then Ok true
    else if String.eqb type "number" then Ok true
    else if String.eqb type "string" then
      let* len := get_prop value "length" in
      ne_zero len
    else Ok false.

(** The elements the iterator returns. *)
Inductive element : Type :=
| PropRep (name : value) (object : value) (delim : string)
| Caption (more : Z)   (* the caption reads: <more> more... *).

Definition by_index (a b : nat) : Z := Z.of_nat a - Z.of_nat b.

(** [entry.value !== undefined ? entry.value : entry], as [getEntries]
    writes it: no guard on [entryValue]. *)
Definition unwrap_unguarded (entryValue : value) : result exn value :=
  let* v := get_prop entryValue "value" in
  if negb (is_undefined v) then Ok v else Ok entryValue.

(** The same with the guard of [getEntriesIndexes]. *)
Definition unwrap_guarded (entry : value) : value :=
  if truthy entry then
    match get_prop entry "value" with
    | Ok v => if negb (is_undefined v) then v else entry
    | Throw _ => entry
    end
  else entry.

(** [(value && value.class ? value.class : typeof value).toLowerCase()] *)
Definition type_of_value (value : value) : result exn string :=
  if truthy value then
    let* class := get_prop value "class" in
    if truthy class then toLowerCase class
    else toLowerCase (Str (typeof value))
  else toLowerCase (Str (typeof value)).

(** One entry through a filter, as the body of the [reduce] callback does. *)
Definition entry_passes (f : filter) (key entry : value) : result exn bool :=
  let value := unwrap_guarded entry in
  let* type := type_of_value value in
  f type value key.

(** The [reduce] of [getEntriesIndexes], from index [i] on. *)
Fixpoint getEntriesIndexes_from (i : nat) (entries : list value) (max : Z) (f : filter)
    (indexes : list nat) : result exn (list nat) :=
  match entries with
  | [] => Ok indexes
  | el :: rest =>
      let* kv := destructure_pair el in
      let '(key, entry) := kv in
      if Z.of_nat (length indexes) <? max then
        let* keep := entry_passes f key entry in
        getEntriesIndexes_from (S i) rest max f
          (if keep then (indexes ++ [i])%list else indexes)
      else getEntriesIndexes_from (S i) rest max f indexes
  end.

Definition getEntriesIndexes (entries : list value) (max : Z) (f : filter)
  : result exn (list nat) :=
  getEntriesIndexes_from 0 entries max f [].

(** The [PropRep] of the entry at [index], the [i]-th of [n] shown. *)
Definition entry_rep (entries : list value) (n : nat) (i index : nat) : result exn element :=
  let* kv := destructure_pair (nth index entries Undefined) in
  let '(key, entryValue) := kv in
  let* value := unwrap_unguarded entryValue in
  let delim :=
    if (Z.of_nat i <? Z.of_nat n - 1) || (n <? length entries)%nat then ", "
    else EmptyString in
  Ok (PropRep key value delim).

Fixpoint map_reps (entries : list value) (n : nat) (i : nat) (indexes : list nat)
  : result exn (list element) :=
  match indexes with
  | [] => Ok []
  | index :: rest =>
      let* el := entry_rep entries n i index in
      let* els := map_reps entries n (S i) rest in
      Ok (el :: els)
  end.

Definition getEntries (entries : list value) (indexes : list nat) : result exn (list element) :=
  let indexes := Array_sort by_index indexes in
  map_reps entries (length indexes) 0 indexes.

Definition negate (f : filter) : filter :=
  fun t value name => let* b := f t value name in Ok (negb b).

(** [object.preview && object.preview.entries ? object.preview.entries : []],
    then the array whose [reduce] is called. *)
Definition mapEntries_of (object : value) : result exn (list value) :=
  let* preview := get_prop object "preview" in
  let* entries :=
    if truthy preview then
      let* e := get_prop preview "entries" in
      if truthy e then Ok e else Ok (Arr [])
    else Ok (Arr []) in
  match entries with
  | Arr l => Ok l
  | _ => Throw "TypeError: reduce is not a function"
  end.

(** The indexes [entriesIterator] hands to [getEntries]. *)
Definition entry_indexes (f : filter) (mapEntries : list value) (max : Z)
  : result exn (list nat) :=
  let* indexes := getEntriesIndexes mapEntries max f in
  if (Z.of_nat (length indexes) <? max)
     && (Z.of_nat (length indexes) <? Z.of_nat (length mapEntries)) then
    let* more := getEntriesIndexes mapEntries (max - Z.of_nat (length indexes)) (negate f) in
    Ok (indexes ++ more)%list
  else Ok indexes.

(** [this.props.isInterestingEntry || (the default filter)] *)
Definition entry_filter (P : props) : filter :=
  match isInterestingEntry P with
  | Some f => f
  | None => default_isInterestingEntry
  end.

Definition entriesIterator (P : props) (object : value) (max : Z) : result exn (list element) :=
  let f := entry_filter P in
  let* mapEntries := mapEntries_of object in
  let* indexes := entry_indexes f mapEntries max in
  let* entries := getEntries mapEntries indexes in
  if (length entries <? length mapEntries)%nat then
    Ok (entries ++ [Caption (Z.of_nat (length mapEntries) - max)])%list
  else Ok entries.

(** [console.error] lines. *)
Definition console : Type := list exn.

(** [max] is [None] when the caller passes [undefined]. *)
Definition safeEntriesIterator (P : props) (object : value) (max : option Z) (log : console)
  : result exn (list element) * console :=
  let max := match max with None => 3 | Some max => max end in
  match entriesIterator P object max with
  | Ok entries => (Ok entries, log)
  | Throw err => (Ok [], (log ++ [err])%list)
  end.

Inductive MODE : Type := TINY | SHORT | LONG.

(** What [render] puts between the braces: nothing in tiny mode. *)
Definition render (P : props) (object : value) (mode : MODE) (log : console)
  : result exn (list element) * console :=
  let '(r, log) := safeEntriesIterator P object
                     (Some (match mode with LONG => 10 | _ => 3 end)) log in
  match mode with
  | TINY => (let* _ := r in Ok [], log)
  | _ => (r, log)
  end.

(** The entries among the elements, without the caption. *)
Definition is_entry (el : element) : bool :=
  match el with PropRep _ _ _ => true | Caption _ => false end.

Definition displayed (els : list element) : list element := List.filter is_entry els.

(** An element of the entries array passes a filter when the callback of
    [getEntriesIndexes], run on it, pushes its index. *)
Definition passes (f : filter) (el : value) : bool :=
  match destructure_pair el with
  | Ok (key, entry) =>
      match entry_passes f key entry with
      | Ok keep => keep
      | Throw _ => false
      end
  | Throw _ => false
  end.





(** [el] is the [PropRep] of the entry at [index]. *)
Definition shows (mapEntries : list value) (index : nat) (el : element) : Prop :=
  exists key entryValue value delim,
    destructure_pair (nth index mapEntries Undefined) = Ok (key, entryValue)
    /\ unwrap_unguarded entryValue = Ok value
    /\ el = PropRep key value delim.


(** Sample inputs. *)

Definition default_props : props :=
  {| isInterestingEntry := None |}.

Definition map_grip (entries : list value) : value :=
  Obj [("class", Str "Map"); ("preview", Obj [("kind", Str "MapLike"); ("entries", Arr entries)])].

(** The entries of the specification's example, with string keys. *)
Definition spec_entries : list value :=
  [Arr [Str "a"; Bool true]; Arr [Str "b"; Str EmptyString]; Arr [Str "c"; Num (Int 1)]].

Definition five_entries : list value :=
  [Arr [Str "a"; Null; Str "x"]; Arr [Str "b"; Str "x"]; Arr [Str "c"; Obj [("type", Str "null")]];
   Arr [Str "d"; Num (Int 4)]; Arr [Str "e"; Bool false]].

End GripMap.

(** * The property-tree builder (tested by [src/unnamed/part_000])

    The module that defines [makeNodesForProperties] and [isDefault]
    ([utils], required by the test suite) is not among the sources.  The
    definitions of this module are written from section 4.2 of the
    specification and from what the test suite expects; every expectation of
    the suite is replayed on them below. *)

Module ObjectInspector.

Definition DQ : string := String (ascii_of_nat 34) EmptyString.

Definition is_digit (c : ascii) : bool :=
  let n := nat_of_ascii c in ((48 <=? n) && (n <=? 57))%nat.

Definition is_letter (c : ascii) : bool :=
  let n := nat_of_ascii c in
  (((65 <=? n) && (n <=? 90)) || ((97 <=? n) && (n <=? 122)))%nat.

Fixpoint all_chars (p : ascii -> bool) (s : string) : bool :=
  match s with
  | EmptyString => true
  | String c rest => p c && all_chars p rest
  end.

(** Modelled from the spec: [utils] is missing; a "numeric-looking" key is
    read as a non-empty run of decimal digits, the form of an array index. *)
Definition is_numeric (key : string) : bool :=
  negb (String.eqb key EmptyString) && all_chars is_digit key.

Fixpoint digits_value (acc : Z) (s : string) : Z :=
  match s with
  | EmptyString => acc
  | String c rest => digits_value (10 * acc + (Z.of_nat (nat_of_ascii c) - 48)) rest
  end.

Definition numeric_value (key : string) : Z := digits_value 0 key.

(** Modelled from the spec: [utils] is missing; the comparator behind
    "numeric-looking keys sort numerically ascending before lexicographic
    string keys": two numeric keys are compared as numbers, a numeric key
    comes before a key that is not numeric, and two keys that are not
    numeric are compared as strings.  The one departure is the empty name,
    which comes before every other key: the test "quotes property names"
    expects it before 332217. *)
Definition compare_keys (a b : string) : Z :=
  if String.eqb a EmptyString then -1
  else if String.eqb b EmptyString then 1
  else if is_numeric a && is_numeric b then numeric_value a - numeric_value b
  else if is_numeric a then -1
  else if is_numeric b then 1
  else if String.ltb b a then 1 else -1.

(** A property descriptor, by what decides whether it is listed: whether it
    has a value, a getter, a setter. *)
Record descriptor : Type := {
  has_value : bool;
  has_getter : bool;
  has_setter : bool
}.

Record grip : Type := { grip_class : string }.

(** The object description handed to the builder. [ownProperties] is in the
    order [Object.keys] enumerates; an object has each name once. *)
Record objProps : Type := {
  ownProperties : list (string * descriptor);
  prototype : option grip
}.

(** The node being expanded: its path and the class of its value, if any. *)
Record parent : Type := {
  parent_path : string;
  parent_class : option string
}.

(** A tree node [{ name, path, contents }]; [contents] wraps a descriptor, a
    value, or the nodes of a synthetic bucket. *)
Inductive node : Type :=
| Node (name path : string) (contents : contents)
with contents : Type :=
| Descriptor (d : descriptor)
| Value (g : grip)
| Nodes (children : list node).

Definition node_name (n : node) : string := match n with Node name _ _ => name end.
Definition node_path (n : node) : string := match n with Node _ path _ => path end.
Definition node_contents (n : node) : contents := match n with Node _ _ c => c end.

Definition children_of (n : node) : list node :=
  match node_contents n with
  | Nodes children => children
  | _ => []
  end.

Definition is_identifier (name : string) : bool :=
  match name with
  | EmptyString => false
  | String c rest =>
      (is_letter c || Ascii.eqb c "_" || Ascii.eqb c "$")
      && all_chars (fun c => is_letter c || is_digit c || Ascii.eqb c "_" || Ascii.eqb c "$") rest
  end.

(** Modelled from the spec: [utils] is missing; "keys needing quoting
    (non-identifier strings) are rendered quoted", numbers excepted as the
    test "quotes property names" notes.  Characters a quoted form would
    escape are not modelled. *)
Definition maybeEscapePropertyName (name : string) : string :=
  if is_numeric name || is_identifier name then name else DQ ++ name ++ DQ.

(** Modelled from the spec: [utils] is missing; own properties sorted by
    [compare_keys]. *)
Definition sortProperties (properties : list (string * descriptor)) : list (string * descriptor) :=
  Array_sort (fun a b => compare_keys (fst a) (fst b)) properties.

(** Modelled from the spec: [utils] is missing; a property is listed when its
    descriptor has a value, a getter or a setter, as the tests "kitchen sink"
    and "includes getters and setters" expect. *)
Definition is_listed (property : string * descriptor) : bool :=
  has_value (snd property) || has_getter (snd property) || has_setter (snd property).

(** Modelled from the spec: [utils] is missing; the properties that get a
    node, in the order they are laid out. *)
Definition listed_properties (props : objProps) : list (string * descriptor) :=
  List.filter is_listed (sortProperties (ownProperties props)).

Definition createNode (name path : string) (contents : contents) : node :=
  Node name path contents.

(** Modelled from the spec: [utils] is missing; one node per property, the
    name quoted where needed and the path left as it is. *)
Definition makeNodesForOwnProps (properties : list (string * descriptor)) (parentPath : string)
  : list node :=
  map (fun property =>
         createNode (maybeEscapePropertyName (fst property))
                    (parentPath ++ "/" ++ fst property)
                    (Descriptor (snd property)))
      properties.

Section Builder.

(** The "known default-property set" is the host's list of the window's
    own property names; the size threshold and the bucket size are named by
    the specification only through the example of 100. *)
Variable WINDOW_PROPERTIES : list string.
Variables threshold bucketSize : nat.

Definition is_window (class : option string) : bool :=
  match class with
  | Some c => String.eqb c "Window"
  | None => false
  end.

Definition in_default_set (name : string) : bool :=
  existsb (String.eqb name) WINDOW_PROPERTIES.

(** Modelled from the spec: [utils] is missing; "checking the property name
    against a known default-property set when the root's value class
    indicates a window".  [roots] is the list the test passes. *)
Definition isDefault (item_name : string) (roots : list parent) : bool :=
  match roots with
  | root :: _ => is_window (parent_class root) && in_default_set item_name
  | [] => false
  end.

(** Modelled from the spec: [utils] is missing; on a window root the default
    properties are "collapsed into a single synthetic bucket rather than
    listed individually"; name and path of the bucket are those the test
    "window object" expects. *)
Definition makeDefaultPropsBucket (properties : list (string * descriptor))
    (root : parent) : list node :=
  let parentPath := parent_path root in
  let userProps := List.filter (fun p => negb (isDefault (fst p) [root])) properties in
  let defaultProps := List.filter (fun p => isDefault (fst p) [root]) properties in
  let nodes := makeNodesForOwnProps userProps parentPath in
  match defaultProps with
  | [] => nodes
  | _ =>
      (nodes ++
       [createNode "[default properties]" (parentPath ++ "/##-default")
          (Nodes (makeNodesForOwnProps defaultProps (parentPath ++ "/##-default")))])%list
  end.

Definition numBuckets (numProperties : nat) : nat :=
  ((numProperties + bucketSize - 1) / bucketSize)%nat.

(** Modelled from the spec: [utils] is missing; the [i]-th bucket, counted
    from 1, holds the next [bucketSize] properties.  The name is the one the test
    "numerical buckets" expects: the last bucket of 331 entries is
    [[300..331]]. *)
Definition makeBucket (properties : list (string * descriptor)) (parentPath : string)
    (i : nat) : node :=
  let numProperties := length properties in
  let bucketKey := "bucket" ++ pretty i in
  let minKey := ((i - 1) * bucketSize)%nat in
  let maxKey := Nat.min (i * bucketSize - 1) numProperties in
  let bucketName := "[" ++ pretty minKey ++ ".." ++ pretty maxKey ++ "]" in
  let bucketProperties := take bucketSize (drop minKey properties) in
  createNode bucketName (parentPath ++ "/" ++ bucketKey)
    (Nodes (makeNodesForOwnProps bucketProperties (parentPath ++ "/" ++ bucketKey))).

(** Modelled from the spec: [utils] is missing; "grouped into fixed-size
    numeric buckets", "buckets of 100 with a final partial bucket, synthetic
    paths bucket1..bucketN". *)
Definition makeNumericalBuckets (properties : list (string * descriptor))
    (parentPath : string) : list node :=
  map (makeBucket properties parentPath) (seq 1 (numBuckets (length properties))).

(** Modelled from the spec: [utils] is missing; "arrays/indexed collections
    above a size threshold".  The test "numerical buckets" marks the
    collection by a prototype of class Array. *)
Definition is_array (prototype : option grip) : bool :=
  match prototype with
  | Some g => String.eqb (grip_class g) "Array"
  | None => false
  end.

(** Modelled from the spec: [utils] is missing; the collection is put into
    buckets when it is an array with more listed properties than the
    threshold. *)
Definition is_bucketed (props : objProps) : bool :=
  is_array (prototype props) && (threshold <? length (listed_properties props))%nat.

Definition prototype_node (prototype : option grip) (parentPath : string) : list node :=
  match prototype with
  | Some g => [createNode "__proto__" (parentPath ++ "/__proto__") (Value g)]
  | None => []
  end.

(** Modelled from the spec: [utils] is missing; "converts an object's
    own-property descriptors plus its prototype into an ordered sequence of
    tree nodes under a given parent path".  The test "window object", whose
    description has no prototype, expects no [__proto__] node. *)
Definition makeNodesForProperties (props : objProps) (root : parent) : list node :=
  let parentPath := parent_path root in
  let properties := listed_properties props in
  let nodes :=
    if is_window (parent_class root) then makeDefaultPropsBucket properties root
    else if is_bucketed props then makeNumericalBuckets properties parentPath
    else makeNodesForOwnProps properties parentPath in
  (nodes ++ prototype_node (prototype props) parentPath)%list.

End Builder.

(** Notions the properties below are stated with. *)

Definition key_le (a b : string) : Prop := compare_keys a b <= 0.

(** The order of two keys [a], [b], the first laid out before the second:
    numbers ascending, names in lexicographic order, and a name before a
    number only when it is the empty name. *)
Definition in_key_order (a b : string) : Prop :=
  (is_numeric a = true -> is_numeric b = true -> numeric_value a <= numeric_value b)
  /\ (is_numeric a = false -> is_numeric b = false -> String.leb a b = true)
  /\ (is_numeric a = false -> is_numeric b = true -> a = EmptyString)
  /\ (is_numeric a = true -> is_numeric b = false -> b <> EmptyString).

(** A node that stands for the property [key] itself, under [parentPath]. *)
Definition property_node (parentPath key : string) (d : descriptor) : node :=
  createNode (maybeEscapePropertyName key) (parentPath ++ "/" ++ key) (Descriptor d).

(** "The same property name yields a normal individual node": the node list
    has the property's node. *)
Definition has_individual_node (nodes : list node) (parentPath key : string) : Prop :=
  exists d, In (property_node parentPath key d) nodes.

(** "Every numeric-looking key precedes every non-numeric key", for the keys
    whose nodes have the paths [paths] under [parentPath]. *)
Definition numeric_keys_precede (parentPath : string) (paths : list string) : Prop :=
  forall (i j : nat) (a b : string),
    paths !! i = Some (parentPath ++ "/" ++ a) ->
    paths !! j = Some (parentPath ++ "/" ++ b) ->
    is_numeric a = true ->
    is_numeric b = false ->
    (i < j)%nat.

(** The inputs of the test suite.  Own properties are listed in the order
    [Object.keys] gives them: integer keys ascending, then the others as
    written. *)

Definition with_value : descriptor :=
  {| has_value := true; has_getter := false; has_setter := false |}.
Definition empty_descriptor : descriptor :=
  {| has_value := false; has_getter := false; has_setter := false |}.
Definition with_getter : descriptor :=
  {| has_value := false; has_getter := true; has_setter := false |}.
Definition with_setter : descriptor :=
  {| has_value := false; has_getter := false; has_setter := true |}.

Definition test_root : parent := {| parent_path := "root"; parent_class := None |}.
Definition window_root : parent := {| parent_path := "root"; parent_class := Some "Window" |}.
Definition object_root : parent := {| parent_path := "root"; parent_class := Some "Object" |}.

Definition bla : option grip := Some {| grip_class := "bla" |}.

Definition kitchen_sink : objProps :=
  {| ownProperties := [("0", with_value); ("2", empty_descriptor); ("length", with_value)];
     prototype := bla |}.

Definition getters_and_setters : objProps :=
  {| ownProperties := [("foo", with_value); ("bar", with_getter); ("baz", with_setter)];
     prototype := bla |}.

Definition sorts_keys : objProps :=
  {| ownProperties := [("1", with_value); ("2", with_value); ("11", with_value);
                       ("bar", with_value); ("_bar", with_value)];
     prototype := bla |}.

Definition prototype_is_included : objProps :=
  {| ownProperties := [("bar", with_value)]; prototype := bla |}.

Definition window_object : objProps :=
  {| ownProperties := [("bar", with_value); ("location", with_value)]; prototype := None |}.

Definition numerical_buckets : objProps :=
  {| ownProperties := map (fun i : nat => (pretty i, with_value)) (seq 0 331);
     prototype := Some {| grip_class := "Array" |} |}.

(** An array of 101 elements with a property named [location] besides. *)
Definition array_with_location : objProps :=
  {| ownProperties := (map (fun i : nat => (pretty i, with_value)) (seq 0 101)
                       ++ [("location", with_value)])%list;
     prototype := Some {| grip_class := "Array" |} |}.

Definition quotes_property_names : objProps :=
  {| ownProperties := [("332217", with_value); ("needs-quotes", with_value);
                       ("unquoted", with_value); (EmptyString, with_value)];
     prototype := Some {| grip_class := "WindowPrototype" |} |}.

(** The builder as the test suite runs it: a window that has [location]
    among its properties, the threshold and the bucket size at 100. *)
Definition test_makeNodesForProperties : objProps -> parent -> list node :=
  makeNodesForProperties ["location"; "document"] 100 100.

End ObjectInspector.

(** * Facts about the array helpers *)

Section ArrayFacts.

Context {A : Type}.

Lemma indexes_where_spec (p : A -> bool) (l : list A) (i j : nat) :
  In j (indexes_where p i l)
  <-> (i <= j)%nat /\ exists x, l !! (j - i)%nat = Some x /\ p x = true.
Proof.
  revert i. induction l as [|y l IH]; intros i.
  - simpl. split; [tauto|]. intros (_ & x & Hx & _). discriminate.
  - assert (Hrest : In j (indexes_where p (S i) l)
                    <-> (i < j)%nat /\ exists x, (y :: l) !! (j - i)%nat = Some x /\ p x = true).
    { rewrite IH. split.
      - intros (Hle & x & Hx & Hp). split; [lia|]. exists x. split; [|exact Hp].
        replace (j - i)%nat with (S (j - S i)) by lia. exact Hx.
      - intros (Hlt & x & Hx & Hp). split; [lia|]. exists x. split; [|exact Hp].
        replace (j - i)%nat with (S (j - S i)) in Hx by lia. exact Hx. }
    simpl indexes_where. destruct (p y) eqn:Hy.
    + simpl. rewrite Hrest. split.
      * intros [<- | (Hlt & x & Hx & Hp)].
        -- split; [lia|]. exists y. rewrite Nat.sub_diag. now split.
        -- split; [lia|]. eauto.
      * intros (Hle & x & Hx & Hp).
        destruct (Nat.eq_dec i j) as [->|Hne]; [now left|right].
        split; [lia|]. eauto.
    + rewrite Hrest. split.
      * intros (Hlt & x & Hx & Hp). split; [lia|]. eauto.
      * intros (Hle & x & Hx & Hp).
        destruct (Nat.eq_dec i j) as [->|Hne].
        -- rewrite Nat.sub_diag in Hx. simpl in Hx. congruence.
        -- split; [lia|]. eauto.
Qed.

Lemma indexes_where_sorted (p : A -> bool) (l : list A) (i : nat) :
  StronglySorted lt (indexes_where p i l).
Proof.
  revert i. induction l as [|y l IH]; intros i; [constructor|].
  simpl. destruct (p y); [|apply IH].
  constructor; [apply IH|].
  apply Forall_forall. intros j Hj. apply list_elem_of_In, indexes_where_spec in Hj. lia.
Qed.

Lemma indexes_where_NoDup (p : A -> bool) (l : list A) (i : nat) :
  NoDup (indexes_where p i l).
Proof.
  revert i. induction l as [|y l IH]; intros i; [constructor|].
  simpl. destruct (p y); [|apply IH].
  constructor; [|apply IH].
  rewrite list_elem_of_In, indexes_where_spec. lia.
Qed.

Lemma In_take (x : A) (n : nat) (l : list A) : In x (take n l) -> In x l.
Proof.
  intros Hin. apply list_elem_of_In, elem_of_take in Hin as (i & Hi & _).
  apply list_elem_of_In. eapply list_elem_of_lookup_2. exact Hi.
Qed.

Lemma In_take_drop (x : A) (n k : nat) (l : list A) : In x (take n (drop k l)) -> In x l.
Proof.
  intros Hin. apply In_take in Hin.
  apply list_elem_of_In, list_elem_of_lookup in Hin as (i & Hi).
  rewrite lookup_drop in Hi.
  apply list_elem_of_In. eapply list_elem_of_lookup_2. exact Hi.
Qed.

End ArrayFacts.

Section SortFacts.

Context {A : Type} (cmp : A -> A -> Z).

Lemma sort_insert_perm (x : A) (l : list A) :
  Permutation (sort_insert cmp x l) (x :: l).
Proof.
  induction l as [|y l IH]; simpl; [reflexivity|].
  destruct (cmp x y <=? 0); [reflexivity|].
  rewrite IH. apply perm_swap.
Qed.

Lemma Array_sort_perm (l : list A) : Permutation (Array_sort cmp l) l.
Proof.
  induction l as [|x l IH]; simpl; [reflexivity|].
  rewrite sort_insert_perm. now apply perm_skip.
Qed.

(** The comparator orders the elements of [dom]: of two elements one is not
    after the other, and "not after" is transitive. *)
Variable dom : A -> Prop.
Hypothesis cmp_total : forall x y, dom x -> dom y -> 0 < cmp x y -> cmp y x <= 0.
Hypothesis cmp_trans :
  forall x y z, dom x -> dom y -> dom z -> cmp x y <= 0 -> cmp y z <= 0 -> cmp x z <= 0.

Lemma sort_insert_sorted (x : A) (l : list A) :
  dom x -> Forall dom l ->
  StronglySorted (fun a b => cmp a b <= 0) l ->
  StronglySorted (fun a b => cmp a b <= 0) (sort_insert cmp x l).
Proof.
  intros Hx Hdom Hsorted. induction Hsorted as [|y l Hsorted IH Hy]; simpl.
  - constructor; constructor.
  - inversion Hdom as [|? ? Hdy Hdl]; subst.
    destruct (Z.leb_spec (cmp x y) 0) as [Hle|Hgt].
    + constructor; [now constructor|].
      constructor; [exact Hle|].
      rewrite Forall_forall in Hy, Hdl |- *. intros z Hz.
      apply (cmp_trans x y z); auto.
    + constructor; [now apply IH|].
      rewrite (sort_insert_perm x l). constructor; [|exact Hy].
      now apply cmp_total.
Qed.

Lemma Array_sort_sorted (l : list A) :
  Forall dom l -> StronglySorted (fun a b => cmp a b <= 0) (Array_sort cmp l).
Proof.
  induction 1 as [|x l Hx Hl IH]; simpl; [constructor|].
  apply sort_insert_sorted; [exact Hx| |exact IH].
  now rewrite (Array_sort_perm l).
Qed.

End SortFacts.



(** * Properties of DevToolsUtils *)

Module DevToolsUtilsFacts.
Import DevToolsUtils.

(** ** safeErrorString *)

Lemma append_assoc (s1 s2 s3 : string) : (s1 ++ s2) ++ s3 = s1 ++ (s2 ++ s3).
Proof.
  induction s1 as [|a s1 IH]; [reflexivity|].
  change (String a ((s1 ++ s2) ++ s3) = String a (s1 ++ (s2 ++ s3))).
  now rewrite IH.
Qed.

Lemma attach_stack_returns (aError : value) (errorString : string) :
  exists s, attach_stack aError errorString = Ok s.
Proof.
  unfold attach_stack.
  destruct (get_prop aError "stack") as [st|e]; simpl; [|eauto].
  destruct (truthy st); [|eauto].
  destruct (toString_call st) as [[]|e]; simpl; eauto.
Qed.

Lemma attach_stack_available (aError st : value) (errorString stack : string) :
  get_prop aError "stack" = Ok st ->
  truthy st = true ->
  toString_call st = Ok (VStr stack) ->
  attach_stack aError errorString = Ok (errorString ++ LF ++ "Stack: " ++ stack).
Proof.
  intros Hget Htruthy Hstr. unfold attach_stack.
  rewrite Hget. simpl. rewrite Htruthy, Hstr. reflexivity.
Qed.

Lemma attach_position_available (aError : value) (errorString : string) (l c : number) :
  get_prop aError "lineNumber" = Ok (VNum l) ->
  get_prop aError "columnNumber" = Ok (VNum c) ->
  attach_position aError errorString
  = Ok (errorString ++ "Line: " ++ number_toString l ++ ", column: " ++ number_toString c).
Proof.
  intros Hl Hc. unfold attach_position. rewrite Hl. simpl. rewrite Hc. reflexivity.
Qed.

(** Either the value's own string is used, or the result is that of the
    generic coercion, a throw included. *)
Lemma safeErrorString_cases (aError : value) :
  (exists s, safeErrorString aError = Ok s)
  \/ safeErrorString aError = Object_prototype_toString aError.
Proof.
  unfold safeErrorString.
  destruct (safeErrorString_try aError) as [[s|]|e]; simpl; eauto.
Qed.

Lemma safeErrorString_returns (aError : value) :
  (exists s, Object_prototype_toString aError = Ok s) ->
  exists s, safeErrorString aError = Ok s.
Proof.
  intros [s Hs]. destruct (safeErrorString_cases aError) as [Hown|Hgeneric]; [exact Hown|].
  exists s. now rewrite Hgeneric.
Qed.

Lemma safeErrorString_throws (aError e : value) :
  safeErrorString aError = Throw e -> Object_prototype_toString aError = Throw e.
Proof.
  intros Hthrow. destruct (safeErrorString_cases aError) as [[s Hs]|Hgeneric]; congruence.
Qed.

Lemma safeErrorString_fallback (aError : value) :
  (forall s, toString_call aError <> Ok (VStr s)) ->
  safeErrorString aError = Object_prototype_toString aError.
Proof.
  intros Hunusable. unfold safeErrorString, safeErrorString_try.
  destruct (toString_call aError) as [v|e]; simpl; [|reflexivity].
  destruct v; try reflexivity.
  exfalso. eapply Hunusable. reflexivity.
Qed.

(** Away from the fallback the function does what the claim says: the stack
    and the position are appended to the value's own string. *)
Lemma safeErrorString_appends (aError st : value) (s stack : string) (l c : number) :
  toString_call aError = Ok (VStr s) ->
  get_prop aError "stack" = Ok st ->
  truthy st = true ->
  toString_call st = Ok (VStr stack) ->
  get_prop aError "lineNumber" = Ok (VNum l) ->
  get_prop aError "columnNumber" = Ok (VNum c) ->
  safeErrorString aError
  = Ok (s ++ LF ++ "Stack: " ++ stack
          ++ "Line: " ++ number_toString l ++ ", column: " ++ number_toString c).
Proof.
  intros Hs Hst Htruthy Hstack Hl Hc.
  unfold safeErrorString, safeErrorString_try.
  rewrite Hs. simpl.
  rewrite (attach_stack_available aError st s stack Hst Htruthy Hstack). simpl.
  rewrite (attach_position_available aError _ l c Hl Hc). simpl.
  rewrite !append_assoc. reflexivity.
Qed.

(** C8.  [safeErrorString] sets out to turn every value into a string
    "without fail", and falls back to [Object.prototype.toString.call] when
    the value's own string cannot be used.  That last call stands after both
    [try] blocks: on an object whose [toString] throws and whose class tag
    cannot be read either, [safeErrorString] throws what reading the tag
    threw. *)
Theorem safeErrorString_throws_in_fallback :
  toString_call untaggable = Throw (VStr "toString")
  /\ safeErrorString untaggable = Throw (VStr "tag").
Proof. split; reflexivity. Qed.

Example safeErrorString_on_hostile_object :
  safeErrorString hostile = Ok "[object Object]"
  /\ safeErrorString sample_error
     = Ok ("Error: boom" ++ LF ++ "Stack: f@file.js:3:7" ++ "Line: 3, column: 7").
Proof. split; reflexivity. Qed.

(** A getter for [lineNumber] that throws sends a usable string to the
    fallback as well. *)
Example safeErrorString_position_getter_throws :
  safeErrorString
    (VObj false (Ok "Error")
       (fun p => if String.eqb p "lineNumber" then Throw VNull else Ok VUndefined)
       (Ok (VStr "Error: x")))
  = Ok "[object Error]".
Proof. reflexivity. Qed.

(** ** reportException *)

Lemma reportException_logs (aWho : string) (aException : value) (log : console) :
  (exists s, Object_prototype_toString aException = Ok s) ->
  exists str,
    safeErrorString aException = Ok str
    /\ reportException aWho aException log
       = (Ok tt, app log [aWho ++ " threw an exception: " ++ str]).
Proof.
  intros Hgeneric. destruct (safeErrorString_returns aException Hgeneric) as [str Hstr].
  exists str. split; [exact Hstr|].
  unfold reportException. rewrite Hstr. reflexivity.
Qed.

Lemma reportException_rethrows (aWho : string) (aException e : value) (log : console) :
  safeErrorString aException = Throw e ->
  reportException aWho aException log = (Throw e, log).
Proof. intros Hthrow. unfold reportException. now rewrite Hthrow. Qed.

(** ** makeInfallible *)

(** What the wrapper does with a handler that throws: the same. *)
Lemma makeInfallible_is_the_handler (aHandler : handler) (aHandler_name aName : value) :
  forall arguments log,
    makeInfallible aHandler aHandler_name aName arguments log = aHandler arguments log.
Proof. reflexivity. Qed.

(** C2.  At a handler that throws, the function [makeInfallible] returns
    throws the handler's exception to its caller and logs nothing: the
    wrapper is not infallible. *)
Theorem makeInfallible_propagates_exception :
  makeInfallible throwing_handler (VStr "throwing_handler") VUndefined [] []
  = (Throw (VStr "boom"), []).
Proof. reflexivity. Qed.

(** ** assert *)

Section AssertFacts.

Variables AppConstants_DEBUG AppConstants_DEBUG_JS_MODULES : value.
Variable new_Error : string -> value.

Let enabled := assertions_enabled AppConstants_DEBUG AppConstants_DEBUG_JS_MODULES.
Let assert' := assert AppConstants_DEBUG AppConstants_DEBUG_JS_MODULES new_Error.

Lemma reallyAssert_fails (condition : value) (message : string) (log : console) :
  truthy condition = false ->
  (exists s, Object_prototype_toString (new_Error ("Assertion failure: " ++ message)) = Ok s) ->
  exists str,
    safeErrorString (new_Error ("Assertion failure: " ++ message)) = Ok str
    /\ reallyAssert new_Error condition message log
       = (Throw (new_Error ("Assertion failure: " ++ message)),
          app log ["DevToolsUtils.assert threw an exception: " ++ str]).
Proof.
  intros Hfalsy Hgeneric. unfold reallyAssert. rewrite Hfalsy. simpl.
  destruct (reportException_logs "DevToolsUtils.assert"
              (new_Error ("Assertion failure: " ++ message)) log Hgeneric) as [str [Hstr Hrep]].
  exists str. split; [exact Hstr|]. rewrite Hrep. reflexivity.
Qed.

(** A falsy condition makes [reallyAssert] throw, whatever [reportException]
    does with the error. *)
Lemma reallyAssert_throws (condition : value) (message : string) (log : console) :
  truthy condition = false ->
  exists err log', reallyAssert new_Error condition message log = (Throw err, log').
Proof.
  intros Hfalsy. unfold reallyAssert. rewrite Hfalsy. simpl.
  destruct (reportException "DevToolsUtils.assert" _ log) as [[[]|e] log']; eauto.
Qed.

Lemma reallyAssert_passes (condition : value) (message : string) (log : console) :
  truthy condition = true ->
  reallyAssert new_Error condition message log = (Ok VUndefined, log).
Proof. intros Htruthy. unfold reallyAssert. rewrite Htruthy. reflexivity. Qed.

(** C9.  [assert(condition, message)] throws exactly when assertions are
    enabled and [condition] is falsy; it then throws the error
    "Assertion failure: message" after logging it through
    [reportException], the error being an object the generic coercion does
    not throw at, as every object [new Error] makes is.  In every other
    case, and so whenever assertions are disabled, it returns [undefined]
    and leaves the console alone. *)
Theorem assert_throws_iff (testing condition : value) (message : string) (log : console) :
  ((exists err log', assert' testing condition message log = (Throw err, log'))
   <-> enabled testing = true /\ truthy condition = false)
  /\ (enabled testing = true -> truthy condition = false ->
      (exists s,
          Object_prototype_toString (new_Error ("Assertion failure: " ++ message)) = Ok s) ->
      exists str,
        safeErrorString (new_Error ("Assertion failure: " ++ message)) = Ok str
        /\ assert' testing condition message log
           = (Throw (new_Error ("Assertion failure: " ++ message)),
              app log ["DevToolsUtils.assert threw an exception: " ++ str]))
  /\ (enabled testing = false ->
      assert' testing condition message log = (Ok VUndefined, log))
  /\ (truthy condition = true ->
      assert' testing condition message log = (Ok VUndefined, log)).
Proof.
  subst enabled assert'. unfold assert.
  destruct (assertions_enabled _ _ testing) eqn:Hen.
  - destruct (truthy condition) eqn:Hc.
    + rewrite (reallyAssert_passes _ _ _ Hc).
      split; [split|split; [|split]].
      * intros (err & log' & Heq). discriminate.
      * intros [_ Heq]. discriminate.
      * intros _ Heq. discriminate.
      * intros Heq. discriminate.
      * reflexivity.
    + split; [split|split; [|split]].
      * intros _. split; reflexivity.
      * intros _. apply reallyAssert_throws, Hc.
      * intros _ _ Hgeneric. apply reallyAssert_fails; assumption.
      * intros Heq. discriminate.
      * intros Heq. discriminate.
  - unfold noop.
    split; [split|split; [|split]].
    + intros (err & log' & Heq). discriminate.
    + intros [Heq _]. discriminate.
    + intros Heq. discriminate.
    + reflexivity.
    + reflexivity.
Qed.

End AssertFacts.

Lemma assert_throws_iff_witness :
  (exists err log',
      assert (VBool false) (VBool false) host_Error (VBool true) (VNum (Int 0)) "n > 0" []
      = (Throw err, log'))
  /\ assert (VBool false) (VBool false) host_Error (VBool false) (VNum (Int 0)) "n > 0" []
     = (Ok VUndefined, [])
  /\ exists str,
       safeErrorString (host_Error "Assertion failure: n > 0") = Ok str
       /\ assert (VBool false) (VBool false) host_Error (VBool true) (VNum (Int 0)) "n > 0" []
          = (Throw (host_Error "Assertion failure: n > 0"),
             ["DevToolsUtils.assert threw an exception: " ++ str]).
Proof.
  split; [|split].
  - apply (proj1 (assert_throws_iff (VBool false) (VBool false) host_Error
                    (VBool true) (VNum (Int 0)) "n > 0" [])).
    split; reflexivity.
  - apply (proj1 (proj2 (proj2 (assert_throws_iff (VBool false) (VBool false) host_Error
                    (VBool false) (VNum (Int 0)) "n > 0" [])))).
    reflexivity.
  - apply (proj1 (proj2 (assert_throws_iff (VBool false) (VBool false) host_Error
                    (VBool true) (VNum (Int 0)) "n > 0" []))); [reflexivity|reflexivity|].
    exists "[object Error]". reflexivity.
Defined.

Example assert_logs_the_failure :
  assert (VBool true) (VBool false) host_Error (VBool false) (VStr EmptyString) "n > 0" []
  = (Throw (host_Error "Assertion failure: n > 0"),
     ["DevToolsUtils.assert threw an exception: Error: Assertion failure: n > 0"]).
Proof. reflexivity. Qed.

(** ** settleAll *)

Lemma array_set_length {A : Type} (index : nat) (x : A) (a : list (option A)) :
  (length a <= length (array_set index x a))%nat.
Proof.
  unfold array_set. destruct (index <? length a)%nat.
  - rewrite length_insert. lia.
  - rewrite length_app. lia.
Qed.

Lemma array_set_length_in_range {A : Type} (index : nat) (x : A) (a : list (option A)) :
  (index < length a)%nat -> length (array_set index x a) = length a.
Proof.
  intros Hlt. unfold array_set.
  destruct (Nat.ltb_spec index (length a)); [|lia].
  apply length_insert.
Qed.

Lemma array_set_lookup_same {A : Type} (index : nat) (x : A) (a : list (option A)) :
  array_set index x a !! index = Some (Some x).
Proof.
  unfold array_set. destruct (Nat.ltb_spec index (length a)) as [Hlt|Hge].
  - now apply list_lookup_insert_eq.
  - rewrite lookup_app_r by lia.
    rewrite lookup_app_r by (rewrite length_replicate; lia).
    rewrite length_replicate.
    replace (index - length a - (index - length a))%nat with 0%nat by lia.
    reflexivity.
Qed.

Lemma array_set_lookup_other {A : Type} (index i : nat) (x : A) (a : list (option A)) :
  index <> i -> (i < length a)%nat -> array_set index x a !! i = a !! i.
Proof.
  intros Hne Hlt. unfold array_set. destruct (index <? length a)%nat.
  - now apply list_lookup_insert_ne.
  - now apply lookup_app_l.
Qed.

(** The fields of the closure after one callback. *)

Lemma deliver_countdown (st : closure) (ev : event) :
  countdown (deliver st ev) = countdown st - 1.
Proof.
  unfold deliver, resolver, rejecter, checkForCompletion, deferred_resolve, deferred_reject.
  destruct ev as [i [r|e]]; simpl;
    repeat match goal with |- context [if ?b then _ else _] => destruct b; simpl end;
    repeat match goal with |- context [match deferred ?s with _ => _ end] =>
                             destruct (deferred s); simpl end;
    reflexivity.
Qed.

Lemma deliver_rejectionOccurred (st : closure) (ev : event) :
  rejectionOccurred (deliver st ev) = rejectionOccurred st || is_rejection ev.
Proof.
  unfold deliver, resolver, rejecter, checkForCompletion, deferred_resolve, deferred_reject,
    is_rejection.
  destruct ev as [i [r|e]]; simpl; destruct (rejectionOccurred st) eqn:Hocc; simpl;
    repeat match goal with |- context [if ?b then _ else _] => destruct b; simpl end;
    repeat match goal with |- context [match deferred ?s with _ => _ end] =>
                             destruct (deferred s); simpl end;
    try rewrite Hocc; reflexivity.
Qed.

Lemma deliver_rejectionValue (st : closure) (ev : event) :
  rejectionValue (deliver st ev)
  = if rejectionOccurred st then rejectionValue st
    else match snd ev with
         | Rejects error => error
         | Resolves _ => rejectionValue st
         end.
Proof.
  unfold deliver, resolver, rejecter, checkForCompletion, deferred_resolve, deferred_reject.
  destruct ev as [i [r|e]]; simpl; destruct (rejectionOccurred st) eqn:Hocc; simpl;
    repeat match goal with |- context [if ?b then _ else _] => destruct b; simpl end;
    repeat match goal with |- context [match deferred ?s with _ => _ end] =>
                             destruct (deferred s); simpl end;
    reflexivity.
Qed.

Lemma deliver_resolutionValues (st : closure) (ev : event) :
  resolutionValues (deliver st ev)
  = match snd ev with
    | Resolves result => array_set (fst ev) result (resolutionValues st)
    | Rejects _ => resolutionValues st
    end.
Proof.
  unfold deliver, resolver, rejecter, checkForCompletion, deferred_resolve, deferred_reject.
  destruct ev as [i [r|e]]; simpl; destruct (rejectionOccurred st) eqn:Hocc; simpl;
    repeat match goal with |- context [if ?b then _ else _] => destruct b; simpl end;
    repeat match goal with |- context [match deferred ?s with _ => _ end] =>
                             destruct (deferred s); simpl end;
    reflexivity.
Qed.

Lemma deliver_deferred (st : closure) (ev : event) :
  deferred st = Pending ->
  deferred (deliver st ev)
  = if 0 <? countdown st - 1 then Pending
    else if rejectionOccurred (deliver st ev) then Rejected (rejectionValue (deliver st ev))
         else Fulfilled.
Proof.
  intros Hpending.
  rewrite deliver_rejectionOccurred, deliver_rejectionValue.
  unfold deliver, resolver, rejecter, checkForCompletion, deferred_resolve, deferred_reject,
    is_rejection.
  destruct ev as [i [r|e]]; simpl; destruct (rejectionOccurred st) eqn:Hocc; simpl;
    destruct (0 <? countdown st - 1); simpl; rewrite ?Hocc; simpl; rewrite ?Hpending;
    reflexivity.
Qed.

Lemma run_cons (ev : event) (evs : list event) (st : closure) :
  run (ev :: evs) st = run evs (deliver st ev).
Proof. reflexivity. Qed.

Lemma run_app (done rest : list event) (st : closure) :
  run (done ++ rest)%list st = run rest (run done st).
Proof. unfold run. apply fold_left_app. Qed.

Lemma run_countdown (evs : list event) (st : closure) :
  countdown (run evs st) = countdown st - Z.of_nat (length evs).
Proof.
  revert st. induction evs as [|ev evs IH]; intros st.
  - simpl. lia.
  - rewrite run_cons, IH, deliver_countdown. simpl length. lia.
Qed.

(** While fewer callbacks have run than the countdown asks for, the returned
    promise stays pending. *)
Lemma run_pending (done : list event) (st : closure) :
  deferred st = Pending ->
  Z.of_nat (length done) < countdown st ->
  deferred (run done st) = Pending.
Proof.
  revert st. induction done as [|ev done IH]; intros st Hpending Hlt.
  - exact Hpending.
  - rewrite run_cons. simpl length in Hlt. apply IH.
    + rewrite deliver_deferred by exact Hpending.
      destruct (Z.ltb_spec 0 (countdown st - 1)); [reflexivity|lia].
    + rewrite deliver_countdown. lia.
Qed.

(** When the last awaited callback has run the promise is settled: rejected
    with the first rejection reason if there was one, fulfilled otherwise. *)
Lemma run_settles (evs : list event) (st : closure) :
  deferred st = Pending ->
  countdown st = Z.of_nat (length evs) ->
  evs <> [] ->
  deferred (run evs st)
  = if rejectionOccurred st then Rejected (rejectionValue st)
    else match first_rejection evs with
         | Some error => Rejected error
         | None => Fulfilled
         end.
Proof.
  revert st. induction evs as [|ev evs IH]; intros st Hpending Hcount Hne; [congruence|].
  rewrite run_cons. simpl length in Hcount.
  destruct evs as [|ev' evs].
  - simpl run. rewrite deliver_deferred by exact Hpending.
    destruct (Z.ltb_spec 0 (countdown st - 1)); [simpl in Hcount; lia|].
    rewrite deliver_rejectionOccurred, deliver_rejectionValue.
    unfold is_rejection. simpl first_rejection.
    destruct (rejectionOccurred st), ev as [i [r|e]]; reflexivity.
  - rewrite IH.
    + rewrite deliver_rejectionOccurred, deliver_rejectionValue.
      unfold is_rejection. cbn [first_rejection].
      destruct (rejectionOccurred st), ev as [i [r|e]]; reflexivity.
    + rewrite deliver_deferred by exact Hpending.
      destruct (Z.ltb_spec 0 (countdown st - 1)); [reflexivity|simpl length in Hcount; lia].
    + rewrite deliver_countdown. simpl length in *. lia.
    + discriminate.
Qed.

Lemma run_length (evs : list event) (st : closure) :
  (length (resolutionValues st) <= length (resolutionValues (run evs st)))%nat.
Proof.
  revert st. induction evs as [|ev evs IH]; intros st; [simpl; lia|].
  rewrite run_cons. etransitivity; [|apply IH].
  rewrite deliver_resolutionValues. destruct (snd ev); [apply array_set_length|lia].
Qed.

Lemma run_length_in_range (evs : list event) (st : closure) :
  Forall (fun ev => (fst ev < length (resolutionValues st))%nat) evs ->
  length (resolutionValues (run evs st)) = length (resolutionValues st).
Proof.
  revert st. induction evs as [|ev evs IH]; intros st Hall; [reflexivity|].
  inversion Hall as [|? ? Hev Hrest]; subst.
  assert (Hlen : length (resolutionValues (deliver st ev)) = length (resolutionValues st)).
  { rewrite deliver_resolutionValues.
    destruct (snd ev); [now apply array_set_length_in_range|reflexivity]. }
  rewrite run_cons, IH; [exact Hlen|].
  rewrite Hlen. exact Hrest.
Qed.

(** A slot no event writes to keeps its content. *)
Lemma run_keeps_slot (evs : list event) (st : closure) (i : nat) :
  ~ In i (map fst evs) ->
  (i < length (resolutionValues st))%nat ->
  resolutionValues (run evs st) !! i = resolutionValues st !! i.
Proof.
  revert st. induction evs as [|ev evs IH]; intros st Hnotin Hlt; [reflexivity|].
  rewrite run_cons. simpl in Hnotin.
  assert (Hstep : resolutionValues (deliver st ev) !! i = resolutionValues st !! i).
  { rewrite deliver_resolutionValues.
    destruct (snd ev); [|reflexivity].
    apply array_set_lookup_other; [tauto|exact Hlt]. }
  rewrite IH; [exact Hstep|tauto|].
  eapply Nat.lt_le_trans; [exact Hlt|].
  rewrite deliver_resolutionValues. destruct (snd ev); [apply array_set_length|lia].
Qed.

(** A slot one event resolves holds that event's value at the end. *)
Lemma run_fills_slot (evs : list event) (st : closure) (i : nat) (r : value) :
  NoDup (map fst evs) ->
  In (i, Resolves r) evs ->
  (i < length (resolutionValues st))%nat ->
  resolutionValues (run evs st) !! i = Some (Some r).
Proof.
  revert st. induction evs as [|ev evs IH]; intros st Hnodup Hin Hlt; [contradiction|].
  rewrite run_cons. simpl in Hnodup. apply NoDup_cons in Hnodup as [Hfresh Hnodup].
  assert (Hlen : (i < length (resolutionValues (deliver st ev)))%nat).
  { eapply Nat.lt_le_trans; [exact Hlt|].
    rewrite deliver_resolutionValues. destruct (snd ev); [apply array_set_length|lia]. }
  destruct Hin as [-> | Hin].
  - rewrite run_keeps_slot; [|rewrite <- list_elem_of_In; exact Hfresh|exact Hlen].
    rewrite deliver_resolutionValues. simpl. apply array_set_lookup_same.
  - apply IH; assumption.
Qed.

(** The subscribed indexes. *)

Lemma thenable_indexes_spec (values : list value) (i j : nat) :
  In j (thenable_indexes i values)
  <-> (i <= j)%nat /\ exists v, values !! (j - i)%nat = Some v /\ isThenable v = Ok true.
Proof.
  unfold thenable_indexes. rewrite indexes_where_spec.
  split; intros (Hle & v & Hv & Hthen); (split; [exact Hle|]); exists v; (split; [exact Hv|]).
  - unfold is_thenable in Hthen. destruct (isThenable v) as [[|]|e]; congruence.
  - unfold is_thenable. now rewrite Hthen.
Qed.

Lemma thenable_indexes_NoDup (values : list value) (i : nat) :
  NoDup (thenable_indexes i values).
Proof. apply indexes_where_NoDup. Qed.

Lemma thenable_indexes_cons (v : value) (values : list value) (i : nat) :
  thenable_indexes i (v :: values)
  = match isThenable v with
    | Ok true => i :: thenable_indexes (S i) values
    | _ => thenable_indexes (S i) values
    end.
Proof.
  unfold thenable_indexes. simpl. unfold is_thenable.
  destruct (isThenable v) as [[|]|e]; reflexivity.
Qed.

(** The loop: what the closure and the subscriptions are when it ends. *)
Lemma settleAll_loop_spec (values : list value) :
  forall (i : nat) (st : closure) (subs : list nat) (st' : closure) (subs' : list nat),
    settleAll_loop i values st subs = Ok (st', subs') ->
    (values <> [] -> deferred st = Pending) ->
    rejectionOccurred st = false ->
    countdown st = Z.of_nat (length values + length subs) ->
    (i + length values <= length (resolutionValues st))%nat ->
    subs' = (subs ++ thenable_indexes i values)%list
    /\ countdown st' = Z.of_nat (length subs')
    /\ rejectionOccurred st' = false
    /\ deferred st' = match values with
                      | [] => deferred st
                      | _ => if (length subs' =? 0)%nat then Fulfilled else Pending
                      end
    /\ length (resolutionValues st') = length (resolutionValues st)
    /\ (forall j, (j < i)%nat -> resolutionValues st' !! j = resolutionValues st !! j)
    /\ (forall k v, values !! k = Some v -> isThenable v = Ok false ->
                    resolutionValues st' !! (i + k)%nat = Some (Some v))
    /\ (forall k v, values !! k = Some v -> isThenable v = Ok true ->
                    resolutionValues st' !! (i + k)%nat = resolutionValues st !! (i + k)%nat).
Proof.
  induction values as [|v values IH]; intros i st subs st' subs' Hloop Hpending Hocc Hcount Hlen.
  - simpl in Hloop. injection Hloop as <- <-. simpl in *.
    rewrite app_nil_r.
    repeat split; try assumption; try reflexivity; intros k w Hk; discriminate.
  - simpl in Hloop. simpl length in *.
    specialize (Hpending ltac:(discriminate)).
    destruct (isThenable v) as [[|]|e] eqn:Hv; simpl in Hloop; [| |discriminate].
    + (* a thenable: subscribed to *)
      destruct (IH (S i) st (subs ++ [i])%list st' subs' Hloop) as
          (Hsubs & Hcd & Hocc' & Hdef & Hlen' & Hlow & Hplain & Hthen).
      * intros _. exact Hpending.
      * exact Hocc.
      * rewrite Hcount, length_app. simpl. f_equal. lia.
      * lia.
      * assert (Hsubs' : subs' = (subs ++ i :: thenable_indexes (S i) values)%list).
        { rewrite Hsubs, <- app_assoc. reflexivity. }
        split; [rewrite thenable_indexes_cons, Hv; exact Hsubs'|].
        split; [exact Hcd|]. split; [exact Hocc'|].
        split.
        { assert (Hpos : (length subs' =? 0)%nat = false).
          { apply Nat.eqb_neq. rewrite Hsubs', length_app. simpl. lia. }
          rewrite Hpos. destruct values; rewrite Hdef; [exact Hpending|].
          rewrite Hpos. reflexivity. }
        split; [exact Hlen'|].
        split; [intros j Hj; apply Hlow; lia|].
        split.
        { intros [|k] w Hk Hw; simpl in Hk.
          - congruence.
          - replace (i + S k)%nat with (S i + k)%nat by lia. now apply Hplain. }
        { intros [|k] w Hk Hw; simpl in Hk.
          - rewrite Nat.add_0_r. apply Hlow. lia.
          - replace (i + S k)%nat with (S i + k)%nat by lia. exact (Hthen k w Hk Hw). }
    + (* any other value: resolved at once *)
      change (resolver i v st) with (deliver st (i, Resolves v)) in Hloop.
      set (st1 := deliver st (i, Resolves v)) in *.
      assert (Hcd1 : countdown st1 = Z.of_nat (length values + length subs)).
      { subst st1. rewrite deliver_countdown, Hcount. lia. }
      assert (Hocc1 : rejectionOccurred st1 = false).
      { subst st1. rewrite deliver_rejectionOccurred, Hocc. reflexivity. }
      assert (Hrv1 : resolutionValues st1 = array_set i v (resolutionValues st)).
      { subst st1. now rewrite deliver_resolutionValues. }
      assert (Hlen1 : length (resolutionValues st1) = length (resolutionValues st)).
      { rewrite Hrv1. apply array_set_length_in_range. lia. }
      assert (Hdef1 : deferred st1
                      = if (0 <? Z.of_nat (length values + length subs)) then Pending else Fulfilled).
      { subst st1. rewrite deliver_deferred by exact Hpending.
        rewrite deliver_rejectionOccurred, Hocc, Hcount.
        match goal with
        | |- context [0 <? ?x] =>
            replace x with (Z.of_nat (length values + length subs)) by lia
        end.
        reflexivity. }
      destruct (IH (S i) st1 subs st' subs' Hloop) as
          (Hsubs & Hcd & Hocc' & Hdef & Hlen' & Hlow & Hplain & Hthen).
      * intros Hne. rewrite Hdef1.
        destruct (Z.ltb_spec 0 (Z.of_nat (length values + length subs))); [reflexivity|].
        destruct values; [congruence|simpl in *; lia].
      * exact Hocc1.
      * exact Hcd1.
      * rewrite Hlen1. lia.
      * split; [rewrite thenable_indexes_cons, Hv; exact Hsubs|].
        split; [exact Hcd|]. split; [exact Hocc'|].
        split.
        { destruct values as [|w values]; [|exact Hdef].
          rewrite Hdef, Hdef1. simpl in Hsubs. rewrite app_nil_r in Hsubs. subst subs'.
          simpl. destruct (length subs); reflexivity. }
        split; [congruence|].
        split.
        { intros j Hj. rewrite Hlow by lia. rewrite Hrv1.
          apply array_set_lookup_other; lia. }
        split.
        { intros [|k] w Hk Hw; simpl in Hk.
          - injection Hk as <-. rewrite Nat.add_0_r, Hlow by lia.
            rewrite Hrv1. apply array_set_lookup_same.
          - replace (i + S k)%nat with (S i + k)%nat by lia. now apply Hplain. }
        { intros [|k] w Hk Hw; simpl in Hk.
          - congruence.
          - replace (i + S k)%nat with (S i + k)%nat by lia.
            rewrite (Hthen k w Hk Hw), Hrv1.
            apply array_set_lookup_other; [lia|].
            apply lookup_lt_Some in Hk. lia. }
Qed.

(** [settleAll] at its return. *)
Lemma settleAll_start_spec (values : list value) (st : closure) (subs : list nat) :
  settleAll_start values = Ok (st, subs) ->
  subs = thenable_indexes 0 values
  /\ countdown st = Z.of_nat (length subs)
  /\ rejectionOccurred st = false
  /\ deferred st = (if (length subs =? 0)%nat then Fulfilled else Pending)
  /\ length (resolutionValues st) = length values
  /\ (forall k v, values !! k = Some v -> isThenable v = Ok false ->
                  resolutionValues st !! k = Some (Some v)).
Proof.
  unfold settleAll_start. intros Hstart.
  destruct values as [|v values].
  - simpl in Hstart. injection Hstart as <- <-. simpl.
    repeat split; try reflexivity. intros k w Hk. discriminate.
  - replace (Z.of_nat (length (v :: values)) =? 0) with false in Hstart
      by (symmetry; apply Z.eqb_neq; simpl length; lia).
    destruct (settleAll_loop_spec _ _ _ _ _ _ Hstart)
      as (Hsubs & Hcd & Hocc & Hdef & Hlen & _ & Hplain & _).
    { intros _. reflexivity. }
    { reflexivity. }
    { simpl. f_equal. lia. }
    { simpl. rewrite length_replicate. lia. }
    simpl in Hsubs, Hlen. rewrite length_replicate in Hlen.
    split; [exact Hsubs|]. split; [exact Hcd|]. split; [exact Hocc|].
    split; [exact Hdef|]. split; [exact Hlen|].
    intros k w Hk Hw. apply (Hplain k w Hk Hw).
Qed.

Lemma settleAll_loop_returns (values : list value) :
  Forall (fun v => is_ok (isThenable v) = true) values ->
  forall i st subs, exists st' subs', settleAll_loop i values st subs = Ok (st', subs').
Proof.
  induction 1 as [|v values Hv _ IH]; intros i st subs; simpl; [eauto|].
  destruct (isThenable v) as [[|]|e]; simpl; [apply IH|apply IH|discriminate].
Qed.

(** When the thenable test of every value returns, so does [settleAll]. *)
Lemma settleAll_returns (values : list value) :
  Forall (fun v => is_ok (isThenable v) = true) values ->
  exists st subs, settleAll (ArgArray values) = Ok (st, subs).
Proof.
  intros Hall. simpl. unfold settleAll_start.
  destruct (Z.of_nat (length values) =? 0); [eauto|].
  now apply settleAll_loop_returns.
Qed.

Lemma first_rejection_None (evs : list event) :
  first_rejection evs = None ->
  forall i s, In (i, s) evs -> exists r, s = Resolves r.
Proof.
  induction evs as [|[j [r|e]] evs IH]; simpl; intros Hnone i s Hin; [tauto| |discriminate].
  destruct Hin as [Heq|Hin]; [injection Heq as <- <-; eauto|eauto].
Qed.

Lemma first_rejection_app (done rest : list event) (i : nat) (e : value) :
  first_rejection done = None ->
  first_rejection (done ++ (i, Rejects e) :: rest)%list = Some e.
Proof.
  induction done as [|[j [r|e']] done IH]; simpl; intros Hnone; [reflexivity|auto|discriminate].
Qed.

Lemma settleAll_loop_tests_return (values : list value) :
  forall i st subs r,
    settleAll_loop i values st subs = Ok r ->
    forall k v, values !! k = Some v -> exists b, isThenable v = Ok b.
Proof.
  induction values as [|w values IH]; intros i st subs r Hloop k v Hk; [discriminate|].
  simpl in Hloop.
  destruct (isThenable w) as [b|e] eqn:Hw; simpl in Hloop; [|discriminate].
  destruct k as [|k]; simpl in Hk.
  - injection Hk as <-. eauto.
  - destruct b; eapply IH; eauto.
Qed.

Lemma settleAll_elements (arg : argument) (values : list value) (r : closure * list nat) :
  arg = ArgArray values \/ arg = ArgIterable values ->
  settleAll arg = Ok r ->
  settleAll_start values = Ok r.
Proof. intros [-> | ->] Hcall; exact Hcall. Qed.

Lemma settleAll_tests_return (values : list value) (r : closure * list nat) :
  settleAll_start values = Ok r ->
  forall k v, values !! k = Some v -> exists b, isThenable v = Ok b.
Proof.
  unfold settleAll_start.
  destruct (Z.of_nat (length values) =? 0) eqn:Hzero.
  - intros _ k v Hk. apply Z.eqb_eq in Hzero.
    destruct values; [discriminate|simpl in Hzero; lia].
  - apply settleAll_loop_tests_return.
Qed.

(** A value that is not a thenable is never subscribed to. *)
Lemma plain_not_subscribed (values : list value) (i : nat) (v : value) :
  values !! i = Some v ->
  isThenable v = Ok false ->
  ~ In i (thenable_indexes 0 values).
Proof.
  intros Hi Hv Hin. apply thenable_indexes_spec in Hin as (_ & w & Hw & Hthen).
  rewrite Nat.sub_0_r, Hi in Hw. injection Hw as <-. congruence.
Qed.

Lemma thenable_subscribed (values : list value) (i : nat) (v : value) :
  values !! i = Some v ->
  isThenable v = Ok true ->
  In i (thenable_indexes 0 values).
Proof.
  intros Hi Hv. apply thenable_indexes_spec. split; [lia|].
  exists v. rewrite Nat.sub_0_r. now split.
Qed.

Lemma subscribed_in_range (values : list value) (i : nat) :
  In i (thenable_indexes 0 values) -> (i < length values)%nat.
Proof.
  intros Hin. apply thenable_indexes_spec in Hin as (_ & w & Hw & _).
  rewrite Nat.sub_0_r in Hw. now apply lookup_lt_Some in Hw.
Qed.

(** C1.  [settleAll] over a list of promises and other values.  Whatever the
    order in which the subscribed inputs settle: the returned promise is
    pending as long as one of them has not settled; once all have, it is
    fulfilled when none rejected, with the array that holds at each input's
    index that input's value, and rejected otherwise, with the reason of the
    rejection that came first; over an empty input it is already fulfilled,
    with the empty array, when [settleAll] returns. *)
Theorem settleAll_settles_after_all
    (arg : argument) (values : list value) (st : closure) (subscribed : list nat)
    (evs : list event) :
  arg = ArgArray values \/ arg = ArgIterable values ->
  settleAll arg = Ok (st, subscribed) ->
  Permutation (map fst evs) subscribed ->
  (forall done rest, evs = (done ++ rest)%list -> rest <> [] ->
                     deferred (run done st) = Pending)
  /\ deferred (run evs st) = match first_rejection evs with
                             | Some error => Rejected error
                             | None => Fulfilled
                             end
  /\ (first_rejection evs = None ->
      length (fulfilment (run evs st)) = length values
      /\ forall i v, values !! i = Some v ->
           exists r, fulfilment (run evs st) !! i = Some (Some r)
                     /\ (isThenable v = Ok false -> r = v)
                     /\ (isThenable v = Ok true -> In (i, Resolves r) evs))
  /\ (forall done i error rest,
         evs = (done ++ (i, Rejects error) :: rest)%list ->
         first_rejection done = None ->
         deferred (run evs st) = Rejected error)
  /\ (values = [] -> deferred st = Fulfilled /\ fulfilment st = [] /\ subscribed = []).
Proof.
  intros Harg Hcall Hperm.
  apply (settleAll_elements arg values _ Harg) in Hcall.
  pose proof (settleAll_tests_return values _ Hcall) as Htests.
  destruct (settleAll_start_spec values st subscribed Hcall)
    as (Hsubs & Hcd & Hocc & Hdef & Hlen & Hplain).
  assert (Hcount : length evs = length subscribed).
  { rewrite <- (Permutation_length Hperm). now rewrite length_map. }
  assert (Hnodup : NoDup (map fst evs)).
  { rewrite Hperm, Hsubs. apply thenable_indexes_NoDup. }
  assert (Hsettled : deferred (run evs st) = match first_rejection evs with
                                             | Some error => Rejected error
                                             | None => Fulfilled
                                             end).
  { destruct evs as [|ev evs].
    - simpl. rewrite Hdef. simpl in Hcount. rewrite <- Hcount. reflexivity.
    - rewrite run_settles.
      + rewrite Hocc. reflexivity.
      + rewrite Hdef, <- Hcount. reflexivity.
      + rewrite Hcd, Hcount. reflexivity.
      + discriminate. }
  split; [|split; [exact Hsettled|split; [|split]]].
  - intros done rest -> Hrest. apply run_pending.
    + rewrite Hdef, <- Hcount, length_app.
      destruct rest; [congruence|]. simpl length.
      replace (length done + S (length rest))%nat with (S (length done + length rest)) by lia.
      reflexivity.
    + rewrite Hcd, <- Hcount, length_app.
      destruct rest; [congruence|]. simpl length. lia.
  - intros Hnone.
    assert (Hrange : Forall (fun ev => (fst ev < length (resolutionValues st))%nat) evs).
    { apply Forall_forall. intros ev Hev. apply list_elem_of_In in Hev. rewrite Hlen.
      apply (subscribed_in_range values). rewrite <- Hsubs.
      apply (Permutation_in _ Hperm). now apply in_map. }
    unfold fulfilment. split; [rewrite run_length_in_range by exact Hrange; exact Hlen|].
    intros i v Hi.
    assert (Hi_lt : (i < length (resolutionValues st))%nat).
    { rewrite Hlen. now apply lookup_lt_Some in Hi. }
    destruct (Htests i v Hi) as [[|] Hv].
    + assert (Hin : In i (map fst evs)).
      { apply (Permutation_in _ (Permutation_sym Hperm)). rewrite Hsubs.
        now apply (thenable_subscribed values i v). }
      apply in_map_iff in Hin as ([j s] & Hj & Hev). simpl in Hj. subst j.
      destruct (first_rejection_None evs Hnone i s Hev) as [r ->].
      exists r. split; [now apply run_fills_slot|].
      split; [congruence|]. intros _. exact Hev.
    + exists v. split.
      * rewrite run_keeps_slot; [now apply Hplain| |exact Hi_lt].
        intros Hin. apply (Permutation_in _ Hperm) in Hin. rewrite Hsubs in Hin.
        now apply (plain_not_subscribed values i v).
      * split; [reflexivity|congruence].
  - intros done i error rest -> Hnone.
    pose proof (first_rejection_app done rest i error Hnone) as Hfirst.
    unfold event in *. rewrite Hsettled, Hfirst. reflexivity.
  - intros ->. simpl in Hcall. injection Hcall as <- <-. now repeat split.
Qed.

Lemma settleAll_settles_after_all_witness :
  exists st subscribed,
    settleAll (ArgArray [VNum (Int 1); a_promise; a_promise]) = Ok (st, subscribed)
    /\ deferred (run [(2%nat, Rejects (VStr "late")); (1%nat, Resolves (VStr "done"))] st)
       = Rejected (VStr "late").
Proof.
  eexists. eexists. split; [reflexivity|].
  refine (proj1 (proj2 (settleAll_settles_after_all
            (ArgArray [VNum (Int 1); a_promise; a_promise])
            [VNum (Int 1); a_promise; a_promise] _ [1%nat; 2%nat]
            [(2%nat, Rejects (VStr "late")); (1%nat, Resolves (VStr "done"))]
            (or_introl eq_refl) eq_refl _))).
  simpl. apply perm_swap.
Defined.

Example settleAll_all_resolved :
  exists st subscribed,
    settleAll (ArgArray [a_promise; VStr "plain"; a_promise]) = Ok (st, subscribed)
    /\ deferred st = Pending
    /\ deferred (run [(2%nat, Resolves (VStr "c"))] st) = Pending
    /\ deferred (run [(2%nat, Resolves (VStr "c")); (0%nat, Resolves (VStr "a"))] st) = Fulfilled
    /\ fulfilment (run [(2%nat, Resolves (VStr "c")); (0%nat, Resolves (VStr "a"))] st)
       = [Some (VStr "a"); Some (VStr "plain"); Some (VStr "c")].
Proof. eexists. eexists. repeat split. Qed.

(** Once every subscribed input has called back, each once, the promise is
    settled: rejected with the first rejection, fulfilled when there is none. *)
Lemma settleAll_settled (values : list value) (st : closure) (subscribed : list nat)
    (evs : list event) :
  settleAll_start values = Ok (st, subscribed) ->
  Permutation (map fst evs) subscribed ->
  deferred (run evs st) = match first_rejection evs with
                          | Some error => Rejected error
                          | None => Fulfilled
                          end.
Proof.
  intros Hcall Hperm.
  destruct (settleAll_start_spec values st subscribed Hcall)
    as (_ & Hcd & Hocc & Hdef & _ & _).
  assert (Hcount : length evs = length subscribed).
  { rewrite <- (Permutation_length Hperm). now rewrite length_map. }
  destruct evs as [|ev evs].
  - simpl. rewrite Hdef. simpl in Hcount. rewrite <- Hcount. reflexivity.
  - rewrite run_settles.
    + rewrite Hocc. reflexivity.
    + rewrite Hdef, <- Hcount. reflexivity.
    + rewrite Hcd, Hcount. reflexivity.
    + discriminate.
Qed.

(** C10.  An argument that is [null], or that has no [Symbol.iterator]
    method, makes [settleAll] throw an error from the call itself.  A value
    of the iterable that is not a thenable is stored unchanged at its own
    index of the result array when [settleAll] returns, and stays there
    whatever callbacks run later; and when every subscribed input has
    resolved, the returned promise is fulfilled with that array, which has
    the value at its index. *)
Theorem settleAll_guard_and_plain_values :
  (forall arg,
      arg = ArgNull \/ arg = ArgUndefined \/ arg = ArgNotIterable ->
      exists error, settleAll arg = Throw error
                    /\ Object_prototype_toString error = Ok "[object Error]")
  /\ (forall arg values st subscribed,
         arg = ArgArray values \/ arg = ArgIterable values ->
         settleAll arg = Ok (st, subscribed) ->
         forall i v,
           values !! i = Some v ->
           isThenable v = Ok false ->
           (forall evs,
               Forall (fun ev => In (fst ev) subscribed) evs ->
               fulfilment (run evs st) !! i = Some (Some v))
           /\ (forall evs,
                  Permutation (map fst evs) subscribed ->
                  first_rejection evs = None ->
                  exists result,
                    delivered (run evs st) = Some result
                    /\ result !! i = Some (Some v))).
Proof.
  split.
  - intros arg [-> | [-> | ->]]; eexists; split; reflexivity.
  - intros arg values st subscribed Harg Hcall i v Hi Hv.
    apply (settleAll_elements arg values _ Harg) in Hcall.
    destruct (settleAll_start_spec values st subscribed Hcall)
      as (Hsubs & _ & _ & _ & Hlen & Hplain).
    assert (Hslot : forall evs,
               Forall (fun ev => In (fst ev) subscribed) evs ->
               fulfilment (run evs st) !! i = Some (Some v)).
    { intros evs Hevs. unfold fulfilment. rewrite run_keeps_slot.
      - now apply Hplain.
      - intros Hin. apply in_map_iff in Hin as (ev & Hfst & Hev).
        rewrite Forall_forall in Hevs. apply list_elem_of_In in Hev. specialize (Hevs ev Hev).
        rewrite Hfst, Hsubs in Hevs.
        now apply (plain_not_subscribed values i v).
      - rewrite Hlen. now apply lookup_lt_Some in Hi. }
    split; [exact Hslot|].
    intros evs Hperm Hnone.
    exists (fulfilment (run evs st)). split.
    + unfold delivered.
      rewrite (settleAll_settled values st subscribed evs Hcall Hperm), Hnone. reflexivity.
    + apply Hslot. apply Forall_forall. intros ev Hev. apply list_elem_of_In in Hev.
      apply (Permutation_in _ Hperm). now apply in_map.
Qed.

Lemma settleAll_guard_and_plain_values_witness :
  (exists error, settleAll ArgNull = Throw error)
  /\ exists st subscribed,
       settleAll (ArgIterable [a_promise; VNum (Int 7)]) = Ok (st, subscribed)
       /\ exists result,
            delivered (run [(0%nat, Resolves (VStr "done"))] st) = Some result
            /\ result !! 1%nat = Some (Some (VNum (Int 7))).
Proof.
  split.
  - destruct (proj1 settleAll_guard_and_plain_values ArgNull (or_introl eq_refl))
      as [error [Hthrow _]].
    exists error. exact Hthrow.
  - eexists. eexists. split; [reflexivity|].
    refine (proj2 (proj2 settleAll_guard_and_plain_values
              (ArgIterable [a_promise; VNum (Int 7)]) [a_promise; VNum (Int 7)] _ [0%nat]
              (or_intror eq_refl) eq_refl 1%nat (VNum (Int 7)) eq_refl eq_refl)
              [(0%nat, Resolves (VStr "done"))] _ eq_refl).
    reflexivity.
Defined.

(** A list of plain values is delivered at once, as it is. *)
Example settleAll_plain_values_only :
  exists st,
    settleAll (ArgArray [VNum (Int 1); VStr "two"]) = Ok (st, [])
    /\ delivered st = Some [Some (VNum (Int 1)); Some (VStr "two")].
Proof. eexists. split; reflexivity. Qed.

(** ** More on safeErrorString and reportException *)

Lemma attach_stack_extends (aError : value) (errorString : string) :
  exists suffix, attach_stack aError errorString = Ok (errorString ++ suffix).
Proof.
  assert (Hsame : Ok errorString = @Ok value string (errorString ++ EmptyString)).
  { f_equal. induction errorString as [|a s IH]; [reflexivity|].
    change (String a s = String a (s ++ EmptyString)). now rewrite <- IH. }
  unfold attach_stack.
  destruct (get_prop aError "stack") as [st|e]; simpl; [|eauto].
  destruct (truthy st); [|eauto].
  destruct (toString_call st) as [[]|e]; simpl; eauto.
Qed.

Lemma attach_position_extends (aError line : value) (errorString : string) :
  get_prop aError "lineNumber" = Ok line ->
  (typeof line = "number" -> exists column, get_prop aError "columnNumber" = Ok column) ->
  exists suffix, attach_position aError errorString = Ok (errorString ++ suffix).
Proof.
  assert (Hsame : Ok errorString = @Ok value string (errorString ++ EmptyString)).
  { f_equal. induction errorString as [|a s IH]; [reflexivity|].
    change (String a s = String a (s ++ EmptyString)). now rewrite <- IH. }
  intros Hline Hcolumn. unfold attach_position. rewrite Hline. simpl.
  destruct (String.eqb_spec (typeof line) "number") as [Hnum|_]; [|eauto].
  destruct (Hcolumn Hnum) as [column ->]. simpl.
  destruct (String.eqb (typeof column) "number"); [|eauto].
  destruct line; eauto. destruct column; eauto.
Qed.

(** X1.  When the value's own [toString] gives a string and reading its
    [lineNumber] and [columnNumber] does not throw, the result of
    [safeErrorString] starts with that string, whatever reading or printing
    the stack does.  When the [lineNumber] getter throws, or the
    [columnNumber] getter does after a numeric line, the own string is
    dropped and the result is the generic coercion. *)
Theorem safeErrorString_keeps_own_string (aError : value) (s : string) :
  toString_call aError = Ok (VStr s) ->
  (forall line,
      get_prop aError "lineNumber" = Ok line ->
      (typeof line = "number" -> exists column, get_prop aError "columnNumber" = Ok column) ->
      exists suffix, safeErrorString aError = Ok (s ++ suffix))
  /\ (forall e,
         get_prop aError "lineNumber" = Throw e ->
         safeErrorString aError = Object_prototype_toString aError)
  /\ (forall n e,
         get_prop aError "lineNumber" = Ok (VNum n) ->
         get_prop aError "columnNumber" = Throw e ->
         safeErrorString aError = Object_prototype_toString aError).
Proof.
  intros Hown. unfold safeErrorString, safeErrorString_try. rewrite Hown. simpl.
  destruct (attach_stack_extends aError s) as [stack Hstack]. rewrite Hstack. simpl.
  split; [|split].
  - intros line Hline Hcolumn.
    destruct (attach_position_extends aError line (s ++ stack) Hline Hcolumn) as [position ->].
    simpl. exists (stack ++ position). now rewrite append_assoc.
  - intros e Hline. unfold attach_position. rewrite Hline. reflexivity.
  - intros n e Hline Hcolumn. unfold attach_position. rewrite Hline. simpl.
    rewrite Hcolumn. reflexivity.
Qed.

Lemma safeErrorString_keeps_own_string_witness :
  (exists suffix, safeErrorString sample_error = Ok ("Error: boom" ++ suffix))
  /\ safeErrorString line_getter_throws = Ok "[object Error]".
Proof.
  split.
  - apply (proj1 (safeErrorString_keeps_own_string sample_error "Error: boom" eq_refl)
             (VNum (Int 3))); [reflexivity|].
    intros _. exists (VNum (Int 7)). reflexivity.
  - apply (proj1 (proj2 (safeErrorString_keeps_own_string line_getter_throws "Error: x" eq_refl))
             VNull).
    reflexivity.
Defined.

(** X2.  [reportException] adds exactly one line to the console, who threw
    and the exception as [safeErrorString] renders it, whenever
    [safeErrorString] returns; and it returns for every value whose generic
    coercion does not throw.  When [safeErrorString] throws, which it only
    does with what the generic coercion of the value throws,
    [reportException] throws the same and logs nothing. *)
Theorem reportException_adds_one_line (aWho : string) (aException : value) (log : console) :
  (forall str,
      safeErrorString aException = Ok str ->
      reportException aWho aException log
      = (Ok tt, app log [aWho ++ " threw an exception: " ++ str])
      /\ length (snd (reportException aWho aException log)) = S (length log))
  /\ ((exists s, Object_prototype_toString aException = Ok s) ->
      exists str, safeErrorString aException = Ok str)
  /\ (forall e,
         safeErrorString aException = Throw e ->
         Object_prototype_toString aException = Throw e
         /\ reportException aWho aException log = (Throw e, log)).
Proof.
  split; [|split].
  - intros str Hstr. unfold reportException. rewrite Hstr. simpl.
    split; [reflexivity|]. rewrite length_app. simpl. lia.
  - apply safeErrorString_returns.
  - intros e Hthrow. split; [now apply safeErrorString_throws|].
    now apply reportException_rethrows.
Qed.

Lemma reportException_adds_one_line_witness :
  reportException "f" hostile ["earlier"]
  = (Ok tt, ["earlier"; "f threw an exception: [object Object]"])
  /\ reportException "f" untaggable ["earlier"] = (Throw (VStr "tag"), ["earlier"]).
Proof.
  split.
  - apply (proj1 (reportException_adds_one_line "f" hostile ["earlier"]) "[object Object]").
    reflexivity.
  - apply (proj2 (proj2 (reportException_adds_one_line "f" untaggable ["earlier"]))
             (VStr "tag")).
    reflexivity.
Defined.

(** ** dbg_assert *)

Section DbgAssertFacts.

Variable Error_stack : string.
Variable console_warn : bool.

Let message := deprecationMessage Error_stack.

Lemma dbg_assert_once_logged (cond e : value) (st : dbg_state) :
  haveLoggedDeprecationMessage st = true ->
  dbg_assert Error_stack console_warn cond e st
  = (if truthy cond then VUndefined else e, st).
Proof.
  intros Hlogged. unfold dbg_assert. rewrite Hlogged. simpl.
  destruct (truthy cond); reflexivity.
Qed.

Lemma dbg_assert_calls_once_logged (calls : list (value * value)) (st : dbg_state) :
  haveLoggedDeprecationMessage st = true ->
  dbg_assert_calls Error_stack console_warn calls st
  = (map (fun call => if truthy (fst call) then VUndefined else snd call) calls, st).
Proof.
  intros Hlogged. induction calls as [|[cond e] calls IH]; [reflexivity|].
  simpl. rewrite (dbg_assert_once_logged cond e st Hlogged), IH. reflexivity.
Qed.

(** X3.  Over any run of calls that starts before the deprecation message was
    logged, [dbg_assert] logs the message once, at the first call, to
    [console.log] and, where the host has it, to [console.warn]; each call
    returns [e] when [cond] is falsy and [undefined] otherwise, and none
    throws. *)
Theorem dbg_assert_logs_once (calls : list (value * value)) (st : dbg_state) :
  haveLoggedDeprecationMessage st = false ->
  calls <> [] ->
  dbg_assert_calls Error_stack console_warn calls st
  = (map (fun call => if truthy (fst call) then VUndefined else snd call) calls,
     {| haveLoggedDeprecationMessage := true;
        dbg_log := app (dbg_log st) [message];
        dbg_warn := if console_warn then app (dbg_warn st) [message] else dbg_warn st |}).
Proof.
  intros Hfresh Hcalls. destruct calls as [|[cond e] calls]; [congruence|].
  simpl. unfold dbg_assert at 1. rewrite Hfresh. simpl.
  destruct (truthy cond); simpl; rewrite dbg_assert_calls_once_logged by reflexivity;
    reflexivity.
Qed.

End DbgAssertFacts.

Lemma dbg_assert_logs_once_witness :
  dbg_assert_calls "@file.js:1" true
    [(VBool false, VStr "a"); (VBool true, VStr "b"); (VNull, VStr "c")]
    {| haveLoggedDeprecationMessage := false; dbg_log := []; dbg_warn := [] |}
  = ([VStr "a"; VUndefined; VStr "c"],
     {| haveLoggedDeprecationMessage := true;
        dbg_log := [deprecationMessage "@file.js:1"];
        dbg_warn := [deprecationMessage "@file.js:1"] |}).
Proof.
  apply (dbg_assert_logs_once "@file.js:1" true); [reflexivity|discriminate].
Defined.

(** ** defineLazyGetter *)

Lemma lazy_reads_data (n : nat) (key : string) (v : value) (aObject : lazy_object) :
  lazy_props aObject !! key = Some (LazyData v) ->
  lazy_reads n key aObject = (replicate n (Ok v), aObject).
Proof.
  intros Hdata. induction n as [|n IH]; [reflexivity|].
  simpl. unfold lazy_read. rewrite Hdata, IH. reflexivity.
Qed.

Lemma lazy_reads_absent (n : nat) (key : string) (aObject : lazy_object) :
  lazy_props aObject !! key = None ->
  lazy_reads n key aObject = (replicate n (Ok VUndefined), aObject).
Proof.
  intros Habsent. induction n as [|n IH]; [reflexivity|].
  simpl. unfold lazy_read. rewrite Habsent, IH. reflexivity.
Qed.

(** X4.  After [defineLazyGetter], when the lambda returns [v] at its first
    call: every read of the name gives [v], the lambda is applied once,
    at the first read, and the object ends with the plain value [v] under
    the name and its other properties as they were. *)
Theorem defineLazyGetter_computes_once
    (aObject : lazy_object) (aName : string) (aLambda : nat -> completion) (v : value) (n : nat) :
  aLambda (lazy_calls aObject) = Ok v ->
  lazy_reads (S n) aName (defineLazyGetter aName aLambda aObject)
  = (replicate (S n) (Ok v),
     {| lazy_props := <[aName := LazyData v]> (lazy_props aObject);
        lazy_calls := S (lazy_calls aObject) |}).
Proof.
  intros Hv. simpl. unfold lazy_read at 1, defineLazyGetter. simpl.
  rewrite lookup_insert_eq, Hv, delete_insert_eq, insert_delete_eq.
  rewrite lazy_reads_data with (v := v) by (simpl; apply lookup_insert_eq).
  reflexivity.
Qed.

Lemma defineLazyGetter_computes_once_witness :
  lazy_reads 3 "tools" (defineLazyGetter "tools" counting_lambda empty_lazy_object)
  = ([Ok (VNum (Int 0)); Ok (VNum (Int 0)); Ok (VNum (Int 0))],
     {| lazy_props := <["tools" := LazyData (VNum (Int 0))]> ∅; lazy_calls := 1 |}).
Proof.
  apply (defineLazyGetter_computes_once empty_lazy_object "tools" counting_lambda
           (VNum (Int 0)) 2).
  reflexivity.
Defined.

(** X5.  After [defineLazyGetter], when the lambda throws at its first call:
    the first read throws what the lambda threw; the getter has deleted the
    property before applying the lambda, so every later read gives
    [undefined] and the lambda is never applied again. *)
Theorem defineLazyGetter_throwing_lambda
    (aObject : lazy_object) (aName : string) (aLambda : nat -> completion) (e : value) (n : nat) :
  aLambda (lazy_calls aObject) = Throw e ->
  lazy_reads (S n) aName (defineLazyGetter aName aLambda aObject)
  = (Throw e :: replicate n (Ok VUndefined),
     {| lazy_props := delete aName (lazy_props aObject);
        lazy_calls := S (lazy_calls aObject) |}).
Proof.
  intros He. simpl. unfold lazy_read at 1, defineLazyGetter. simpl.
  rewrite lookup_insert_eq, He, delete_insert_eq.
  rewrite lazy_reads_absent by (simpl; apply lookup_delete_eq).
  reflexivity.
Qed.

Lemma defineLazyGetter_throwing_lambda_witness :
  lazy_reads 2 "tools" (defineLazyGetter "tools" (fun _ => Throw (VStr "boom")) empty_lazy_object)
  = ([Throw (VStr "boom"); Ok VUndefined],
     {| lazy_props := delete "tools" ∅; lazy_calls := 1 |}).
Proof.
  apply (defineLazyGetter_throwing_lambda empty_lazy_object "tools"
           (fun _ => Throw (VStr "boom")) (VStr "boom") 1).
  reflexivity.
Defined.

(** ** defineLazyPrototypeGetter *)

Lemma own_properties_define_same (id : nat) (key : string) (p : proto_property) (calls : nat)
    (w : proto_world) :
  own_properties (Instance id) (define_own (Instance id) key p calls w)
  = <[key := p]> (own_properties (Instance id) w).
Proof. unfold own_properties at 1. simpl. now rewrite lookup_insert_eq. Qed.

Lemma own_properties_define_other (id other : nat) (key : string) (p : proto_property)
    (calls : nat) (w : proto_world) :
  other <> id ->
  own_properties (Instance other) (define_own (Instance id) key p calls w)
  = own_properties (Instance other) w.
Proof. intros Hne. unfold own_properties. simpl. now rewrite lookup_insert_ne. Qed.

Lemma find_inherited (id : nat) (key : string) (w : proto_world) :
  own_properties (Instance id) w !! key = None ->
  find_property (Instance id) key w = the_prototype w !! key.
Proof. intros Hnone. unfold find_property. now rewrite Hnone. Qed.

(** X6.  With a lazy getter defined on the prototype, the first read of the
    key on an instance that does not own it applies the callback to that
    instance and caches the value on the instance alone: a second read gives
    the cached value with no call, the prototype keeps its getter, the other
    instances keep their properties and still find the getter. *)
Theorem defineLazyPrototypeGetter_caches_on_instance
    (w : proto_world) (aKey : string) (aCallback : receiver -> nat -> completion)
    (id : nat) (v : value) :
  own_properties (Instance id) w !! aKey = None ->
  aCallback (Instance id) (proto_calls w) = Ok v ->
  let w1 := defineLazyPrototypeGetter aKey aCallback w in
  let w2 := define_own (Instance id) aKey (ProtoData v) (S (proto_calls w)) w1 in
  proto_read (Instance id) aKey w1 = (Ok v, w2)
  /\ proto_read (Instance id) aKey w2 = (Ok v, w2)
  /\ proto_calls w2 = S (proto_calls w)
  /\ the_prototype w2 = <[aKey := ProtoAccessor aKey aCallback]> (the_prototype w)
  /\ (forall other,
         other <> id ->
         own_properties (Instance other) w2 = own_properties (Instance other) w
         /\ (own_properties (Instance other) w !! aKey = None ->
             find_property (Instance other) aKey w2 = Some (ProtoAccessor aKey aCallback))).
Proof.
  intros Hfresh Hv w1 w2.
  assert (Hown1 : own_properties (Instance id) w1 = own_properties (Instance id) w) by reflexivity.
  assert (Hproto1 : the_prototype w1 !! aKey = Some (ProtoAccessor aKey aCallback)).
  { subst w1. unfold defineLazyPrototypeGetter. simpl. apply lookup_insert_eq. }
  split.
  { unfold proto_read. rewrite find_inherited by (rewrite Hown1; exact Hfresh).
    rewrite Hproto1. change (proto_calls w1) with (proto_calls w). now rewrite Hv. }
  split.
  { unfold proto_read, find_property. subst w2.
    rewrite own_properties_define_same, lookup_insert_eq. reflexivity. }
  split; [reflexivity|]. split; [reflexivity|].
  intros other Hother. split.
  { subst w2. now rewrite own_properties_define_other. }
  intros Hnone. rewrite find_inherited.
  - exact Hproto1.
  - subst w2. now rewrite own_properties_define_other.
Qed.

Lemma defineLazyPrototypeGetter_caches_on_instance_witness :
  fst (proto_read (Instance 1) "front"
         (defineLazyPrototypeGetter "front" name_of_receiver empty_proto_world))
  = Ok (VStr "instance").
Proof.
  pose proof (defineLazyPrototypeGetter_caches_on_instance empty_proto_world "front"
                name_of_receiver 1 (VStr "instance") eq_refl eq_refl) as [Hread _].
  cbv zeta in Hread. now rewrite Hread.
Defined.

(** X7.  When the callback throws, the read throws what it threw and nothing
    is cached or removed: the instance still finds the getter, and the next
    read applies the callback again. *)
Theorem defineLazyPrototypeGetter_retries_after_throw
    (w : proto_world) (aKey : string) (aCallback : receiver -> nat -> completion)
    (id : nat) (e : value) :
  own_properties (Instance id) w !! aKey = None ->
  aCallback (Instance id) (proto_calls w) = Throw e ->
  let w1 := defineLazyPrototypeGetter aKey aCallback w in
  let w1' := {| the_prototype := the_prototype w1; the_instances := the_instances w1;
                proto_calls := S (proto_calls w) |} in
  proto_read (Instance id) aKey w1 = (Throw e, w1')
  /\ find_property (Instance id) aKey w1' = Some (ProtoAccessor aKey aCallback)
  /\ (forall v,
         aCallback (Instance id) (S (proto_calls w)) = Ok v ->
         fst (proto_read (Instance id) aKey w1') = Ok v).
Proof.
  intros Hfresh He w1 w1'.
  assert (Hfind : forall calls,
             find_property (Instance id) aKey
               {| the_prototype := the_prototype w1; the_instances := the_instances w1;
                  proto_calls := calls |}
             = Some (ProtoAccessor aKey aCallback)).
  { intros calls. rewrite find_inherited by exact Hfresh. simpl. apply lookup_insert_eq. }
  split.
  { unfold proto_read. change w1 with
      {| the_prototype := the_prototype w1; the_instances := the_instances w1;
         proto_calls := proto_calls w |} at 1.
    rewrite Hfind. change (proto_calls w1) with (proto_calls w). now rewrite He. }
  split; [apply Hfind|].
  intros v Hv. unfold proto_read. subst w1'. rewrite Hfind. simpl. now rewrite Hv.
Qed.

Lemma defineLazyPrototypeGetter_retries_after_throw_witness :
  fst (proto_read (Instance 1) "front"
         (snd (proto_read (Instance 1) "front"
                 (defineLazyPrototypeGetter "front" fails_once empty_proto_world))))
  = Ok (VStr "second try").
Proof.
  pose proof (defineLazyPrototypeGetter_retries_after_throw empty_proto_world "front"
                fails_once 1 (VStr "not yet") eq_refl eq_refl) as (Hread & _ & Hretry).
  cbv zeta in Hread, Hretry. rewrite Hread. simpl snd.
  apply Hretry. reflexivity.
Defined.

(** X8.  Read on the prototype itself, the key is computed for the prototype
    and the value replaces the getter there: from then on an instance that
    does not own the key reads that value, and the callback is never applied
    to it. *)
Theorem defineLazyPrototypeGetter_read_on_prototype
    (w : proto_world) (aKey : string) (aCallback : receiver -> nat -> completion) (v : value) :
  aCallback ThePrototype (proto_calls w) = Ok v ->
  let w1 := defineLazyPrototypeGetter aKey aCallback w in
  let w2 := {| the_prototype := <[aKey := ProtoData v]> (the_prototype w);
               the_instances := the_instances w;
               proto_calls := S (proto_calls w) |} in
  proto_read ThePrototype aKey w1 = (Ok v, w2)
  /\ forall id,
       own_properties (Instance id) w !! aKey = None ->
       proto_read (Instance id) aKey w2 = (Ok v, w2).
Proof.
  intros Hv w1 w2. split.
  - unfold proto_read, find_property. simpl.
    rewrite lookup_insert_eq. change (proto_calls w1) with (proto_calls w). rewrite Hv.
    unfold define_own. simpl. now rewrite insert_insert_eq.
  - intros id Hfresh. unfold proto_read.
    rewrite find_inherited by exact Hfresh. simpl. now rewrite lookup_insert_eq.
Qed.

Lemma defineLazyPrototypeGetter_read_on_prototype_witness :
  fst (proto_read (Instance 1) "front"
         (snd (proto_read ThePrototype "front"
                 (defineLazyPrototypeGetter "front" name_of_receiver empty_proto_world))))
  = Ok (VStr "prototype").
Proof.
  pose proof (defineLazyPrototypeGetter_read_on_prototype empty_proto_world "front"
                name_of_receiver (VStr "prototype") eq_refl) as [Hread Hinstance].
  cbv zeta in Hread, Hinstance. rewrite Hread.
  exact (f_equal fst (Hinstance 1%nat eq_refl)).
Defined.

(** ** update *)

Lemma update_step {D : Type} (aTarget attrs : gmap string D) :
  map_fold (fun key desc aTarget => <[key := desc]> aTarget) aTarget attrs = attrs ∪ aTarget.
Proof.
  apply (map_fold_weak_ind (fun r m => r = m ∪ aTarget)).
  - now rewrite (left_id_L ∅ (∪)).
  - intros key desc m r _ ->. now rewrite insert_union_l.
Qed.

Lemma update_snoc {D : Type} (aTarget : gmap string D) (aArgs : list (gmap string D))
    (attrs : gmap string D) :
  update aTarget (aArgs ++ [attrs]) = attrs ∪ update aTarget aArgs.
Proof. unfold update. rewrite foldl_app. simpl. apply update_step. Qed.

(** X9.  [update] copies the descriptors of the arguments onto the target in
    the order they are passed: a name's descriptor in the result is the one
    of the last argument that has the name, and the target's own when no
    argument has it; with no argument the target is returned as it is. *)
Theorem update_last_argument_wins {D : Type} (aTarget : gmap string D) :
  update aTarget [] = aTarget
  /\ (forall aArgs attrs key,
         update aTarget (aArgs ++ [attrs]) !! key
         = match attrs !! key with
           | Some desc => Some desc
           | None => update aTarget aArgs !! key
           end)
  /\ (forall aArgs key,
         Forall (fun attrs => attrs !! key = None) aArgs ->
         update aTarget aArgs !! key = aTarget !! key).
Proof.
  split; [reflexivity|]. split.
  - intros aArgs attrs key. rewrite update_snoc, lookup_union.
    destruct (attrs !! key), (update aTarget aArgs !! key); reflexivity.
  - intros aArgs key. induction aArgs as [|attrs aArgs IH] using rev_ind; [reflexivity|].
    intros Hnone. apply Forall_app in Hnone as [Hargs Hattrs].
    inversion Hattrs as [|? ? Hlast _]; subst.
    rewrite update_snoc, lookup_union, Hlast, IH by exact Hargs.
    now destruct (aTarget !! key).
Qed.

Lemma update_last_argument_wins_witness :
  update ({["a" := 0; "b" := 0]} : gmap string Z) [{["b" := 1]}; {["c" := 2]}] !! "a"
  = ({["a" := 0; "b" := 0]} : gmap string Z) !! "a".
Proof.
  apply (proj2 (proj2 (update_last_argument_wins ({["a" := 0; "b" := 0]} : gmap string Z)))).
  constructor; [reflexivity|]. constructor; [reflexivity|]. constructor.
Defined.

(** ** getProperty and hasSafeGetter *)

Lemma hasSafeGetter_returns (aDesc : descriptor) : exists b, hasSafeGetter aDesc = Ok b.
Proof.
  unfold hasSafeGetter, try_catch.
  match goal with |- exists b, match ?body with _ => _ end = _ => destruct body end; eauto.
Qed.

Lemma getProperty_loop_next (aKey : string) (aObj proto : debugger_object)
    (protos : list debugger_object) :
  getOwnPropertyDescriptor aObj aKey = Ok None ->
  getProperty_loop aKey aObj (proto :: protos) = getProperty_loop aKey proto protos.
Proof. intros HaObj. simpl. rewrite HaObj. reflexivity. Qed.

(** The walk passes the objects that do not own the name. *)
Lemma getProperty_loop_skips (aKey : string) (before : list debugger_object) :
  Forall (fun o => getOwnPropertyDescriptor o aKey = Ok None) before ->
  forall aObj protos holder after,
    aObj :: protos = (before ++ holder :: after)%list ->
    getProperty_loop aKey aObj protos = getProperty_loop aKey holder after.
Proof.
  induction 1 as [|o before Ho _ IH]; intros aObj protos holder after Hchain.
  - simpl in Hchain. now injection Hchain as -> ->.
  - simpl in Hchain. injection Hchain as -> ->.
    destruct (before ++ holder :: after)%list as [|proto protos] eqn:Hrest.
    + destruct before; discriminate.
    + rewrite (getProperty_loop_next aKey o proto protos Ho).
      apply IH. now rewrite Hrest.
Qed.

Lemma getProperty_loop_absent (aKey : string) (protos : list debugger_object) :
  forall aObj,
    Forall (fun o => getOwnPropertyDescriptor o aKey = Ok None) (aObj :: protos) ->
    getProperty_loop aKey aObj protos = Ok None.
Proof.
  induction protos as [|proto protos IH]; intros aObj Hall;
    inversion Hall as [|? ? HaObj Hrest]; subst; simpl; rewrite HaObj; simpl; [reflexivity|].
  now apply IH.
Qed.

(** X10.  [getProperty] answers from the first object of the prototype chain
    that owns the name: if that object holds a value, the value is returned
    and nothing is logged, whatever the objects further up hold; and when no
    object of the chain owns the name the result is [undefined], with nothing
    logged. *)
Theorem getProperty_first_owner_wins
    (aKey : string) (before after : list debugger_object) (holder : debugger_object)
    (log : console) :
  Forall (fun o => getOwnPropertyDescriptor o aKey = Ok None) before ->
  (forall desc v,
      getOwnPropertyDescriptor holder aKey = Ok (Some desc) ->
      desc_value desc = Some v ->
      getProperty (before ++ holder :: after) aKey log = (Ok v, log))
  /\ (getOwnPropertyDescriptor holder aKey = Ok None ->
      Forall (fun o => getOwnPropertyDescriptor o aKey = Ok None) after ->
      getProperty (before ++ holder :: after) aKey log = (Ok VUndefined, log)).
Proof.
  intros Hbefore.
  assert (Hwalk : exists aObj protos,
             (before ++ holder :: after)%list = aObj :: protos
             /\ getProperty_loop aKey aObj protos = getProperty_loop aKey holder after).
  { destruct (before ++ holder :: after)%list as [|aObj protos] eqn:Hchain.
    - destruct before; discriminate.
    - exists aObj, protos. split; [reflexivity|].
      now apply (getProperty_loop_skips aKey before Hbefore). }
  destruct Hwalk as (aObj & protos & Hchain & Hloop).
  unfold getProperty, getProperty_try. rewrite Hchain, Hloop. split.
  - intros desc v Hdesc Hvalue.
    destruct after; simpl; rewrite Hdesc; simpl; rewrite Hvalue; reflexivity.
  - intros Hholder Hafter.
    rewrite getProperty_loop_absent by (constructor; assumption). reflexivity.
Qed.

Lemma getProperty_first_owner_wins_witness :
  getProperty [owns_nothing; owns_length; throws_on_lookup] "length" [] = (Ok (VNum (Int 3)), []).
Proof.
  apply (proj1 (getProperty_first_owner_wins "length" [owns_nothing] [throws_on_lookup]
                  owns_length [] ltac:(repeat constructor))
           {| desc_value := Some (VNum (Int 3)); desc_get := None |} (VNum (Int 3)));
    reflexivity.
Defined.

(** X11.  When the first owner holds an accessor, the getter is called only
    if [hasSafeGetter] holds of the descriptor, and then on the object the
    walk started from, not on the owner; the [return] of the completion value
    is the result.  When [hasSafeGetter] does not hold the result is
    [undefined] and the getter is not called.  [hasSafeGetter] itself never
    throws, and is false of a descriptor without a getter and of one whose
    getter cannot be unwrapped. *)
Theorem getProperty_calls_safe_getters_only
    (aKey : string) (before after : list debugger_object) (holder : debugger_object)
    (desc : descriptor) (log : console) :
  Forall (fun o => getOwnPropertyDescriptor o aKey = Ok None) before ->
  getOwnPropertyDescriptor holder aKey = Ok (Some desc) ->
  desc_value desc = None ->
  (hasSafeGetter desc = Ok false ->
   getProperty (before ++ holder :: after) aKey log = (Ok VUndefined, log))
  /\ (forall get completion_value v,
         hasSafeGetter desc = Ok true ->
         desc_get desc = Some get ->
         call get 0%nat = Ok completion_value ->
         get_prop completion_value "return" = Ok v ->
         getProperty (before ++ holder :: after) aKey log = (Ok v, log))
  /\ (exists b, hasSafeGetter desc = Ok b)
  /\ (desc_get desc = None -> hasSafeGetter desc = Ok false)
  /\ (forall get e,
         desc_get desc = Some get -> unwrap get = Throw e -> hasSafeGetter desc = Ok false).
Proof.
  intros Hbefore Hdesc Haccessor.
  assert (Hwalk : exists aObj protos,
             (before ++ holder :: after)%list = aObj :: protos
             /\ getProperty_loop aKey aObj protos = getProperty_loop aKey holder after).
  { destruct (before ++ holder :: after)%list as [|aObj protos] eqn:Hchain.
    - destruct before; discriminate.
    - exists aObj, protos. split; [reflexivity|].
      now apply (getProperty_loop_skips aKey before Hbefore). }
  destruct Hwalk as (aObj & protos & Hchain & Hloop).
  split; [|split; [|split; [|split]]].
  - intros Hunsafe. unfold getProperty, getProperty_try. rewrite Hchain, Hloop.
    destruct after; simpl; rewrite Hdesc; simpl; rewrite Haccessor, Hunsafe; reflexivity.
  - intros get completion_value v Hsafe Hget Hcall Hreturn.
    unfold getProperty, getProperty_try. rewrite Hchain, Hloop.
    destruct after; simpl; rewrite Hdesc; simpl; rewrite Haccessor, Hsafe; simpl;
      rewrite Hget, Hcall; simpl; rewrite Hreturn; reflexivity.
  - apply hasSafeGetter_returns.
  - intros Hnone. unfold hasSafeGetter. now rewrite Hnone.
  - intros get e Hget Hunwrap. unfold hasSafeGetter. now rewrite Hget, Hunwrap.
Qed.

Lemma getProperty_calls_safe_getters_only_witness :
  getProperty [owns_nothing; owns_native_getter] "size" [] = (Ok (VStr "called on 0"), [])
  /\ getProperty [owns_nothing; owns_scripted_getter] "size" [] = (Ok VUndefined, []).
Proof.
  split.
  - apply (proj1 (proj2 (getProperty_calls_safe_getters_only "size" [owns_nothing] []
                           owns_native_getter
                           {| desc_value := None; desc_get := Some native_getter |} []
                           ltac:(repeat constructor) eq_refl eq_refl))
             native_getter (native_completion 0%nat) (VStr "called on 0"));
      reflexivity.
  - apply (proj1 (getProperty_calls_safe_getters_only "size" [owns_nothing] []
                    owns_scripted_getter
                    {| desc_value := None; desc_get := Some scripted_getter |} []
                    ltac:(repeat constructor) eq_refl eq_refl)).
    reflexivity.
Defined.

(** X12.  [getProperty] returns what the walk found and logs nothing; or,
    when a step of the walk threw, among them the first step on an [aObj]
    that is [null], it logs one line through
    [reportException("getProperty", ...)] and returns [undefined].  It throws
    only out of its [catch]: when [reportException] cannot turn what the walk
    threw into a string, that is when the generic coercion of the thrown
    value throws; nothing is logged then. *)
Theorem getProperty_reports_what_is_thrown
    (chain : list debugger_object) (aKey : string) (log : console) :
  (exists v,
      (getProperty_try chain aKey = Ok (Some v)
       \/ (getProperty_try chain aKey = Ok None /\ v = VUndefined))
      /\ getProperty chain aKey log = (Ok v, log))
  \/ (exists thrown str,
         getProperty_try chain aKey = Throw thrown
         /\ safeErrorString thrown = Ok str
         /\ getProperty chain aKey log
            = (Ok VUndefined, app log ["getProperty threw an exception: " ++ str]))
  \/ (exists thrown e,
         getProperty_try chain aKey = Throw thrown
         /\ Object_prototype_toString thrown = Throw e
         /\ getProperty chain aKey log = (Throw e, log)).
Proof.
  unfold getProperty.
  destruct (getProperty_try chain aKey) as [[v|]|thrown].
  - left. exists v. split; [now left|reflexivity].
  - left. exists VUndefined. split; [now right|reflexivity].
  - right. unfold reportException.
    destruct (safeErrorString thrown) as [str|e] eqn:Hstr.
    + left. exists thrown, str. split; [reflexivity|]. split; [exact Hstr|reflexivity].
    + right. exists thrown, e. split; [reflexivity|].
      split; [now apply safeErrorString_throws|reflexivity].
Qed.

Example getProperty_of_null :
  getProperty [] "length" []
  = (Ok VUndefined,
     ["getProperty threw an exception: TypeError: aObj has no properties"]).
Proof. reflexivity. Qed.

Example getProperty_lookup_throws :
  getProperty [owns_nothing; throws_on_lookup; owns_length] "length" []
  = (Ok VUndefined, ["getProperty threw an exception: invisible to Debugger"]).
Proof. reflexivity. Qed.

Example getProperty_lookup_throws_untaggable :
  getProperty [{| getOwnPropertyDescriptor := fun _ => Throw untaggable |}] "length" []
  = (Throw (VStr "tag"), []).
Proof. reflexivity. Qed.

(** ** settleAll counts callbacks *)

Lemma deliver_settled (st : closure) (ev : event) :
  deferred st <> Pending -> deferred (deliver st ev) = deferred st.
Proof.
  intros Hsettled.
  unfold deliver, resolver, rejecter, checkForCompletion, deferred_resolve, deferred_reject.
  destruct ev as [i [r|e]]; simpl; destruct (rejectionOccurred st) eqn:Hocc; simpl;
    repeat match goal with |- context [if ?b then _ else _] => destruct b; simpl end;
    rewrite ?Hocc; simpl;
    destruct (deferred st); try congruence; reflexivity.
Qed.

Lemma run_settled (evs : list event) (st : closure) :
  deferred st <> Pending -> deferred (run evs st) = deferred st.
Proof.
  revert st. induction evs as [|ev evs IH]; intros st Hsettled; [reflexivity|].
  rewrite run_cons, IH; rewrite deliver_settled by exact Hsettled; [reflexivity|exact Hsettled].
Qed.

(** X13.  The promise [settleAll] returns leaves the pending state exactly
    when as many callbacks have run as inputs were subscribed to, whichever
    inputs the callbacks came from: the closure counts callbacks down, not
    inputs. *)
Theorem settleAll_counts_callbacks
    (arg : argument) (values : list value) (st : closure) (subscribed : list nat)
    (evs : list event) :
  arg = ArgArray values \/ arg = ArgIterable values ->
  settleAll arg = Ok (st, subscribed) ->
  (deferred (run evs st) = Pending <-> (length evs < length subscribed)%nat).
Proof.
  intros Harg Hcall.
  apply (settleAll_elements arg values _ Harg) in Hcall.
  destruct (settleAll_start_spec values st subscribed Hcall)
    as (_ & Hcd & Hocc & Hdef & _ & _).
  split.
  - intros Hpending.
    destruct (Nat.lt_ge_cases (length evs) (length subscribed)) as [Hlt|Hge]; [exact Hlt|].
    exfalso.
    rewrite <- (take_drop (length subscribed) evs), run_app in Hpending.
    assert (Hsettled : deferred (run (take (length subscribed) evs) st) <> Pending).
    { assert (Htake : length (take (length subscribed) evs) = length subscribed)
        by (rewrite length_take; lia).
      destruct (length subscribed) as [|n] eqn:Hn.
      - rewrite take_0. simpl. rewrite Hdef. discriminate.
      - rewrite run_settles.
        + rewrite Hocc. destruct (first_rejection _); discriminate.
        + rewrite Hdef. reflexivity.
        + rewrite Hcd, Htake. reflexivity.
        + intros Hnil. rewrite Hnil in Htake. discriminate. }
    rewrite run_settled in Hpending by exact Hsettled. contradiction.
  - intros Hlt. apply run_pending.
    + rewrite Hdef. destruct (length subscribed); [lia|reflexivity].
    + rewrite Hcd. lia.
Qed.

Lemma settleAll_counts_callbacks_witness :
  exists st subscribed,
    settleAll (ArgArray [a_promise; a_promise]) = Ok (st, subscribed)
    /\ deferred (run [(0%nat, Resolves VNull)] st) = Pending
    /\ deferred (run [(0%nat, Resolves VNull); (0%nat, Resolves VNull)] st) <> Pending.
Proof.
  eexists. eexists. split; [reflexivity|].
  split.
  - apply (proj2 (settleAll_counts_callbacks (ArgArray [a_promise; a_promise])
                    [a_promise; a_promise] _ [0%nat; 1%nat] [(0%nat, Resolves VNull)]
                    (or_introl eq_refl) eq_refl)).
    simpl. lia.
  - intros Hpending.
    apply (proj1 (settleAll_counts_callbacks (ArgArray [a_promise; a_promise])
                    [a_promise; a_promise] _ [0%nat; 1%nat]
                    [(0%nat, Resolves VNull); (0%nat, Resolves VNull)]
                    (or_introl eq_refl) eq_refl)) in Hpending.
    simpl in Hpending. lia.
Defined.

(** ** yieldingEach *)

Section YieldingEachFacts.

Variable Date_now : nat -> Z.
Variable aFn : value -> nat -> completion.

Lemma forEach_from_app (xs ys : list value) :
  forall i rs,
    forEach_from aFn i xs = (rs, None) ->
    forEach_from aFn i (xs ++ ys)
    = (let '(rs', thrown) := forEach_from aFn (i + length xs) ys in ((rs ++ rs')%list, thrown)).
Proof.
  induction xs as [|x xs IH]; intros i rs Hxs; simpl in *.
  - injection Hxs as <-. rewrite Nat.add_0_r.
    destruct (forEach_from aFn i ys). reflexivity.
  - destruct (aFn x i) as [r|e]; [|discriminate].
    destruct (forEach_from aFn (S i) xs) as [rs0 thrown] eqn:Hrest.
    injection Hxs as <- ->.
    rewrite (IH (S i) rs0 Hrest).
    replace (S i + length xs)%nat with (i + S (length xs))%nat by lia.
    destruct (forEach_from aFn (i + S (length xs)) ys). reflexivity.
Qed.

Lemma each_while_stands (aArray : list value) (start : Z) (rest : list value) :
  forall st visited,
    aArray = (visited ++ rest)%list ->
    each_i st = length visited ->
    forEach_from aFn 0 visited = (each_outstanding st, None) ->
    each_settled st = EachPending ->
    each_stands aFn aArray (fst (each_while Date_now aFn start rest st))
      (snd (each_while Date_now aFn start rest st)).
Proof.
  induction rest as [|x rest IH]; intros st visited Harray Hi Hvisited Hpending; simpl.
  - unfold each_stands. simpl. rewrite app_nil_r in Harray. subst aArray.
    repeat split; assumption.
  - destruct (16 <? Date_now (each_reads st) - start).
    + unfold each_stands. simpl. rewrite Hpending. exists visited. repeat split; assumption.
    + destruct (aFn x (each_i st)) as [r|e] eqn:Hcall.
      * apply (IH _ (visited ++ [x])%list); simpl.
        -- now rewrite <- app_assoc.
        -- rewrite length_app, Hi. simpl. lia.
        -- rewrite (forEach_from_app _ _ _ _ Hvisited). simpl.
           rewrite <- Hi, Hcall. reflexivity.
        -- exact Hpending.
      * unfold each_stands. simpl. exists visited, x. rewrite <- Hi.
        repeat split; try assumption; try reflexivity.
        subst aArray. rewrite (forEach_from_app _ _ _ _ Hvisited). simpl.
        rewrite <- Hi, Hcall. now rewrite app_nil_r.
Qed.

Lemma each_loop_stands (aArray rest : list value) (st : each_state) :
  each_settled st = EachPending ->
  each_stands aFn aArray st rest ->
  each_stands aFn aArray (fst (each_loop Date_now aFn rest st))
    (snd (each_loop Date_now aFn rest st)).
Proof.
  intros Hpending Hstands. unfold each_stands in Hstands. rewrite Hpending in Hstands.
  destruct Hstands as (visited & Harray & Hi & Hvisited).
  unfold each_loop. now apply (each_while_stands aArray _ rest _ visited).
Qed.

Lemma each_runs_stands (aArray : list value) (n : nat) :
  forall rest st,
    each_settled st = EachPending ->
    each_stands aFn aArray st rest ->
    each_stands aFn aArray (fst (each_runs Date_now aFn n rest st))
      (snd (each_runs Date_now aFn n rest st)).
Proof.
  induction n as [|n IH]; intros rest st Hpending Hstands; simpl; [exact Hstands|].
  pose proof (each_loop_stands aArray rest st Hpending Hstands) as Hloop.
  destruct (each_loop Date_now aFn rest st) as [st' rest']. simpl in Hloop.
  destruct (each_settled st') eqn:Hsettled'; [now apply IH|exact Hloop|exact Hloop].
Qed.

(** X14.  Whatever the clock reads and however many runs the timer makes,
    [yieldingEach] does what a plain loop does, in pieces: it calls [aFn] on
    the elements in index order, each with its own index, and stops at the
    first call that throws.  While the promise is pending a prefix of the
    array has been visited and [outstanding] holds its results; it is
    resolved only when the whole array was visited without a throw; it is
    rejected with what [aFn] threw, the elements after that one being left
    unvisited. *)
Theorem yieldingEach_visits_in_order (aArray : list value) (runs : nat) :
  let st := fst (yieldingEach Date_now aFn aArray runs) in
  let rest := snd (yieldingEach Date_now aFn aArray runs) in
  match each_settled st with
  | EachPending =>
      exists visited,
        aArray = (visited ++ rest)%list
        /\ each_i st = length visited
        /\ forEach_from aFn 0 visited = (each_outstanding st, None)
  | EachResolved =>
      rest = []
      /\ each_i st = length aArray
      /\ forEach_from aFn 0 aArray = (each_outstanding st, None)
  | EachRejected e =>
      exists visited x,
        aArray = (visited ++ x :: rest)%list
        /\ each_i st = S (length visited)
        /\ aFn x (length visited) = Throw e
        /\ forEach_from aFn 0 aArray = (each_outstanding st, Some e)
  end.
Proof.
  apply (each_runs_stands aArray runs aArray each_start); [reflexivity|].
  unfold each_stands. simpl. exists []. repeat split.
Qed.

(** One run of [loop] never gives elements back. *)
Lemma each_while_rest_le (start : Z) (rest : list value) :
  forall st, (length (snd (each_while Date_now aFn start rest st)) <= length rest)%nat.
Proof.
  induction rest as [|x rest IH]; intros st; simpl; [lia|].
  destruct (16 <? Date_now (each_reads st) - start); [simpl; lia|].
  destruct (aFn x (each_i st)); [|simpl; lia].
  etransitivity; [apply IH|lia].
Qed.

(** A run that leaves the promise pending has yielded, with elements left. *)
Lemma each_while_pending_rest (start : Z) (rest : list value) :
  forall st,
    each_settled (fst (each_while Date_now aFn start rest st)) = EachPending ->
    snd (each_while Date_now aFn start rest st) <> [].
Proof.
  induction rest as [|x rest IH]; intros st; simpl; [discriminate|].
  destruct (16 <? Date_now (each_reads st) - start); [discriminate|].
  destruct (aFn x (each_i st)); [apply IH|discriminate].
Qed.

Lemma each_loop_progress (rest : list value) (st : each_state) :
  (forall k, Date_now (S k) - Date_now k <= 16) ->
  each_settled (fst (each_loop Date_now aFn rest st)) = EachPending ->
  (length (snd (each_loop Date_now aFn rest st)) < length rest)%nat.
Proof.
  intros Hclock. unfold each_loop. destruct rest as [|x rest]; simpl; [discriminate|].
  destruct (Z.ltb_spec 16 (Date_now (S (each_reads st)) - Date_now (each_reads st)))
    as [Hlate|_]; [specialize (Hclock (each_reads st)); lia|].
  destruct (aFn x (each_i st)); [|discriminate].
  intros _. apply Nat.lt_succ_r, each_while_rest_le.
Qed.

Lemma each_runs_settles (n : nat) :
  (forall k, Date_now (S k) - Date_now k <= 16) ->
  forall rest st,
    (0 < n)%nat ->
    (length rest <= n)%nat ->
    each_settled (fst (each_runs Date_now aFn n rest st)) <> EachPending.
Proof.
  intros Hclock. induction n as [|n IH]; intros rest st Hpos Hlen; [lia|]. simpl.
  pose proof (each_loop_progress rest st Hclock) as Hprogress.
  pose proof (each_while_pending_rest (Date_now (each_reads st)) rest
                {| each_i := each_i st; each_outstanding := each_outstanding st;
                   each_settled := each_settled st; each_reads := S (each_reads st) |})
    as Hleft.
  fold (each_loop Date_now aFn rest st) in Hleft.
  destruct (each_loop Date_now aFn rest st) as [st' rest']. simpl in *.
  destruct (each_settled st') eqn:Hsettled'; simpl; rewrite ?Hsettled'; try discriminate.
  specialize (Hprogress eq_refl). specialize (Hleft eq_refl).
  apply IH; [|lia].
  destruct rest'; [contradiction|]. simpl in Hprogress. lia.
Qed.

(** X15.  When two successive readings of the clock are never more than 16
    apart, every run of [loop] visits at least one element, so the promise
    is settled after as many runs as the array has elements (after the first
    run when it is empty), and then the whole array was visited or [aFn]
    threw. *)
Theorem yieldingEach_settles (aArray : list value) (runs : nat) :
  (forall k, Date_now (S k) - Date_now k <= 16) ->
  (0 < runs)%nat ->
  (length aArray <= runs)%nat ->
  let st := fst (yieldingEach Date_now aFn aArray runs) in
  (each_settled st = EachResolved
   /\ forEach_from aFn 0 aArray = (each_outstanding st, None))
  \/ (exists e,
         each_settled st = EachRejected e
         /\ forEach_from aFn 0 aArray = (each_outstanding st, Some e)).
Proof.
  intros Hclock Hpos Hlen st.
  pose proof (each_runs_settles runs Hclock aArray each_start Hpos Hlen) as Hsettled.
  pose proof (each_runs_stands aArray runs aArray each_start eq_refl) as Hstands.
  fold (yieldingEach Date_now aFn aArray runs) in Hsettled, Hstands.
  fold st in Hsettled, Hstands.
  unfold each_stands at 2 in Hstands.
  destruct (each_settled st) as [| |e] eqn:Hst.
  - contradiction.
  - left. split; [reflexivity|]. apply Hstands. simpl. exists []. repeat split.
  - right. exists e. split; [reflexivity|].
    destruct Hstands as (visited & x & _ & _ & _ & Hall); [|exact Hall].
    simpl. exists []. repeat split.
Qed.

Lemma each_runs_starves (rest : list value) (n : nat) :
  (forall k, 16 < Date_now (S k) - Date_now k) ->
  rest <> [] ->
  forall st,
    each_settled st = EachPending ->
    each_runs Date_now aFn n rest st
    = ({| each_i := each_i st; each_outstanding := each_outstanding st;
          each_settled := EachPending; each_reads := each_reads st + 2 * n |}, rest).
Proof.
  intros Hclock Hne. induction n as [|n IH]; intros st Hpending.
  - simpl. rewrite Nat.add_0_r. destruct st. simpl in Hpending. now subst.
  - simpl each_runs. unfold each_loop.
    destruct rest as [|x rest']; [contradiction|]. simpl each_while.
    destruct (Z.ltb_spec 16 (Date_now (S (each_reads st)) - Date_now (each_reads st)))
      as [_|Hsoon]; [|specialize (Hclock (each_reads st)); lia].
    simpl each_settled. rewrite Hpending.
    rewrite IH by reflexivity. simpl. repeat f_equal. lia.
Qed.

(** X16.  The clock is read before each element, the first of a run
    included: when successive readings are always more than 16 apart, every
    run yields at once, [aFn] is never called and the promise stays pending,
    however many runs are made. *)
Theorem yieldingEach_starves (aArray : list value) (runs : nat) :
  (forall k, 16 < Date_now (S k) - Date_now k) ->
  aArray <> [] ->
  yieldingEach Date_now aFn aArray runs
  = ({| each_i := 0; each_outstanding := []; each_settled := EachPending;
        each_reads := 2 * runs |}, aArray).
Proof.
  intros Hclock Hne. unfold yieldingEach.
  now rewrite (each_runs_starves aArray runs Hclock Hne each_start eq_refl).
Qed.

End YieldingEachFacts.

Lemma yieldingEach_settles_witness :
  let aArray := [VNum (Int 1); VNum (Int 2); VNum (Int 3)] in
  let st := fst (yieldingEach (fun k => Z.of_nat k) fails_on_second aArray 3) in
  (each_settled st = EachResolved
   /\ forEach_from fails_on_second 0 aArray = (each_outstanding st, None))
  \/ (exists e,
         each_settled st = EachRejected e
         /\ forEach_from fails_on_second 0 aArray = (each_outstanding st, Some e)).
Proof.
  apply (yieldingEach_settles (fun k => Z.of_nat k) fails_on_second
           [VNum (Int 1); VNum (Int 2); VNum (Int 3)] 3).
  - intros k. cbv beta. lia.
  - lia.
  - simpl. lia.
Defined.

Lemma yieldingEach_starves_witness :
  yieldingEach (fun k => 17 * Z.of_nat k) fails_on_second [VNum (Int 1)] 5
  = ({| each_i := 0; each_outstanding := []; each_settled := EachPending;
        each_reads := 10 |}, [VNum (Int 1)]).
Proof.
  apply (yieldingEach_starves (fun k => 17 * Z.of_nat k) fails_on_second [VNum (Int 1)] 5).
  - intros k. cbv beta. lia.
  - discriminate.
Defined.

End DevToolsUtilsFacts.

(** * Properties of the map-like value renderer *)

Module GripMapFacts.
Import GripMap.

(** ** getEntriesIndexes *)

Lemma getEntriesIndexes_from_spec (f : filter) (max : Z) (l : list value) :
  forall (i : nat) (indexes result : list nat),
    getEntriesIndexes_from i l max f indexes = Ok result ->
    result = (indexes
              ++ take (Z.to_nat (max - Z.of_nat (length indexes)))
                      (indexes_where (passes f) i l))%list.
Proof.
  induction l as [|el l IH]; intros i indexes result Hrun.
  - simpl in Hrun. injection Hrun as <-. simpl. now rewrite take_nil, app_nil_r.
  - simpl in Hrun. unfold passes.
    simpl indexes_where. unfold passes.
    destruct (destructure_pair el) as [[key entry]|e]; simpl in Hrun; [|discriminate].
    destruct (Z.ltb_spec (Z.of_nat (length indexes)) max) as [Hlt|Hge].
    + destruct (entry_passes f key entry) as [[|]|e]; simpl in Hrun; [| |discriminate].
      * apply IH in Hrun. rewrite Hrun, length_app. simpl length.
        replace (Z.to_nat (max - Z.of_nat (length indexes)))
          with (S (Z.to_nat (max - Z.of_nat (length indexes + 1)))) by lia.
        simpl. now rewrite <- app_assoc.
      * now apply IH in Hrun.
    + apply IH in Hrun. rewrite Hrun.
      replace (Z.to_nat (max - Z.of_nat (length indexes))) with 0%nat by lia.
      now rewrite !take_0.
Qed.

Lemma getEntriesIndexes_spec (f : filter) (max : Z) (l : list value) (result : list nat) :
  getEntriesIndexes l max f = Ok result ->
  result = take (Z.to_nat max) (indexes_where (passes f) 0 l).
Proof.
  intros Hrun. apply getEntriesIndexes_from_spec in Hrun.
  simpl in Hrun. now rewrite Z.sub_0_r in Hrun.
Qed.




(** ** The indexes [entriesIterator] selects *)




(** ** Sorting the indexes *)


(** ** getEntries *)

Lemma map_reps_spec (l : list value) (n : nat) (indexes : list nat) :
  forall (i : nat) (els : list element),
    map_reps l n i indexes = Ok els ->
    Forall2 (shows l) indexes els /\ displayed els = els.
Proof.
  induction indexes as [|index indexes IH]; intros i els Hrun.
  - simpl in Hrun. injection Hrun as <-. split; [constructor|reflexivity].
  - simpl in Hrun. unfold entry_rep in Hrun.
    destruct (destructure_pair (nth index l Undefined)) as [[key entryValue]|e] eqn:Hpair;
      simpl in Hrun; [|discriminate].
    destruct (unwrap_unguarded entryValue) as [value|e] eqn:Hvalue; simpl in Hrun; [|discriminate].
    destruct (map_reps l n (S i) indexes) as [rest|e] eqn:Hrest; simpl in Hrun; [|discriminate].
    injection Hrun as <-. destruct (IH _ _ Hrest) as [Hshows Hdisplayed].
    split.
    + constructor; [|exact Hshows]. unfold shows. rewrite Hpair. eauto 8.
    + unfold displayed in *. simpl. now rewrite Hdisplayed.
Qed.






Lemma displayed_with_caption (els : list element) (more : Z) :
  displayed els = els -> displayed (els ++ [Caption more]) = els.
Proof.
  unfold displayed. intros Hels. rewrite List.filter_app, Hels. simpl. apply app_nil_r.
Qed.





(** The example of the specification: with room for all three entries the
    empty string is displayed too, in its place; with room for two it is the
    one left out. *)
Example entriesIterator_spec_example :
  entriesIterator default_props (map_grip spec_entries) 3
  = Ok [PropRep (Str "a") (Bool true) ", "; PropRep (Str "b") (Str EmptyString) ", ";
        PropRep (Str "c") (Num (Int 1)) EmptyString]
  /\ entriesIterator default_props (map_grip spec_entries) 2
     = Ok [PropRep (Str "a") (Bool true) ", "; PropRep (Str "c") (Num (Int 1)) ", "; Caption 1].
Proof. split; reflexivity. Qed.

(** Under the default filter a primitive value is interesting exactly when it
    is a boolean, a number or a non-empty string. *)
Lemma default_filter_on_primitives (key : value) :
  (forall b, entry_passes default_isInterestingEntry key (Bool b) = Ok true)
  /\ (forall n, entry_passes default_isInterestingEntry key (Num n) = Ok true)
  /\ (forall s, entry_passes default_isInterestingEntry key (Str s)
                = Ok (negb (String.eqb s EmptyString)))
  /\ entry_passes default_isInterestingEntry key Null = Ok false
  /\ entry_passes default_isInterestingEntry key Undefined = Ok false.
Proof.
  split; [intros [|]; reflexivity|].
  split.
  { intros [|[|p|p]|negative|printed]; reflexivity. }
  split; [|split; reflexivity].
  intros [|a s]; reflexivity.
Qed.

(** ** safeEntriesIterator *)

(** C4.  [safeEntriesIterator] never throws: when [entriesIterator] throws,
    the error is logged with [console.error] and the result is the empty
    array; when it returns, the result is what it returned and nothing is
    logged. *)
Theorem safeEntriesIterator_never_throws
    (P : props) (object : value) (max : option Z) (log : console) :
  let max' := match max with None => 3 | Some max => max end in
  (exists els log', safeEntriesIterator P object max log = (Ok els, log'))
  /\ (forall err,
         entriesIterator P object max' = Throw err ->
         safeEntriesIterator P object max log = (Ok [], app log [err]))
  /\ (forall els,
         entriesIterator P object max' = Ok els ->
         safeEntriesIterator P object max log = (Ok els, log)).
Proof.
  cbv zeta. unfold safeEntriesIterator.
  destruct (entriesIterator P object _) as [els|err].
  - split; [eauto|]. split; [discriminate|]. intros els' Heq. now injection Heq as <-.
  - split; [eauto|]. split; [|discriminate]. intros err' Heq. now injection Heq as <-.
Qed.

Lemma safeEntriesIterator_never_throws_witness :
  safeEntriesIterator default_props (map_grip [Arr [Str "a"; Null]]) None []
  = (Ok [], ["TypeError: null has no properties"]).
Proof.
  apply (proj1 (proj2 (safeEntriesIterator_never_throws
                         default_props (map_grip [Arr [Str "a"; Null]]) None []))).
  reflexivity.
Defined.

(** What [render] displays is what [safeEntriesIterator] returned, or nothing
    in tiny mode: never more than ten entries, three outside the long mode. *)
Lemma render_returns (P : props) (object : value) (mode : MODE) (log : console) :
  exists els log', render P object mode log = (Ok els, log').
Proof.
  unfold render, safeEntriesIterator.
  destruct (entriesIterator P object _) as [els|err]; destruct mode; simpl; eauto.
Qed.

(** ** How many entries are displayed, the caption and the separators *)

Lemma indexes_where_length_le {A : Type} (p : A -> bool) (l : list A) (i : nat) :
  (length (indexes_where p i l) <= length l)%nat.
Proof.
  revert i. induction l as [|x l IH]; intros i; simpl; [lia|].
  destruct (p x); simpl; specialize (IH (S i)); lia.
Qed.

Lemma indexes_where_complement {A : Type} (p q : A -> bool) (l : list A) (i : nat) :
  Forall (fun x => q x = negb (p x)) l ->
  (length (indexes_where p i l) + length (indexes_where q i l) = length l)%nat.
Proof.
  intros Hall. revert i.
  induction Hall as [|x l Hx _ IH]; intros i; simpl; [reflexivity|].
  rewrite Hx. destruct (p x); simpl; specialize (IH (S i)); lia.
Qed.

(** A [reduce] that ends with room left has run the filter on every entry,
    so each entry passes the filter or its negation. *)
Lemma getEntriesIndexes_from_evaluated (f : filter) (max : Z) (l : list value) :
  forall (i : nat) (indexes result : list nat),
    getEntriesIndexes_from i l max f indexes = Ok result ->
    Z.of_nat (length result) < max ->
    Forall (fun el => passes (negate f) el = negb (passes f el)) l.
Proof.
  induction l as [|el l IH]; intros i indexes result Hrun Hroom; [constructor|].
  pose proof (getEntriesIndexes_from_spec _ _ _ _ _ _ Hrun) as Hresult.
  apply (f_equal length) in Hresult. rewrite length_app in Hresult.
  simpl in Hrun.
  destruct (destructure_pair el) as [[key entry]|e] eqn:Hpair; simpl in Hrun; [|discriminate].
  destruct (Z.ltb_spec (Z.of_nat (length indexes)) max) as [_|Hfull]; [|lia].
  destruct (entry_passes f key entry) as [keep|e] eqn:Hkeep; simpl in Hrun; [|discriminate].
  constructor; [|exact (IH _ _ _ Hrun Hroom)].
  unfold passes. rewrite Hpair, Hkeep.
  unfold entry_passes, negate in *.
  destruct (type_of_value (unwrap_guarded entry)) as [type|e]; simpl in *; [|discriminate].
  now rewrite Hkeep.
Qed.

Lemma entry_indexes_length (f : filter) (l : list value) (max : Z) (indexes : list nat) :
  entry_indexes f l max = Ok indexes ->
  length indexes = Nat.min (Z.to_nat max) (length l).
Proof.
  unfold entry_indexes. intros Hrun.
  destruct (getEntriesIndexes l max f) as [first|e] eqn:Hfirst; simpl in Hrun; [|discriminate].
  pose proof (getEntriesIndexes_spec _ _ _ _ Hfirst) as Hspec.
  apply (f_equal length) in Hspec. rewrite length_take in Hspec.
  pose proof (indexes_where_length_le (passes f) l 0) as Hle.
  destruct (Z.ltb_spec (Z.of_nat (length first)) max) as [Hroom|Hfull]; simpl in Hrun.
  - pose proof (getEntriesIndexes_from_evaluated _ _ _ _ _ _ Hfirst Hroom) as Hall.
    pose proof (indexes_where_complement (passes f) (passes (negate f)) l 0 Hall) as Hsum.
    destruct (Z.ltb_spec (Z.of_nat (length first)) (Z.of_nat (length l))) as [Hmore|Hdone];
      simpl in Hrun.
    + destruct (getEntriesIndexes l (max - Z.of_nat (length first)) (negate f))
        as [more|e] eqn:Hmore'; simpl in Hrun; [|discriminate].
      injection Hrun as <-.
      apply getEntriesIndexes_spec in Hmore'. apply (f_equal length) in Hmore'.
      rewrite length_take in Hmore'. rewrite length_app. lia.
    + injection Hrun as <-. lia.
  - injection Hrun as <-. lia.
Qed.

Lemma getEntries_length (l : list value) (indexes : list nat) (els : list element) :
  getEntries l indexes = Ok els ->
  length els = length indexes /\ displayed els = els.
Proof.
  unfold getEntries. intros Hrun.
  destruct (map_reps_spec _ _ _ _ _ Hrun) as [Hshows Hdisplayed].
  split; [|exact Hdisplayed].
  rewrite <- (Forall2_length _ _ _ Hshows).
  apply Permutation_length, Array_sort_perm.
Qed.

Lemma map_reps_delims (l : list value) (n : nat) (indexes : list nat) :
  forall (i : nat) (els : list element),
    map_reps l n i indexes = Ok els ->
    forall k name object delim,
      els !! k = Some (PropRep name object delim) ->
      delim = if (Z.of_nat (i + k) <? Z.of_nat n - 1) || (n <? length l)%nat
              then ", " else EmptyString.
Proof.
  induction indexes as [|index indexes IH]; intros i els Hrun k name object delim Hk.
  - simpl in Hrun. injection Hrun as <-. discriminate.
  - simpl in Hrun.
    destruct (entry_rep l n i index) as [el|e] eqn:Hel; simpl in Hrun; [|discriminate].
    destruct (map_reps l n (S i) indexes) as [rest|e] eqn:Hrest; simpl in Hrun; [|discriminate].
    injection Hrun as <-.
    destruct k as [|k]; simpl in Hk.
    + injection Hk as ->. unfold entry_rep in Hel.
      destruct (destructure_pair (nth index l Undefined)) as [[key entryValue]|e];
        simpl in Hel; [|discriminate].
      destruct (unwrap_unguarded entryValue) as [value|e]; simpl in Hel; [|discriminate].
      injection Hel as _ _ <-. now rewrite Nat.add_0_r.
    + rewrite (IH _ _ Hrest k name object delim Hk).
      now replace (S i + k)%nat with (i + S k)%nat by lia.
Qed.

(** What [entriesIterator] returns: the entries [getEntries] made, as many
    as the limit and the grip allow, and the caption after them when some
    entry is left out. *)
Lemma entriesIterator_shape (P : props) (object : value) (max : Z)
    (l : list value) (els : list element) :
  mapEntries_of object = Ok l ->
  entriesIterator P object max = Ok els ->
  exists indexes entries,
    entry_indexes (entry_filter P) l max = Ok indexes
    /\ getEntries l indexes = Ok entries
    /\ length entries = Nat.min (Z.to_nat max) (length l)
    /\ displayed entries = entries
    /\ els = (entries
              ++ (if (length entries <? length l)%nat
                  then [Caption (Z.of_nat (length l) - max)] else []))%list.
Proof.
  unfold entriesIterator. intros Hl Hrun. rewrite Hl in Hrun. simpl in Hrun.
  destruct (entry_indexes (entry_filter P) l max) as [indexes|e] eqn:Hindexes;
    simpl in Hrun; [|discriminate].
  destruct (getEntries l indexes) as [entries|e] eqn:Hentries; simpl in Hrun; [|discriminate].
  destruct (getEntries_length _ _ _ Hentries) as [Hlen Hdisplayed].
  pose proof (entry_indexes_length _ _ _ _ Hindexes) as Hcount.
  exists indexes, entries. split; [reflexivity|]. split; [exact Hentries|].
  split; [now rewrite Hlen|].
  split; [exact Hdisplayed|].
  destruct (length entries <? length l)%nat; injection Hrun as <-;
    [reflexivity|now rewrite app_nil_r].
Qed.

(** X17.  For a limit that is not negative, [entriesIterator] displays as
    many entries as the limit and the grip allow, the smaller of the two
    numbers, whatever the filter finds interesting; the caption comes last,
    is there exactly when the grip has more entries than the limit, and then
    counts the entries that are not displayed.  With a negative limit no
    entry is displayed and the caption of a grip that has entries counts
    more entries than the grip has. *)
Theorem entriesIterator_caption_counts (P : props) (object : value) (max : Z)
    (l : list value) (els : list element) :
  mapEntries_of object = Ok l ->
  entriesIterator P object max = Ok els ->
  (0 <= max ->
   length (displayed els) = Nat.min (Z.to_nat max) (length l)
   /\ els = (displayed els
             ++ (if max <? Z.of_nat (length l)
                 then [Caption (Z.of_nat (length l) - Z.of_nat (length (displayed els)))]
                 else []))%list)
  /\ (max < 0 ->
      els = if (0 <? length l)%nat then [Caption (Z.of_nat (length l) - max)] else []).
Proof.
  intros Hl Hrun.
  destruct (entriesIterator_shape P object max l els Hl Hrun)
    as (indexes & entries & _ & _ & Hlen & Hdisplayed & ->).
  assert (Hshown : displayed (entries
                     ++ (if (length entries <? length l)%nat
                         then [Caption (Z.of_nat (length l) - max)] else [])) = entries).
  { destruct (length entries <? length l)%nat.
    - now apply displayed_with_caption.
    - now rewrite app_nil_r. }
  split.
  - intros Hmax. rewrite Hshown. split; [exact Hlen|].
    f_equal.
    destruct (Nat.ltb_spec (length entries) (length l)) as [Hless|Hall];
      destruct (Z.ltb_spec max (Z.of_nat (length l))) as [Hcut|Hroom]; try lia.
    + do 2 f_equal. lia.
    + reflexivity.
  - intros Hneg. replace (Z.to_nat max) with 0%nat in Hlen by lia. simpl in Hlen.
    destruct entries; [|discriminate]. reflexivity.
Qed.

Lemma entriesIterator_caption_counts_witness :
  length (displayed [PropRep (Str "a") (Bool true) ", "; PropRep (Str "c") (Num (Int 1)) ", ";
                     Caption 1]) = 2%nat
  /\ entriesIterator default_props (map_grip spec_entries) (-2) = Ok [Caption 5].
Proof.
  split.
  - apply (proj1 (proj1 (entriesIterator_caption_counts default_props (map_grip spec_entries) 2
                           spec_entries _ eq_refl eq_refl) ltac:(lia))).
  - rewrite (proj2 (entriesIterator_caption_counts default_props (map_grip spec_entries) (-2)
                      spec_entries _ eq_refl eq_refl) ltac:(lia)) at 1.
    reflexivity.
Defined.

(** X18.  In what [entriesIterator] returns, every entry that is followed by
    another element, an entry or the caption, ends with a comma and a space,
    and an entry that is the last element has no separator. *)
Theorem entriesIterator_separators (P : props) (object : value) (max : Z)
    (els : list element) (k : nat) (name value : value) (delim : string) :
  entriesIterator P object max = Ok els ->
  els !! k = Some (PropRep name value delim) ->
  delim = if (S k <? length els)%nat then ", " else EmptyString.
Proof.
  intros Hrun Hk.
  destruct (mapEntries_of object) as [l|e] eqn:Hl;
    [|unfold entriesIterator in Hrun; rewrite Hl in Hrun; discriminate].
  destruct (entriesIterator_shape P object max l els Hl Hrun)
    as (indexes & entries & _ & Hentries & _ & _ & ->).
  destruct (getEntries_length _ _ _ Hentries) as [Hlen _].
  assert (Hin : entries !! k = Some (PropRep name value delim)).
  { destruct (lookup_lt_is_Some_2 entries k) as [el Hel].
    - destruct (Nat.lt_ge_cases k (length entries)) as [Hlt|Hge]; [exact Hlt|].
      rewrite lookup_app_r in Hk by exact Hge.
      destruct (length entries <? length l)%nat; [|now rewrite lookup_nil in Hk].
      destruct (k - length entries)%nat; discriminate.
    - rewrite (lookup_app_l_Some _ _ _ _ Hel) in Hk. now rewrite Hel. }
  pose proof (lookup_lt_Some _ _ _ Hin) as Hklt.
  unfold getEntries in Hentries.
  rewrite (map_reps_delims _ _ _ _ _ Hentries k name value delim Hin).
  assert (Hsorted : length (Array_sort by_index indexes) = length entries).
  { rewrite Hlen. apply Permutation_length, Array_sort_perm. }
  rewrite Hsorted, length_app. simpl Nat.add.
  destruct (Nat.ltb_spec (length entries) (length l)) as [Hless|Hall].
  - rewrite orb_true_r. simpl length.
    destruct (Nat.ltb_spec (S k) (length entries + 1)); [reflexivity|lia].
  - rewrite orb_false_r. simpl length. rewrite Nat.add_0_r.
    destruct (Z.ltb_spec (Z.of_nat k) (Z.of_nat (length entries) - 1));
      destruct (Nat.ltb_spec (S k) (length entries)); try lia; reflexivity.
Qed.

Lemma entriesIterator_separators_witness :
  ", " = (if (S 1 <? 3)%nat then ", " else EmptyString)
  /\ EmptyString = (if (S 2 <? 3)%nat then ", " else EmptyString).
Proof.
  split.
  - apply (entriesIterator_separators default_props (map_grip spec_entries) 2
             [PropRep (Str "a") (Bool true) ", "; PropRep (Str "c") (Num (Int 1)) ", "; Caption 1]
             1 (Str "c") (Num (Int 1)) ", "); reflexivity.
  - apply (entriesIterator_separators default_props (map_grip spec_entries) 3
             [PropRep (Str "a") (Bool true) ", "; PropRep (Str "b") (Str EmptyString) ", ";
              PropRep (Str "c") (Num (Int 1)) EmptyString]
             2 (Str "c") (Num (Int 1)) EmptyString); reflexivity.
Defined.

(** ** render *)

(** X19.  [render] never throws and logs at most one error, in which case it
    shows no entry.  In tiny mode it shows nothing between the braces; in
    long mode at most ten entries, otherwise at most three. *)
Theorem render_limits (P : props) (object : value) (mode : MODE) (log : console) :
  exists els,
    (render P object mode log = (Ok els, log)
     \/ exists err, render P object mode log = (Ok els, app log [err]) /\ els = [])
    /\ (mode = TINY -> els = [])
    /\ (length (displayed els)
        <= match mode with TINY => 0 | SHORT => 3 | LONG => 10 end)%nat.
Proof.
  unfold render, safeEntriesIterator.
  set (max := match mode with LONG => 10 | _ => 3 end).
  destruct (entriesIterator P object max) as [els|err] eqn:Hrun.
  - destruct (mapEntries_of object) as [l|e] eqn:Hl;
      [|unfold entriesIterator in Hrun; rewrite Hl in Hrun; discriminate].
    destruct (entriesIterator_shape P object max l els Hl Hrun)
      as (indexes & entries & _ & _ & Hlen & Hdisplayed & Hels).
    assert (Hshown : displayed els = entries).
    { rewrite Hels. destruct (length entries <? length l)%nat.
      - now apply displayed_with_caption.
      - now rewrite app_nil_r. }
    destruct mode; simpl.
    + exists []. split; [now left|]. split; [reflexivity|simpl; lia].
    + exists els. split; [now left|]. split; [discriminate|].
      rewrite Hshown, Hlen. exact (Nat.le_min_l 3 (length l)).
    + exists els. split; [now left|]. split; [discriminate|].
      rewrite Hshown, Hlen. exact (Nat.le_min_l 10 (length l)).
  - exists []. split.
    + right. exists err. destruct mode; simpl; split; reflexivity.
    + split; [reflexivity|simpl; lia].
Qed.

(** ** Entries without a value *)

Lemma map_reps_throws (l : list value) (index : nat) (indexes : list nat) :
  In index indexes ->
  (forall n i, exists e, entry_rep l n i index = Throw e) ->
  forall n i, exists e, map_reps l n i indexes = Throw e.
Proof.
  intros Hin Hthrows n.
  induction indexes as [|index' indexes IH]; intros i; [destruct Hin|]. simpl.
  destruct (entry_rep l n i index') as [el|e] eqn:Hel; simpl; [|eauto].
  destruct Hin as [->|Hin].
  - destruct (Hthrows n i) as [e He]. congruence.
  - destruct (IH Hin (S i)) as [e ->]. simpl. eauto.
Qed.

(** X20.  [getEntries] reads [entryValue.value] without the guard
    [getEntriesIndexes] has.  When an entry that is selected for display has
    [null] or [undefined] for its value, [entriesIterator] throws, and
    [safeEntriesIterator] logs the error and returns the empty array: no
    entry of the map is displayed. *)
Theorem entriesIterator_throws_on_missing_value
    (P : props) (object : value) (max : Z) (l : list value) (indexes : list nat)
    (index : nat) (key entryValue : value) (log : console) :
  mapEntries_of object = Ok l ->
  entry_indexes (entry_filter P) l max = Ok indexes ->
  In index indexes ->
  destructure_pair (nth index l Undefined) = Ok (key, entryValue) ->
  entryValue = Null \/ entryValue = Undefined ->
  exists err,
    entriesIterator P object max = Throw err
    /\ safeEntriesIterator P object (Some max) log = (Ok [], app log [err]).
Proof.
  intros Hl Hindexes Hin Hpair Hmissing.
  assert (Hthrows : forall n i, exists e, entry_rep l n i index = Throw e).
  { intros n i. unfold entry_rep. rewrite Hpair. simpl.
    destruct Hmissing as [-> | ->]; simpl; eauto. }
  assert (Hsorted : In index (Array_sort by_index indexes)).
  { apply (Permutation_in _ (Permutation_sym (Array_sort_perm by_index indexes))), Hin. }
  destruct (map_reps_throws l index _ Hsorted Hthrows
              (length (Array_sort by_index indexes)) 0%nat) as [err Herr].
  exists err.
  assert (Hrun : entriesIterator P object max = Throw err).
  { unfold entriesIterator. rewrite Hl. simpl. rewrite Hindexes. simpl.
    unfold getEntries. rewrite Herr. reflexivity. }
  split; [exact Hrun|].
  unfold safeEntriesIterator. now rewrite Hrun.
Qed.

Lemma entriesIterator_throws_on_missing_value_witness :
  exists err,
    entriesIterator default_props (map_grip five_entries) 10 = Throw err
    /\ safeEntriesIterator default_props (map_grip five_entries) (Some 10) []
       = (Ok [], app [] [err]).
Proof.
  apply (entriesIterator_throws_on_missing_value default_props (map_grip five_entries) 10
           five_entries [1; 3; 4; 0; 2]%nat 0%nat (Str "a") Null []).
  - reflexivity.
  - reflexivity.
  - simpl. tauto.
  - reflexivity.
  - now left.
Defined.

End GripMapFacts.

(** * Properties of the property-tree builder *)

Module ObjectInspectorFacts.
Import ObjectInspector.

(** ** The test suite, replayed *)

Example test_kitchen_sink :
  map node_name (test_makeNodesForProperties kitchen_sink test_root)
  = ["0"; "length"; "__proto__"]
  /\ map node_path (test_makeNodesForProperties kitchen_sink test_root)
     = ["root/0"; "root/length"; "root/__proto__"].
Proof. split; reflexivity. Qed.

Example test_includes_getters_and_setters :
  map node_name (test_makeNodesForProperties getters_and_setters test_root)
  = ["bar"; "baz"; "foo"; "__proto__"]
  /\ map node_path (test_makeNodesForProperties getters_and_setters test_root)
     = ["root/bar"; "root/baz"; "root/foo"; "root/__proto__"].
Proof. split; reflexivity. Qed.

Example test_sorts_keys :
  map node_name (test_makeNodesForProperties sorts_keys test_root)
  = ["1"; "2"; "11"; "_bar"; "bar"; "__proto__"]
  /\ map node_path (test_makeNodesForProperties sorts_keys test_root)
     = ["root/1"; "root/2"; "root/11"; "root/_bar"; "root/bar"; "root/__proto__"].
Proof. split; reflexivity. Qed.

Example test_prototype_is_included :
  map node_name (test_makeNodesForProperties prototype_is_included test_root)
  = ["bar"; "__proto__"]
  /\ map node_path (test_makeNodesForProperties prototype_is_included test_root)
     = ["root/bar"; "root/__proto__"].
Proof. split; reflexivity. Qed.

Example test_window_object :
  map node_name (test_makeNodesForProperties window_object window_root)
  = ["bar"; "[default properties]"]
  /\ map node_path (test_makeNodesForProperties window_object window_root)
     = ["root/bar"; "root/##-default"].
Proof. split; reflexivity. Qed.

Example test_window_prop_on_normal_object :
  isDefault ["location"; "document"] "location" [window_root] = true
  /\ isDefault ["location"; "document"] "location" [object_root] = false.
Proof. split; reflexivity. Qed.

Example test_numerical_buckets :
  map node_name (test_makeNodesForProperties numerical_buckets test_root)
  = ["[0..99]"; "[100..199]"; "[200..299]"; "[300..331]"; "__proto__"]
  /\ map node_path (test_makeNodesForProperties numerical_buckets test_root)
     = ["root/bucket1"; "root/bucket2"; "root/bucket3"; "root/bucket4"; "root/__proto__"].
Proof. split; vm_compute; reflexivity. Qed.

Example test_quotes_property_names :
  map node_name (test_makeNodesForProperties quotes_property_names test_root)
  = [DQ ++ DQ; "332217"; DQ ++ "needs-quotes" ++ DQ; "unquoted"; "__proto__"]
  /\ map node_path (test_makeNodesForProperties quotes_property_names test_root)
     = ["root/"; "root/332217"; "root/needs-quotes"; "root/unquoted"; "root/__proto__"].
Proof. split; reflexivity. Qed.

(** C5, as stated, fails: on the input of the test "quotes property names"
    the empty name, which is not numeric, comes before the numeric key
    332217. *)
Lemma numeric_keys_do_not_all_come_first :
  ~ numeric_keys_precede "root"
      (map node_path (test_makeNodesForProperties quotes_property_names test_root)).
Proof.
  intros Hclaim.
  specialize (Hclaim 1%nat 0%nat "332217" EmptyString eq_refl eq_refl eq_refl eq_refl).
  lia.
Qed.

(** An array of 102 properties is put into two buckets, and the property
    named [location] is in the second. *)
Example test_array_with_location :
  map node_path (test_makeNodesForProperties array_with_location object_root)
  = ["root/bucket1"; "root/bucket2"; "root/__proto__"]
  /\ exists bucket,
       test_makeNodesForProperties array_with_location object_root !! 1%nat = Some bucket
       /\ In (property_node "root/bucket2" "location" with_value) (children_of bucket).
Proof.
  split; [vm_compute; reflexivity|].
  eexists. split; [vm_compute; reflexivity|].
  vm_compute. tauto.
Qed.

(** C7, as stated, fails: on a root that is not a window, the array of 102
    properties, the property named [location], a name of the default set,
    has no node of its own in the node list. *)
Lemma default_name_without_individual_node :
  is_window (parent_class object_root) = false
  /\ in_default_set ["location"; "document"] "location" = true
  /\ In ("location", with_value) (ownProperties array_with_location)
  /\ ~ has_individual_node (test_makeNodesForProperties array_with_location object_root)
        "root" "location".
Proof.
  split; [reflexivity|]. split; [reflexivity|].
  split; [apply in_or_app; right; now left|].
  intros [d Hin].
  apply (in_map node_path) in Hin.
  replace (map node_path (test_makeNodesForProperties array_with_location object_root))
    with ["root/bucket1"; "root/bucket2"; "root/__proto__"] in Hin
    by (vm_compute; reflexivity).
  destruct Hin as [Hpath|[Hpath|[Hpath|[]]]]; discriminate Hpath.
Qed.

(** ** The order of strings *)

Lemma ltb_is_not_leb (a b : string) : String.ltb b a = negb (String.leb a b).
Proof.
  unfold String.ltb, String.leb. rewrite (String.compare_antisym a b).
  destruct (String.compare b a); reflexivity.
Qed.

Lemma leb_trans (a b c : string) :
  String.leb a b = true -> String.leb b c = true -> String.leb a c = true.
Proof.
  intros Hab Hbc.
  assert (H : String.le a c).
  { transitivity b; unfold String.le; [rewrite Hab|rewrite Hbc]; exact I. }
  unfold String.le in H. now destruct (String.leb a c).
Qed.

Lemma leb_empty (b : string) : String.leb EmptyString b = true.
Proof. destruct b; reflexivity. Qed.

(** ** The comparator *)

Lemma is_numeric_nonempty (a : string) : is_numeric a = true -> a <> EmptyString.
Proof. intros Ha ->. discriminate. Qed.

(** What "not after" means for two keys. *)
Lemma compare_keys_le (a b : string) :
  compare_keys a b <= 0
  <-> a = EmptyString
      \/ (b <> EmptyString
          /\ if is_numeric a
             then (if is_numeric b then numeric_value a <= numeric_value b else True)
             else (if is_numeric b then False else String.leb a b = true)).
Proof.
  unfold compare_keys.
  destruct (String.eqb_spec a EmptyString) as [->|Ha].
  - split; [now left|lia].
  - destruct (String.eqb_spec b EmptyString) as [->|Hb].
    + split; [lia|]. intros [Heq|[Hne _]]; congruence.
    + destruct (is_numeric a), (is_numeric b); simpl.
      * split; [intros Hle; right; split; [exact Hb|lia]|intros [Heq|[_ Hle]]; [congruence|lia]].
      * split; [intros _; right; split; [exact Hb|exact I]|lia].
      * split; [lia|intros [Heq|[_ []]]; congruence].
      * rewrite ltb_is_not_leb.
        destruct (String.leb a b); simpl.
        -- split; [intros _; right; split; [exact Hb|reflexivity]|lia].
        -- split; [lia|intros [Heq|[_ Hle]]; congruence].
Qed.

Lemma compare_keys_total (a b : string) :
  0 < compare_keys a b -> compare_keys b a <= 0.
Proof.
  intros Hgt. apply compare_keys_le.
  assert (Hnot : ~ compare_keys a b <= 0) by lia.
  rewrite compare_keys_le in Hnot.
  destruct (String.eqb_spec b EmptyString) as [->|Hb]; [now left|right].
  destruct (String.eqb_spec a EmptyString) as [->|Ha]; [exfalso; apply Hnot; now left|].
  split; [exact Ha|].
  destruct (is_numeric a) eqn:Hna, (is_numeric b) eqn:Hnb.
  - assert (~ numeric_value a <= numeric_value b) by (intros Hle; apply Hnot; right; now split).
    lia.
  - apply Hnot. right. now split.
  - exact I.
  - destruct (String.leb_total a b) as [Hab|Hba]; [|exact Hba].
    exfalso. apply Hnot. right. now split.
Qed.

(** "Not after" is transitive, on all keys. *)
Lemma compare_keys_trans (a b c : string) :
  compare_keys a b <= 0 -> compare_keys b c <= 0 -> compare_keys a c <= 0.
Proof.
  rewrite !compare_keys_le.
  intros [->|[Hb Hab]]; [now left|].
  intros [->|[Hc Hbc]]; [congruence|].
  right. split; [exact Hc|].
  destruct (is_numeric a), (is_numeric b), (is_numeric c); try exact I; try contradiction.
  - lia.
  - now apply (leb_trans a b c).
Qed.

Lemma key_le_in_order (a b : string) : key_le a b -> in_key_order a b.
Proof.
  unfold key_le, in_key_order. rewrite compare_keys_le.
  intros [->|[Hb Hab]].
  - split; [discriminate|]. split; [intros _ _; apply leb_empty|].
    split; [reflexivity|discriminate].
  - split; [intros Ha Hnb; now rewrite Ha, Hnb in Hab|].
    split; [intros Ha Hnb; now rewrite Ha, Hnb in Hab|].
    split; [intros Ha Hnb; now rewrite Ha, Hnb in Hab|].
    intros _ _. exact Hb.
Qed.

(** ** The order of the listed properties *)

Lemma StronglySorted_filter {A : Type} (R : A -> A -> Prop) (f : A -> bool) (l : list A) :
  StronglySorted R l -> StronglySorted R (List.filter f l).
Proof.
  induction 1 as [|x l Hsorted IH Hx]; simpl; [constructor|].
  destruct (f x); [|exact IH].
  constructor; [exact IH|].
  rewrite Forall_forall in Hx |- *. intros y Hy.
  apply Hx. apply list_elem_of_In in Hy. apply filter_In in Hy as [Hy _].
  now apply list_elem_of_In.
Qed.

Lemma StronglySorted_map {A B : Type} (R : B -> B -> Prop) (g : A -> B) (l : list A) :
  StronglySorted (fun x y => R (g x) (g y)) l -> StronglySorted R (map g l).
Proof.
  induction 1 as [|x l Hsorted IH Hx]; simpl; constructor; [exact IH|].
  rewrite Forall_forall in Hx. apply Forall_forall. intros y Hy.
  apply list_elem_of_In, in_map_iff in Hy as (z & <- & Hz).
  apply Hx. now apply list_elem_of_In.
Qed.

Lemma StronglySorted_lookup {A : Type} (R : A -> A -> Prop) (l : list A) (i j : nat) (a b : A) :
  StronglySorted R l ->
  l !! i = Some a -> l !! j = Some b -> (i < j)%nat -> R a b.
Proof.
  intros Hsorted. revert i j.
  induction Hsorted as [|x l Hsorted IH Hx]; intros i j Hi Hj Hlt; [discriminate|].
  destruct j as [|j]; [lia|]. simpl in Hj.
  destruct i as [|i]; simpl in Hi.
  - injection Hi as <-. rewrite Forall_forall in Hx. apply Hx.
    eapply list_elem_of_lookup_2. exact Hj.
  - apply (IH i j); [exact Hi|exact Hj|lia].
Qed.

Lemma Permutation_filter {A : Type} (f : A -> bool) (l l' : list A) :
  Permutation l l' -> Permutation (List.filter f l) (List.filter f l').
Proof.
  induction 1 as [|x l l' _ IH|x y l|l l' l'' _ IH1 _ IH2]; simpl.
  - constructor.
  - destruct (f x); [now constructor|exact IH].
  - destruct (f x), (f y); try reflexivity. apply perm_swap.
  - now transitivity (List.filter f l').
Qed.

Lemma listed_sorted (props : objProps) :
  StronglySorted (fun p q => key_le (fst p) (fst q)) (listed_properties props).
Proof.
  unfold listed_properties, sortProperties.
  apply StronglySorted_filter.
  apply (Array_sort_sorted (fun a b => compare_keys (fst a) (fst b)) (fun _ => True)).
  - intros x y _ _. apply compare_keys_total.
  - intros x y z _ _ _. apply compare_keys_trans.
  - apply Forall_forall. intros x _. exact I.
Qed.

Lemma listed_keys_sorted (props : objProps) :
  StronglySorted key_le (map fst (listed_properties props)).
Proof. apply StronglySorted_map, listed_sorted. Qed.

Lemma listed_keys_perm (props : objProps) :
  Permutation (map fst (listed_properties props))
              (map fst (List.filter is_listed (ownProperties props))).
Proof.
  unfold listed_properties, sortProperties.
  apply Permutation_map, Permutation_filter, Array_sort_perm.
Qed.

Lemma last_app_singleton {A : Type} (l : list A) (x : A) : last (l ++ [x]) = Some x.
Proof. induction l as [|y [|z l] IH]; try reflexivity. exact IH. Qed.

Lemma path_inj (parentPath a b : string) :
  parentPath ++ "/" ++ a = parentPath ++ "/" ++ b -> a = b.
Proof.
  intros Heq. apply String.app_inj in Heq. now apply String.app_inj in Heq.
Qed.

Lemma own_node_inv (properties : list (string * descriptor)) (parentPath : string) (n : node) :
  In n (makeNodesForOwnProps properties parentPath) ->
  exists p, In p properties
            /\ n = createNode (maybeEscapePropertyName (fst p)) (parentPath ++ "/" ++ fst p)
                     (Descriptor (snd p)).
Proof.
  unfold makeNodesForOwnProps. intros Hin.
  apply in_map_iff in Hin as (p & <- & Hp). eauto.
Qed.

Lemma own_node_lookup (properties : list (string * descriptor)) (parentPath key : string)
    (d : descriptor) (i : nat) :
  makeNodesForOwnProps properties parentPath !! i = Some (property_node parentPath key d) ->
  properties !! i = Some (key, d).
Proof.
  unfold makeNodesForOwnProps. rewrite list_lookup_fmap.
  destruct (properties !! i) as [[key' d']|]; [|discriminate]. simpl.
  unfold property_node, createNode. intros Hnode.
  injection Hnode as _ Hpath ->. apply path_inj in Hpath. now subst.
Qed.

Section BuilderFacts.

Variable WINDOW_PROPERTIES : list string.
Variables threshold bucketSize : nat.

Let build := makeNodesForProperties WINDOW_PROPERTIES threshold bucketSize.

(** The nodes that stand for a property itself come first in the list, for
    properties that are in the order of the comparator; the nodes after them
    are the synthetic ones and the prototype. *)
Lemma build_shape (props : objProps) (root : parent) :
  exists individual others,
    build props root = (makeNodesForOwnProps individual (parent_path root) ++ others)%list
    /\ StronglySorted (fun p q => key_le (fst p) (fst q)) individual
    /\ Forall (fun n => forall d, node_contents n <> Descriptor d) others.
Proof.
  subst build. unfold makeNodesForProperties.
  pose proof (listed_sorted props) as Hsorted.
  set (listed := listed_properties props) in *.
  assert (Hproto : Forall (fun n => forall d, node_contents n <> Descriptor d)
                     (prototype_node (prototype props) (parent_path root))).
  { unfold prototype_node. destruct (prototype props); repeat constructor. discriminate. }
  destruct (is_window (parent_class root)).
  - unfold makeDefaultPropsBucket.
    set (user := List.filter
                   (fun p => negb (isDefault WINDOW_PROPERTIES (fst p) [root])) listed).
    exists user.
    destruct (List.filter (fun p => isDefault WINDOW_PROPERTIES (fst p) [root]) listed)
      as [|p defaults].
    + exists (prototype_node (prototype props) (parent_path root)).
      split; [reflexivity|]. split; [now apply StronglySorted_filter|exact Hproto].
    + eexists. split; [rewrite <- app_assoc; reflexivity|].
      split; [now apply StronglySorted_filter|].
      constructor; [discriminate|exact Hproto].
  - destruct (is_bucketed threshold props).
    + exists [], (makeNumericalBuckets bucketSize listed (parent_path root)
                  ++ prototype_node (prototype props) (parent_path root))%list.
      split; [reflexivity|]. split; [constructor|].
      apply Forall_app. split; [|exact Hproto].
      apply Forall_forall. intros n Hn. apply list_elem_of_In in Hn.
      unfold makeNumericalBuckets in Hn. apply in_map_iff in Hn as (i & <- & _).
      discriminate.
    + exists listed, (prototype_node (prototype props) (parent_path root)).
      split; [reflexivity|]. split; [exact Hsorted|exact Hproto].
Qed.

(** C5, as amended.  The listed keys are laid out in one order: numeric keys
    by ascending number (1, 2, 11), then the keys that are not numeric in
    lexicographic order, but for the empty name, which comes before every
    other key.  In the node list of every root the nodes that stand for a
    property itself are in that order; the nodes of an object that is
    neither a window nor a collection put into buckets are these nodes for
    all the listed keys; and the prototype node, when the description has a
    prototype, is the last node. *)
Theorem makeNodesForProperties_order (props : objProps) (root : parent) :
  let keys := map fst (listed_properties props) in
  Permutation keys (map fst (List.filter is_listed (ownProperties props)))
  /\ (forall i j a b,
         keys !! i = Some a -> keys !! j = Some b -> (i < j)%nat ->
         (is_numeric a = true -> is_numeric b = true -> numeric_value a <= numeric_value b)
         /\ (is_numeric a = false -> is_numeric b = false -> String.leb a b = true)
         /\ (is_numeric a = false -> is_numeric b = true -> a = EmptyString)
         /\ (is_numeric a = true -> is_numeric b = false -> b <> EmptyString))
  /\ (forall i j a b,
         keys !! i = Some a -> keys !! j = Some b ->
         is_numeric a = true -> is_numeric b = false -> b <> EmptyString ->
         (i < j)%nat)
  /\ (forall i j a b da db,
         build props root !! i = Some (property_node (parent_path root) a da) ->
         build props root !! j = Some (property_node (parent_path root) b db) ->
         (i < j)%nat ->
         in_key_order a b)
  /\ (is_window (parent_class root) = false ->
      is_bucketed threshold props = false ->
      map node_path (build props root)
      = app (map (fun key => parent_path root ++ "/" ++ key) keys)
            (map node_path (prototype_node (prototype props) (parent_path root))))
  /\ (forall g,
         prototype props = Some g ->
         last (build props root)
         = Some (createNode "__proto__" (parent_path root ++ "/__proto__") (Value g))).
Proof.
  intros keys.
  pose proof (listed_keys_sorted props) as Hsorted. fold keys in Hsorted.
  assert (Hpairs : forall i j a b,
             keys !! i = Some a -> keys !! j = Some b -> (i < j)%nat -> in_key_order a b).
  { intros i j a b Hi Hj Hlt. apply key_le_in_order.
    exact (StronglySorted_lookup key_le keys i j a b Hsorted Hi Hj Hlt). }
  split; [apply listed_keys_perm|].
  split; [exact Hpairs|].
  split.
  { intros i j a b Hi Hj Ha Hb Hne.
    destruct (Nat.lt_trichotomy i j) as [Hlt|[Heq|Hgt]]; [exact Hlt| |].
    - subst j. rewrite Hi in Hj. injection Hj as <-. congruence.
    - exfalso. destruct (Hpairs j i b a Hj Hi Hgt) as (_ & _ & Hempty & _).
      now apply Hne, Hempty. }
  split.
  { intros i j a b da db Hi Hj Hlt.
    destruct (build_shape props root) as (individual & others & Hbuild & Hsort & Hothers).
    rewrite Hbuild in Hi, Hj.
    assert (Hfirst : forall k key d,
               (makeNodesForOwnProps individual (parent_path root) ++ others)%list !! k
               = Some (property_node (parent_path root) key d) ->
               individual !! k = Some (key, d)).
    { intros k key d Hk. apply lookup_app_Some in Hk as [Hk|[_ Hk]].
      - now apply own_node_lookup in Hk.
      - exfalso. rewrite Forall_forall in Hothers.
        apply (Hothers _ (list_elem_of_lookup_2 _ _ _ Hk) d). reflexivity. }
    apply Hfirst in Hi, Hj. apply key_le_in_order.
    exact (StronglySorted_lookup _ individual i j (a, da) (b, db) Hsort Hi Hj Hlt). }
  split.
  { intros Hwindow Hplainlist. subst build keys. unfold makeNodesForProperties.
    rewrite Hwindow, Hplainlist.
    rewrite map_app. f_equal. unfold makeNodesForOwnProps.
    rewrite !map_map. reflexivity. }
  intros g Hg. subst build. unfold makeNodesForProperties. rewrite Hg. simpl.
  apply last_app_singleton.
Qed.


(** ** Buckets *)

Lemma chunks_concat {A : Type} (size : nat) :
  forall (count first : nat) (l : list A),
    (length l <= count * size)%nat ->
    concat (map (fun i => take size (drop ((i - first) * size) l)) (seq first count)) = l.
Proof.
  induction count as [|count IH]; intros first l Hlen.
  - simpl in *. destruct l; [reflexivity|simpl in Hlen; lia].
  - simpl seq. simpl map. rewrite concat_cons, Nat.sub_diag. simpl drop.
    transitivity (take size l ++ drop size l)%list; [|apply take_drop]. f_equal.
    transitivity (concat (map (fun i => take size (drop ((i - S first) * size) (drop size l)))
                              (seq (S first) count))).
    + f_equal. apply map_ext_in. intros i Hi. apply in_seq in Hi.
      rewrite drop_drop. f_equal. f_equal. nia.
    + apply IH. rewrite length_drop. simpl in Hlen. lia.
Qed.

Lemma numBuckets_bounds (n : nat) :
  (0 < bucketSize)%nat -> (0 < n)%nat ->
  ((numBuckets bucketSize n - 1) * bucketSize < n <= numBuckets bucketSize n * bucketSize)%nat.
Proof.
  intros Hsize Hn. unfold numBuckets.
  pose proof (Nat.div_mod_eq (n + bucketSize - 1) bucketSize) as Hdiv.
  pose proof (Nat.mod_upper_bound (n + bucketSize - 1) bucketSize ltac:(lia)) as Hmod.
  set (q := ((n + bucketSize - 1) / bucketSize)%nat) in *.
  set (r := ((n + bucketSize - 1) mod bucketSize)%nat) in *.
  split; nia.
Qed.

Lemma children_of_bucket (listed : list (string * descriptor)) (parentPath : string) (i : nat) :
  children_of (makeBucket bucketSize listed parentPath i)
  = makeNodesForOwnProps (take bucketSize (drop ((i - 1) * bucketSize) listed))
      (parentPath ++ "/" ++ "bucket" ++ pretty i).
Proof. reflexivity. Qed.

(** C6.  An indexed collection, not a window, with more numeric properties
    than the size threshold: the nodes are one bucket for each run of
    [bucketSize] consecutive entries, the last run being what is left, with
    the paths [parent/bucket1] to [parent/bucketN], followed by the
    [__proto__] node. *)
Theorem makeNodesForProperties_buckets (props : objProps) (root : parent) :
  is_window (parent_class root) = false ->
  is_array (prototype props) = true ->
  (threshold < length (List.filter (fun p => is_numeric (fst p)) (listed_properties props)))%nat ->
  (0 < bucketSize)%nat ->
  let listed := listed_properties props in
  let n := length listed in
  let N := numBuckets bucketSize n in
  ((N - 1) * bucketSize < n <= N * bucketSize)%nat
  /\ (forall i,
         (1 <= i <= N)%nat ->
         exists bucket,
           build props root !! (i - 1)%nat = Some bucket
           /\ node_path bucket = parent_path root ++ "/bucket" ++ pretty i
           /\ children_of bucket
              = makeNodesForOwnProps (take bucketSize (drop ((i - 1) * bucketSize) listed))
                  (node_path bucket)
           /\ length (children_of bucket)
              = if (i <? N)%nat then bucketSize else (n - (N - 1) * bucketSize)%nat)
  /\ concat (map (fun i => take bucketSize (drop ((i - 1) * bucketSize) listed)) (seq 1 N))
     = listed
  /\ length (build props root) = S N
  /\ exists g,
       prototype props = Some g
       /\ build props root !! N
          = Some (createNode "__proto__" (parent_path root ++ "/__proto__") (Value g)).
Proof.
  intros Hwindow Harray Hbig Hsize listed n N.
  assert (Hn : (threshold < n)%nat).
  { subst n listed. eapply Nat.lt_le_trans; [exact Hbig|]. apply filter_length_le. }
  assert (Hbounds : ((N - 1) * bucketSize < n <= N * bucketSize)%nat).
  { apply numBuckets_bounds; [exact Hsize|lia]. }
  destruct (prototype props) as [g|] eqn:Hproto; [|discriminate].
  assert (Hbuild : build props root
                   = (map (makeBucket bucketSize listed (parent_path root)) (seq 1 N)
                      ++ [createNode "__proto__" (parent_path root ++ "/__proto__") (Value g)])%list).
  { subst build. unfold makeNodesForProperties, is_bucketed.
    rewrite Hwindow, Hproto, Harray. fold listed. fold n.
    destruct (Nat.ltb_spec threshold n) as [_|Hsmall]; [reflexivity|lia]. }
  split; [exact Hbounds|].
  split.
  { intros i Hi. exists (makeBucket bucketSize listed (parent_path root) i).
    split.
    { rewrite Hbuild, lookup_app_l by (rewrite length_map, length_seq; lia).
      rewrite list_lookup_fmap, lookup_seq_lt by lia.
      simpl. f_equal. f_equal. lia. }
    split; [reflexivity|].
    split; [apply children_of_bucket|].
    rewrite children_of_bucket. unfold makeNodesForOwnProps.
    rewrite length_map, length_take, length_drop. fold n.
    destruct (Nat.ltb_spec i N); nia. }
  split.
  { apply (chunks_concat bucketSize N 1 listed). fold n. lia. }
  split.
  { rewrite Hbuild, length_app, length_map, length_seq. simpl. lia. }
  exists g. split; [reflexivity|].
  rewrite Hbuild.
  rewrite lookup_app_r by (rewrite length_map, length_seq; lia).
  rewrite length_map, length_seq, Nat.sub_diag. reflexivity.
Qed.

(** ** Window roots *)

Lemma listed_iff (props : objProps) (p : string * descriptor) :
  In p (listed_properties props) <-> In p (ownProperties props) /\ is_listed p = true.
Proof.
  unfold listed_properties, sortProperties. rewrite filter_In.
  pose proof (Array_sort_perm (fun a b : string * descriptor => compare_keys (fst a) (fst b))
                (ownProperties props)) as Hperm.
  split; intros [Hin Hlisted]; (split; [|exact Hlisted]).
  - now apply (Permutation_in _ Hperm).
  - now apply (Permutation_in _ (Permutation_sym Hperm)).
Qed.

Lemma isDefault_root (item : string) (root : parent) :
  isDefault WINDOW_PROPERTIES item [root]
  = is_window (parent_class root) && in_default_set WINDOW_PROPERTIES item.
Proof. reflexivity. Qed.

(** C7, as amended.  An own property whose name is in the default-property
    set.  On a window root no property node of the list has its path, and
    the list has one synthetic node, [[default properties]], that holds its
    node; on a root that is not a window it has a normal property node,
    which is in the list itself, or in one of the numerical buckets when the
    collection is put into buckets.  [isDefault] is true only for a window
    root and a name of the set. *)
Theorem window_default_properties
    (props : objProps) (root : parent) (name : string) (d : descriptor) :
  In (name, d) (ownProperties props) ->
  is_listed (name, d) = true ->
  in_default_set WINDOW_PROPERTIES name = true ->
  (is_window (parent_class root) = true ->
   (forall n d',
       In n (build props root) ->
       node_path n = parent_path root ++ "/" ++ name ->
       node_contents n <> Descriptor d')
   /\ exists default,
        In default (build props root)
        /\ node_name default = "[default properties]"
        /\ node_path default = parent_path root ++ "/##-default"
        /\ In (createNode (maybeEscapePropertyName name)
                 ((parent_path root ++ "/##-default") ++ "/" ++ name) (Descriptor d))
              (children_of default)
        /\ forall n children,
             In n (build props root) -> node_contents n = Nodes children -> n = default)
  /\ (is_window (parent_class root) = false ->
      (is_bucketed threshold props = false ->
       In (createNode (maybeEscapePropertyName name) (parent_path root ++ "/" ++ name)
             (Descriptor d))
          (build props root))
      /\ (is_bucketed threshold props = true ->
          (0 < bucketSize)%nat ->
          exists i,
            In (makeBucket bucketSize (listed_properties props) (parent_path root) i)
               (build props root)
            /\ In (createNode (maybeEscapePropertyName name)
                     ((parent_path root ++ "/" ++ "bucket" ++ pretty i) ++ "/" ++ name)
                     (Descriptor d))
                  (children_of
                     (makeBucket bucketSize (listed_properties props) (parent_path root) i))))
  /\ (forall item roots,
         isDefault WINDOW_PROPERTIES item roots = true ->
         exists r rest,
           roots = r :: rest
           /\ is_window (parent_class r) = true
           /\ in_default_set WINDOW_PROPERTIES item = true)
  /\ (forall item r,
         isDefault WINDOW_PROPERTIES item [r]
         = is_window (parent_class r) && in_default_set WINDOW_PROPERTIES item).
Proof.
  intros Hown Hlisted Hdefault.
  assert (Hin : In (name, d) (listed_properties props)) by now apply listed_iff.
  set (listed := listed_properties props) in *.
  split; [|split; [|split]].
  - intros Hwindow.
    set (def := fun p : string * descriptor => isDefault WINDOW_PROPERTIES (fst p) [root]).
    assert (Hdef : forall p, def p = in_default_set WINDOW_PROPERTIES (fst p)).
    { intros p. unfold def. now rewrite isDefault_root, Hwindow. }
    set (user := List.filter (fun p => negb (def p)) listed).
    set (defaults := List.filter def listed).
    set (default :=
           createNode "[default properties]" (parent_path root ++ "/##-default")
             (Nodes (makeNodesForOwnProps defaults (parent_path root ++ "/##-default")))).
    assert (Hindef : In (name, d) defaults).
    { apply filter_In. split; [exact Hin|]. now rewrite Hdef. }
    assert (Hbuild : build props root
                     = (makeNodesForOwnProps user (parent_path root) ++ [default]
                        ++ prototype_node (prototype props) (parent_path root))%list).
    { subst build. unfold makeNodesForProperties, makeDefaultPropsBucket.
      rewrite Hwindow. fold listed. fold def. fold user. fold defaults.
      destruct defaults as [|p rest] eqn:Hdefaults; [contradiction|].
      rewrite <- app_assoc. reflexivity. }
    assert (Hcases : forall n,
               In n (build props root) ->
               (exists p, In p user
                          /\ n = createNode (maybeEscapePropertyName (fst p))
                                   (parent_path root ++ "/" ++ fst p) (Descriptor (snd p)))
               \/ n = default
               \/ exists g, n = createNode "__proto__" (parent_path root ++ "/__proto__") (Value g)).
    { intros n Hn. rewrite Hbuild in Hn.
      apply in_app_or in Hn as [Hn|Hn]; [left; now apply own_node_inv|].
      destruct Hn as [<-|Hn]; [now right; left|].
      right; right. unfold prototype_node in Hn.
      destruct (prototype props) as [g|]; [|contradiction].
      destruct Hn as [<-|[]]. eauto. }
    split.
    + intros n d' Hn Hpath Hcontents.
      destruct (Hcases n Hn) as [(p & Hp & ->)|[->|(g & ->)]]; [|discriminate..].
      simpl in Hpath. apply path_inj in Hpath.
      apply filter_In in Hp as [_ Hp]. rewrite Hdef, Hpath, Hdefault in Hp. discriminate.
    + exists default. split; [rewrite Hbuild; apply in_or_app; right; now left|].
      split; [reflexivity|]. split; [reflexivity|].
      split.
      * unfold default, children_of. simpl. unfold makeNodesForOwnProps.
        apply in_map_iff. exists (name, d). split; [reflexivity|exact Hindef].
      * intros n children Hn Hcontents.
        destruct (Hcases n Hn) as [(p & Hp & ->)|[->|(g & ->)]];
          [discriminate|reflexivity|discriminate].
  - intros Hwindow. split.
    + intros Hsmall. subst build. unfold makeNodesForProperties. rewrite Hwindow, Hsmall.
      fold listed.
      apply in_or_app. left. unfold makeNodesForOwnProps.
      apply in_map_iff. exists (name, d). split; [reflexivity|exact Hin].
    + intros Hbig Hsize.
      assert (Hn : (0 < length listed)%nat).
      { unfold is_bucketed in Hbig. apply andb_true_iff in Hbig as [_ Hbig].
        apply Nat.ltb_lt in Hbig. fold listed in Hbig. lia. }
      pose proof (numBuckets_bounds (length listed) Hsize Hn) as Hbounds.
      pose proof (chunks_concat bucketSize (numBuckets bucketSize (length listed)) 1 listed
                    ltac:(lia)) as Hchunks.
      rewrite <- Hchunks in Hin.
      apply in_concat in Hin as (chunk & Hchunk & Hin).
      apply in_map_iff in Hchunk as (i & <- & Hi).
      exists i. split.
      * subst build. unfold makeNodesForProperties. rewrite Hwindow, Hbig. fold listed.
        apply in_or_app. left. unfold makeNumericalBuckets. now apply in_map.
      * rewrite children_of_bucket. unfold makeNodesForOwnProps.
        apply in_map_iff. exists (name, d). split; [reflexivity|exact Hin].
  - intros item [|r rest] Hitem; [discriminate|].
    simpl in Hitem. apply andb_true_iff in Hitem as [Hw Hd]. eauto.
  - intros item r. apply isDefault_root.
Qed.

End BuilderFacts.

Lemma makeNodesForProperties_order_witness :
  map node_path (test_makeNodesForProperties sorts_keys test_root)
  = ["root/1"; "root/2"; "root/11"; "root/_bar"; "root/bar"; "root/__proto__"]
  /\ in_key_order "2" "11" /\ in_key_order EmptyString "332217".
Proof.
  split; [|split].
  - exact (proj1 (proj2 (proj2 (proj2 (proj2
             (makeNodesForProperties_order ["location"; "document"] 100 100
                sorts_keys test_root)))))
             eq_refl eq_refl).
  - exact (proj1 (proj2 (proj2 (proj2
             (makeNodesForProperties_order ["location"; "document"] 100 100
                sorts_keys test_root))))
             1%nat 2%nat "2" "11" with_value with_value eq_refl eq_refl ltac:(lia)).
  - exact (proj1 (proj2 (proj2 (proj2
             (makeNodesForProperties_order ["location"; "document"] 100 100
                quotes_property_names test_root))))
             0%nat 1%nat EmptyString "332217" with_value with_value eq_refl eq_refl ltac:(lia)).
Defined.

Lemma makeNodesForProperties_buckets_witness :
  exists bucket,
    test_makeNodesForProperties numerical_buckets test_root !! 3%nat = Some bucket
    /\ node_path bucket = "root/bucket4"
    /\ length (children_of bucket) = 31%nat.
Proof.
  assert (Hlisted : listed_properties numerical_buckets = ownProperties numerical_buckets)
    by (vm_compute; reflexivity).
  destruct (proj1 (proj2 (makeNodesForProperties_buckets ["location"; "document"] 100 100
                            numerical_buckets test_root eq_refl eq_refl
                            ltac:(rewrite Hlisted; vm_compute; lia)
                            ltac:(lia)))
              4%nat ltac:(rewrite Hlisted; vm_compute; lia))
    as (bucket & Hbucket & Hpath & _ & Hlength).
  exists bucket. split; [exact Hbucket|]. split; [exact Hpath|].
  rewrite Hlength, Hlisted. vm_compute. reflexivity.
Defined.

Lemma window_default_properties_witness :
  (exists default,
      In default (test_makeNodesForProperties window_object window_root)
      /\ node_name default = "[default properties]"
      /\ node_path default = "root/##-default")
  /\ In (createNode "location" "root/location" (Descriptor with_value))
        (test_makeNodesForProperties window_object object_root).
Proof.
  pose proof (window_default_properties ["location"; "document"] 100 100
                window_object window_root "location" with_value
                ltac:(simpl; auto) eq_refl eq_refl) as [Hwindow _].
  pose proof (window_default_properties ["location"; "document"] 100 100
                window_object object_root "location" with_value
                ltac:(simpl; auto) eq_refl eq_refl) as [_ [Hobject _]].
  split.
  - destruct (Hwindow eq_refl) as [_ (default & Hin & Hname & Hpath & _)].
    exists default. auto.
  - apply (proj1 (Hobject eq_refl)). reflexivity.
Defined.

End ObjectInspectorFacts.
